(** * protog: a generator of streaming JSON-to-protobuf parsers

    A verification development for [src/protog.cpp].  The generator loads a
    [.proto] schema, builds a tree of typed nodes (the parse graph), numbers
    the nodes with states, and prints a C++ parser whose yajl callbacks
    switch on the current state.

    The development follows the program:
    - the descriptor model of the protobuf library (an interface the
      program uses, given here as records);
    - [Node] and [Graph], with the heap of nodes as an arena indexed by
      pointers, the root at pointer 0;
    - the graph builder ([addChild], [addNodeToTypeLists], [injectArrayNode],
      [injectObjectNode], [parseMessageDescRec], [parseMessageDesc]);
    - the printer, whose output is kept as the syntax tree of the printed
      switch statements, with an interpreter for the printed code;
    - [main]. *)

From Stdlib Require Import ZArith String Ascii List Lia Sorted.
From stdpp Require Import base tactics option list strings pretty.

Local Open Scope string_scope.
Local Open Scope list_scope.
Local Open Scope Z_scope.

(** ** Outcomes of the generator's functions *)

(** A function of the generator returns, throws a [std::runtime_error]
    (the string is [what()]), fails an [assert], runs into undefined
    behaviour (a null pointer dereferenced, a signed counter overflowing),
    or recurses deeper than the fuel the model was given. *)
Inductive Res (A : Type) : Type :=
| Ok (a : A)
| Throw (what : string)
| Abort
| Undefined
| OutOfFuel.
Arguments Ok {A} a.
Arguments Throw {A} what.
Arguments Abort {A}.
Arguments Undefined {A}.
Arguments OutOfFuel {A}.

#[global] Instance Res_ret : MRet Res := @Ok.
#[global] Instance Res_bind : MBind Res := fun A B f m =>
  match m with
  | Ok a => f a
  | Throw w => Throw w
  | Abort => Abort
  | Undefined => Undefined
  | OutOfFuel => OutOfFuel
  end.

(** Dereferencing a pointer that may be null. *)
Definition deref {A} (p : option A) : Res A :=
  match p with Some a => Ok a | None => Undefined end.

(** [assert(c)] *)
Definition assert (c : bool) : Res unit :=
  if c then Ok tt else Abort.

(** ** The descriptor model (google::protobuf) *)

(** [FieldDescriptor::Type], with the numbering of descriptor.h. *)
Inductive FieldType : Set :=
| TYPE_DOUBLE | TYPE_FLOAT | TYPE_INT64 | TYPE_UINT64 | TYPE_INT32
| TYPE_FIXED64 | TYPE_FIXED32 | TYPE_BOOL | TYPE_STRING | TYPE_GROUP
| TYPE_MESSAGE | TYPE_BYTES | TYPE_UINT32 | TYPE_ENUM | TYPE_SFIXED32
| TYPE_SFIXED64 | TYPE_SINT32 | TYPE_SINT64.

Definition type_tag (t : FieldType) : Z :=
  match t with
  | TYPE_DOUBLE => 1 | TYPE_FLOAT => 2 | TYPE_INT64 => 3 | TYPE_UINT64 => 4
  | TYPE_INT32 => 5 | TYPE_FIXED64 => 6 | TYPE_FIXED32 => 7 | TYPE_BOOL => 8
  | TYPE_STRING => 9 | TYPE_GROUP => 10 | TYPE_MESSAGE => 11
  | TYPE_BYTES => 12 | TYPE_UINT32 => 13 | TYPE_ENUM => 14
  | TYPE_SFIXED32 => 15 | TYPE_SFIXED64 => 16 | TYPE_SINT32 => 17
  | TYPE_SINT64 => 18
  end.

(** [FieldDescriptor::type_name()] *)
Definition proto_type_name (t : FieldType) : string :=
  match t with
  | TYPE_DOUBLE => "double" | TYPE_FLOAT => "float" | TYPE_INT64 => "int64"
  | TYPE_UINT64 => "uint64" | TYPE_INT32 => "int32"
  | TYPE_FIXED64 => "fixed64" | TYPE_FIXED32 => "fixed32"
  | TYPE_BOOL => "bool" | TYPE_STRING => "string" | TYPE_GROUP => "group"
  | TYPE_MESSAGE => "message" | TYPE_BYTES => "bytes"
  | TYPE_UINT32 => "uint32" | TYPE_ENUM => "enum"
  | TYPE_SFIXED32 => "sfixed32" | TYPE_SFIXED64 => "sfixed64"
  | TYPE_SINT32 => "sint32" | TYPE_SINT64 => "sint64"
  end.

Inductive Label : Set := LABEL_OPTIONAL | LABEL_REQUIRED | LABEL_REPEATED.

(** A field of a message.  [fd_message_type] holds the full name of the
    message type of the field; the descriptor itself is found in the pool,
    so that a message may mention itself.  [fd_enum_type] is the full name
    of the enum type of a field of type [TYPE_ENUM], which the library
    always provides (the program asks for it for such fields only). *)
Record FieldDescriptor : Type := mkField {
  fd_name : string;
  fd_type : FieldType;
  fd_label : Label;
  fd_message_type : option string;
  fd_enum_type : string
}.

Record Descriptor : Type := mkDescriptor {
  d_name : string;
  d_full_name : string;
  d_fields : list FieldDescriptor
}.

(** A built file: its package and the message types it registered in the
    pool. *)
Record FileDescriptor : Type := mkFile {
  package : string;
  message_types : list Descriptor
}.

Definition is_optional (f : FieldDescriptor) : bool :=
  match fd_label f with LABEL_OPTIONAL => true | _ => false end.

Definition is_repeated (f : FieldDescriptor) : bool :=
  match fd_label f with LABEL_REPEATED => true | _ => false end.

(** [DescriptorPool::FindMessageTypeByName] *)
Definition FindMessageTypeByName (pool : list Descriptor) (nm : string)
  : option Descriptor :=
  find (fun d => String.eqb (d_full_name d) nm) pool.

(** [FieldDescriptor::message_type()]: null when the field is no message. *)
Definition message_type (pool : list Descriptor) (f : FieldDescriptor)
  : option Descriptor :=
  match fd_message_type f with
  | Some nm => FindMessageTypeByName pool nm
  | None => None
  end.

(** ** Node types *)

Inductive NodeType : Set :=
| BOOL | LONG | DOUBLE | STRING | OUTSIDE_OBJECT | INSIDE_OBJECT | ARRAY.

#[global] Instance NodeType_eq_dec : EqDecision NodeType.
Proof. solve_decision. Defined.

#[global] Instance FieldType_eq_dec : EqDecision FieldType.
Proof. solve_decision. Defined.

Definition unsupported_what (t : FieldType) : string :=
  "Unsupported protobuf type " +:+ pretty (type_tag t).

Definition getNodeTypeForProtoType (t : FieldType) : Res NodeType :=
  match t with
  | TYPE_BOOL => Ok BOOL
  | TYPE_INT32 | TYPE_INT64 | TYPE_UINT32 | TYPE_FIXED32 | TYPE_FIXED64
  | TYPE_SFIXED32 | TYPE_SFIXED64 | TYPE_SINT32 | TYPE_SINT64 => Ok LONG
  | TYPE_FLOAT | TYPE_DOUBLE => Ok DOUBLE
  | TYPE_STRING => Ok STRING
  | TYPE_MESSAGE => Ok OUTSIDE_OBJECT
  | TYPE_ENUM => Ok LONG
  | TYPE_UINT64 | TYPE_BYTES | TYPE_GROUP => Throw (unsupported_what t)
  end.

Definition getTypeNameForFieldDesc (pool : list Descriptor)
    (fieldDesc : FieldDescriptor) : Res string :=
  match fd_type fieldDesc with
  | TYPE_MESSAGE => d ← deref (message_type pool fieldDesc); Ok (d_name d)
  | t => Ok (proto_type_name t)
  end.

(** ** Nodes and the graph *)

(** A pointer to a node: its index in the arena.  The root, a member of
    [Graph] in the source, is at index 0. *)
Abbreviation ptr := nat (only parsing).

Record Node : Type := mkNode {
  parent : option ptr;
  children : list ptr;
  type : option NodeType;
  state : Z;
  name : string;
  full_name : string;
  type_name : string;
  desc : option Descriptor;
  field : option FieldDescriptor
}.

(** [new Node()]: every member zero or empty. *)
Definition new_Node : Node :=
  mkNode None [] None 0 "" "" "" None None.

Definition set_parent (v : option ptr) (n : Node) : Node :=
  mkNode v (children n) (type n) (state n) (name n) (full_name n)
         (type_name n) (desc n) (field n).
Definition set_children (v : list ptr) (n : Node) : Node :=
  mkNode (parent n) v (type n) (state n) (name n) (full_name n)
         (type_name n) (desc n) (field n).
Definition set_type (v : option NodeType) (n : Node) : Node :=
  mkNode (parent n) (children n) v (state n) (name n) (full_name n)
         (type_name n) (desc n) (field n).
Definition set_state (v : Z) (n : Node) : Node :=
  mkNode (parent n) (children n) (type n) v (name n) (full_name n)
         (type_name n) (desc n) (field n).
Definition set_name (v : string) (n : Node) : Node :=
  mkNode (parent n) (children n) (type n) (state n) v (full_name n)
         (type_name n) (desc n) (field n).
Definition set_full_name (v : string) (n : Node) : Node :=
  mkNode (parent n) (children n) (type n) (state n) (name n) v
         (type_name n) (desc n) (field n).
Definition set_type_name (v : string) (n : Node) : Node :=
  mkNode (parent n) (children n) (type n) (state n) (name n) (full_name n)
         v (desc n) (field n).
Definition set_desc (v : option Descriptor) (n : Node) : Node :=
  mkNode (parent n) (children n) (type n) (state n) (name n) (full_name n)
         (type_name n) v (field n).
Definition set_field (v : option FieldDescriptor) (n : Node) : Node :=
  mkNode (parent n) (children n) (type n) (state n) (name n) (full_name n)
         (type_name n) (desc n) v.

Record Graph : Type := mkGraph {
  fname : string;
  msgName : string;
  fileDesc : FileDescriptor;
  msgDesc : Descriptor;
  stateCounter : Z;
  nodes : list Node;
  all_nodes : list ptr;
  null_nodes : list ptr;
  bool_nodes : list ptr;
  long_nodes : list ptr;
  double_nodes : list ptr;
  string_nodes : list ptr;
  object_nodes : list ptr;
  key_nodes : list ptr;
  array_nodes : list ptr
}.

Definition root : ptr := 0%nat.

Definition pool (g : Graph) : list Descriptor := message_types (fileDesc g).

Definition with_nodes (v : list Node) (g : Graph) : Graph :=
  mkGraph (fname g) (msgName g) (fileDesc g) (msgDesc g) (stateCounter g) v
    (all_nodes g) (null_nodes g) (bool_nodes g) (long_nodes g)
    (double_nodes g) (string_nodes g) (object_nodes g) (key_nodes g)
    (array_nodes g).
Definition with_stateCounter (v : Z) (g : Graph) : Graph :=
  mkGraph (fname g) (msgName g) (fileDesc g) (msgDesc g) v (nodes g)
    (all_nodes g) (null_nodes g) (bool_nodes g) (long_nodes g)
    (double_nodes g) (string_nodes g) (object_nodes g) (key_nodes g)
    (array_nodes g).

(** [vec.push_back(&node)] on each of the index vectors. *)
Definition push_all (p : ptr) (g : Graph) : Graph :=
  mkGraph (fname g) (msgName g) (fileDesc g) (msgDesc g) (stateCounter g)
    (nodes g) (all_nodes g ++ [p]) (null_nodes g) (bool_nodes g)
    (long_nodes g) (double_nodes g) (string_nodes g) (object_nodes g)
    (key_nodes g) (array_nodes g).
Definition push_null (p : ptr) (g : Graph) : Graph :=
  mkGraph (fname g) (msgName g) (fileDesc g) (msgDesc g) (stateCounter g)
    (nodes g) (all_nodes g) (null_nodes g ++ [p]) (bool_nodes g)
    (long_nodes g) (double_nodes g) (string_nodes g) (object_nodes g)
    (key_nodes g) (array_nodes g).
Definition push_bool (p : ptr) (g : Graph) : Graph :=
  mkGraph (fname g) (msgName g) (fileDesc g) (msgDesc g) (stateCounter g)
    (nodes g) (all_nodes g) (null_nodes g) (bool_nodes g ++ [p])
    (long_nodes g) (double_nodes g) (string_nodes g) (object_nodes g)
    (key_nodes g) (array_nodes g).
Definition push_long (p : ptr) (g : Graph) : Graph :=
  mkGraph (fname g) (msgName g) (fileDesc g) (msgDesc g) (stateCounter g)
    (nodes g) (all_nodes g) (null_nodes g) (bool_nodes g)
    (long_nodes g ++ [p]) (double_nodes g) (string_nodes g) (object_nodes g)
    (key_nodes g) (array_nodes g).
Definition push_double (p : ptr) (g : Graph) : Graph :=
  mkGraph (fname g) (msgName g) (fileDesc g) (msgDesc g) (stateCounter g)
    (nodes g) (all_nodes g) (null_nodes g) (bool_nodes g)
    (long_nodes g) (double_nodes g ++ [p]) (string_nodes g) (object_nodes g)
    (key_nodes g) (array_nodes g).
Definition push_string (p : ptr) (g : Graph) : Graph :=
  mkGraph (fname g) (msgName g) (fileDesc g) (msgDesc g) (stateCounter g)
    (nodes g) (all_nodes g) (null_nodes g) (bool_nodes g)
    (long_nodes g) (double_nodes g) (string_nodes g ++ [p]) (object_nodes g)
    (key_nodes g) (array_nodes g).
Definition push_object (p : ptr) (g : Graph) : Graph :=
  mkGraph (fname g) (msgName g) (fileDesc g) (msgDesc g) (stateCounter g)
    (nodes g) (all_nodes g) (null_nodes g) (bool_nodes g)
    (long_nodes g) (double_nodes g) (string_nodes g) (object_nodes g ++ [p])
    (key_nodes g) (array_nodes g).
Definition push_key (p : ptr) (g : Graph) : Graph :=
  mkGraph (fname g) (msgName g) (fileDesc g) (msgDesc g) (stateCounter g)
    (nodes g) (all_nodes g) (null_nodes g) (bool_nodes g)
    (long_nodes g) (double_nodes g) (string_nodes g) (object_nodes g)
    (key_nodes g ++ [p]) (array_nodes g).
Definition push_array (p : ptr) (g : Graph) : Graph :=
  mkGraph (fname g) (msgName g) (fileDesc g) (msgDesc g) (stateCounter g)
    (nodes g) (all_nodes g) (null_nodes g) (bool_nodes g)
    (long_nodes g) (double_nodes g) (string_nodes g) (object_nodes g)
    (key_nodes g) (array_nodes g ++ [p]).

(** Reading [*p] and writing through [p]. *)
Definition get (g : Graph) (p : ptr) : Res Node := deref (nodes g !! p).

Definition update (p : ptr) (f : Node -> Node) (g : Graph) : Graph :=
  with_nodes (alter f p (nodes g)) g.

(** ** The graph builder *)

Definition INT_MAX : Z := 2147483647.

(** [++stateCounter] on an [int]. *)
Definition next_state (g : Graph) : Res (Z * Graph) :=
  if decide (stateCounter g < INT_MAX)
  then Ok (stateCounter g + 1, with_stateCounter (stateCounter g + 1) g)
  else Undefined.

Definition addChild (node : ptr) (g : Graph) : Res (ptr * Graph) :=
  let child := length (nodes g) in
  let g := update node (fun n => set_children (children n ++ [child]) n) g in
  let g := with_nodes (nodes g ++ [set_parent (Some node) new_Node]) g in
  '(s, g) ← next_state g;
  Ok (child, update child (set_state s) g).

Definition addNodeToTypeLists (node : ptr) (g : Graph) : Res Graph :=
  n ← get g node;
  _ ← assert (negb (Z.eqb (state n) 0));
  let g := push_all node g in
  let g := match field n with
           | Some f => if is_optional f then push_null node g else g
           | None => g
           end in
  Ok match type n with
     | Some BOOL => push_long node (push_bool node g)
     | Some LONG => push_long node g
     | Some DOUBLE => push_long node (push_double node g)
     | Some STRING => push_string node g
     | Some INSIDE_OBJECT => push_object node g
     | Some OUTSIDE_OBJECT => push_key node g
     | Some ARRAY => push_array node g
     | None => g
     end.

Definition injectArrayNode (desc0 : Descriptor) (fieldDesc : FieldDescriptor)
    (ty : NodeType) (node : ptr) (g : Graph) : Res (ptr * Graph) :=
  '(arrChild, g) ← addChild node g;
  n ← get g node;
  let g := update arrChild (set_name (fd_name fieldDesc)) g in
  let g := update arrChild (set_full_name (full_name n +:+ "[]")) g in
  let g := update arrChild (set_type (Some ty)) g in
  tn ← getTypeNameForFieldDesc (pool g) fieldDesc;
  let g := update arrChild (set_type_name tn) g in
  let g := update arrChild (set_field (Some fieldDesc)) g in
  let g := update arrChild (set_desc (Some desc0)) g in
  g ← addNodeToTypeLists arrChild g;
  Ok (arrChild, g).

Definition injectObjectNode (desc0 : Descriptor) (fieldDesc : FieldDescriptor)
    (keyNode : ptr) (g : Graph) : Res (ptr * Graph) :=
  '(objNode, g) ← addChild keyNode g;
  k ← get g keyNode;
  let g := update objNode (set_name (name k)) g in
  let g := update objNode (set_full_name (full_name k +:+ ".")) g in
  let g := update objNode (set_type (Some INSIDE_OBJECT)) g in
  let g := update objNode (set_type_name (type_name k)) g in
  let g := update objNode (set_field (Some fieldDesc)) g in
  let g := update objNode (set_desc (Some desc0)) g in
  g ← addNodeToTypeLists objNode g;
  Ok (objNode, g).

(** The body of the loop of [parseMessageDescRec] for one field; [rec] is
    the recursive call. *)
Definition parseField (rec : Descriptor -> ptr -> Graph -> Res Graph)
    (desc0 : Descriptor) (node : ptr) (fieldDesc : FieldDescriptor)
    (g : Graph) : Res Graph :=
  ty ← getNodeTypeForProtoType (fd_type fieldDesc);
  let isRepeated := is_repeated fieldDesc in
  '(child, g) ← addChild node g;
  let g := update child (set_name (fd_name fieldDesc)) g in
  n ← get g node;
  let g := update child (set_full_name (full_name n +:+ fd_name fieldDesc)) g in
  let g := update child (set_field (Some fieldDesc)) g in
  let g := update child (set_desc (Some desc0)) g in
  if negb isRepeated then
    let g := update child (set_type (Some ty)) g in
    tn ← getTypeNameForFieldDesc (pool g) fieldDesc;
    let g := update child (set_type_name tn) g in
    g ← addNodeToTypeLists child g;
    if decide (ty = OUTSIDE_OBJECT) then
      '(objChild, g) ← injectObjectNode desc0 fieldDesc child g;
      m ← deref (message_type (pool g) fieldDesc);
      rec m objChild g
    else Ok g
  else
    let g := update child (set_type (Some ARRAY)) g in
    tn ← getTypeNameForFieldDesc (pool g) fieldDesc;
    let g := update child (set_type_name ("[" +:+ tn +:+ "]")) g in
    g ← addNodeToTypeLists child g;
    '(arrChild, g) ← injectArrayNode desc0 fieldDesc ty child g;
    if decide (ty = OUTSIDE_OBJECT) then
      '(objChild, g) ← injectObjectNode desc0 fieldDesc arrChild g;
      m ← deref (message_type (pool g) fieldDesc);
      rec m objChild g
    else Ok g.

(** [for (int f = 0; f < desc.field_count(); ++f)] *)
Fixpoint parseFields (rec : Descriptor -> ptr -> Graph -> Res Graph)
    (desc0 : Descriptor) (node : ptr) (fs : list FieldDescriptor)
    (g : Graph) : Res Graph :=
  match fs with
  | [] => Ok g
  | fieldDesc :: rest =>
      g ← parseField rec desc0 node fieldDesc g;
      parseFields rec desc0 node rest g
  end.

(** The recursion follows the message types of the schema and has no
    bound of its own (a message that contains itself never ends it), so
    the model counts the depth down in [fuel]. *)
Fixpoint parseMessageDescRec (fuel : nat) (desc0 : Descriptor) (node : ptr)
    (g : Graph) : Res Graph :=
  match fuel with
  | O => OutOfFuel
  | S fuel' =>
      parseFields (parseMessageDescRec fuel') desc0 node (d_fields desc0) g
  end.

Definition parseMessageDesc (fuel : nat) (g : Graph) : Res Graph :=
  let desc0 := msgDesc g in
  let g := update root (set_parent None) g in
  let g := update root (set_name ".") g in
  let g := update root (set_full_name ".") g in
  let g := update root (set_type_name (d_name desc0)) g in
  let g := update root (set_type (Some INSIDE_OBJECT)) g in
  let g := update root (set_desc (Some desc0)) g in
  let g := update root (set_field None) g in
  g ← addNodeToTypeLists root g;
  parseMessageDescRec fuel desc0 root g.

(** ** Loading the schema: the constructor of [Graph] *)

(** What opening, parsing and building the file named on the command line
    gives; the file system and the protobuf compiler are outside the
    program. *)
Inductive Loaded : Type :=
| CannotOpen
| CannotParse
| CannotBuild
| Built (fd : FileDescriptor).

Definition Graph_new (load : string -> Loaded) (fname0 msgName0 : string)
  : Res Graph :=
  match load fname0 with
  | CannotOpen => Throw ("Unable to open proto file " +:+ fname0)
  | CannotParse => Throw ("Unable to parse proto file " +:+ fname0)
  | CannotBuild => Throw ("Unable to load proto file " +:+ fname0)
  | Built fd =>
      match FindMessageTypeByName (message_types fd) msgName0 with
      | None => Throw ("Unable to find message type " +:+ msgName0)
      | Some md =>
          Ok (mkGraph fname0 msgName0 fd md 1 [set_state 1 new_Node]
                [] [] [] [] [] [] [] [] [])
      end
  end.

(** [protog::Graph graph{fname, message_name}; graph.parseMessageDesc();] *)
Definition build (fuel : nat) (load : string -> Loaded) (f m : string)
  : Res Graph :=
  g ← Graph_new load f m; parseMessageDesc fuel g.

(** * The printer *)

(** ** Strings *)

Fixpoint is_prefix (p s : string) : bool :=
  match p, s with
  | EmptyString, _ => true
  | String a p', String b s' => if Ascii.eqb a b then is_prefix p' s' else false
  | String _ _, EmptyString => false
  end.

(** [replace_all(str, from, to)] for a [from] that is not empty (the
    source calls it with ["."] only): each occurrence of [from], found from
    the left, is replaced by [to], and the search goes on behind it.
    [skip] counts the characters of an occurrence still to be dropped. *)
Fixpoint replace_all_from (skip : nat) (str from to : string) : string :=
  match str with
  | EmptyString => EmptyString
  | String c rest =>
      match skip with
      | S k => replace_all_from k rest from to
      | O =>
          if is_prefix from str
          then to +:+ replace_all_from (pred (String.length from)) rest from to
          else String c (replace_all_from O rest from to)
      end
  end.

Definition replace_all (str from to : string) : string :=
  replace_all_from O str from to.

(** [get_full_cpp_type_name] *)
Definition get_full_cpp_type_name (full : string) : string :=
  "::" +:+ replace_all full "." "::".

Example cpp_type_name_example :
  get_full_cpp_type_name "some.ns.MyMessage" = "::some::ns::MyMessage".
Proof. reflexivity. Qed.

(** ** The printed code *)

(** The statements the printer writes into the cases of the switches. *)
Inductive Stmt : Type :=
| SetLocation (s : Z)
    (* state.location = s; *)
| PopBack
    (* state.msgStack.pop_back(); *)
| AssertStackEmpty
    (* assert(state.msgStack.empty()); *)
| PushReq
    (* state.msgStack.push_back(&state.req); *)
| PushSub (cpp_type verb nm : string)
    (* state.msgStack.push_back(
         static_cast<cpp_type *>(state.msgStack.back())->verb_nm()); *)
| ClearField (cpp_type nm : string)
    (* static_cast<cpp_type *>(state.msgStack.back())->clear_nm(); *)
| StoreValue (cpp_type verb nm : string) (enum_cast : option string)
    (* static_cast<cpp_type *>(state.msgStack.back())->verb_nm(v);
       with v cast to the enum type when there is one *)
| StringTarget (cpp_type verb nm : string)
    (* target = static_cast<cpp_type *>(state.msgStack.back())->verb_nm(); *)
| KeySwitch (full : string) (keys : list (Z * string * Z)).
    (* switch (hash) { case h: // key
                         state.location = s; break; ...
                       default: fprintf(stderr, ...); exit(1); } *)

(** [case label: // comment] with the statements up to [break;]. *)
Record Case : Type := mkCase {
  label : Z;
  comment : string;
  body : list Stmt
}.

(** The ten callbacks of the printed source, each a switch on
    [state.location] whose default prints a diagnostic and exits. *)
Record Source : Type := mkSource {
  parse_null : list Case;
  parse_boolean : list Case;
  parse_integer : list Case;
  parse_double : list Case;
  parse_string : list Case;
  parse_start_map : list Case;
  parse_map_key : list Case;
  parse_end_map : list Case;
  parse_start_array : list Case;
  parse_end_array : list Case
}.

(** [for (const auto& node : nodes) { assert(node); print(file, *node); }] *)
Fixpoint for_nodes (g : Graph) (pr : Node -> Res Case) (l : list ptr)
  : Res (list Case) :=
  match l with
  | [] => Ok []
  | p :: rest =>
      n ← get g p;
      c ← pr n;
      cs ← for_nodes g pr rest;
      Ok (c :: cs)
  end.

(** [node.parent->state] *)
Definition parent_state (g : Graph) (node : Node) : Res Z :=
  p ← deref (parent node); pn ← get g p; Ok (state pn).

(** [get_full_cpp_type_name] of the descriptor [node.desc] points to. *)
Definition node_cpp_type (node : Node) : Res string :=
  d ← deref (desc node); Ok (get_full_cpp_type_name (d_full_name d)).

Definition printNullStateImpl (g : Graph) (node : Node) : Res Case :=
  cpp_type ← node_cpp_type node;
  ps ← parent_state g node;
  Ok (mkCase (state node) ("key " +:+ full_name node)
        [ClearField cpp_type (name node); SetLocation ps]).

Definition printPodStateImpl (g : Graph) (node : Node) : Res Case :=
  cpp_type ← node_cpp_type node;
  f ← deref (field node);
  let verb := if is_repeated f then "add" else "set" in
  let cast := match fd_type f with
              | TYPE_ENUM => Some (get_full_cpp_type_name (fd_enum_type f))
              | _ => None
              end in
  tail ← (if negb (is_repeated f)
          then ps ← parent_state g node; Ok [SetLocation ps]
          else Ok []);
  Ok (mkCase (state node) ("key " +:+ full_name node)
        (StoreValue cpp_type verb (name node) cast :: tail)).

Definition printStringStateImpl (g : Graph) (node : Node) : Res Case :=
  cpp_type ← node_cpp_type node;
  f ← deref (field node);
  let verb := if is_repeated f then "add" else "mutable" in
  tail ← (if negb (is_repeated f)
          then ps ← parent_state g node; Ok [SetLocation ps]
          else Ok []);
  Ok (mkCase (state node) ("key " +:+ full_name node)
        (StringTarget cpp_type verb (name node) :: tail)).

Definition printMapStartStateImpl (g : Graph) (node : Node) : Res Case :=
  match parent node with
  | None =>
      Ok (mkCase 0 "map ."
            [SetLocation (state node); AssertStackEmpty; PushReq])
  | Some p =>
      cpp_type ← node_cpp_type node;
      f ← deref (field node);
      let verb := if is_repeated f then "add" else "mutable" in
      pn ← get g p;
      Ok (mkCase (state pn) ("map " +:+ full_name node)
            [SetLocation (state node); PushSub cpp_type verb (name node)])
  end.

Definition printMapEndStateImpl (g : Graph) (node : Node) : Res Case :=
  let root_case :=
    mkCase (state node) "map ." [SetLocation 0; PopBack; AssertStackEmpty] in
  match parent node with
  | None => Ok root_case
  | Some p =>
      pn ← get g p;
      match parent pn with
      | None => Ok root_case
      | Some pp =>
          _ ← node_cpp_type node;
          ppn ← get g pp;
          let target :=
            if decide (type ppn = Some ARRAY) then state pn else state ppn in
          Ok (mkCase (state node) ("map " +:+ full_name node)
                [SetLocation target; PopBack])
      end
  end.

Definition printArrayStartStateImpl (g : Graph) (node : Node) : Res Case :=
  _ ← assert (Nat.eqb (length (children node)) 1);
  c ← deref (children node !! 0%nat);
  cn ← get g c;
  Ok (mkCase (state node) ("key " +:+ full_name node)
        [SetLocation (state cn)]).

Definition printArrayEndStateImpl (g : Graph) (node : Node) : Res Case :=
  _ ← assert (bool_decide (is_Some (parent node)));
  _ ← assert (Nat.eqb (length (children node)) 1);
  c ← deref (children node !! 0%nat);
  cn ← get g c;
  ps ← parent_state g node;
  Ok (mkCase (state cn) ("key " +:+ full_name node) [SetLocation ps]).

Section PrintSource.
(** [std::hash<std::string>], which the standard leaves to the
    implementation; its values are [size_t]. *)
Variable hash : string -> Z.

Fixpoint key_cases (g : Graph) (cs : list ptr) : Res (list (Z * string * Z)) :=
  match cs with
  | [] => Ok []
  | c :: rest =>
      child ← get g c;
      ks ← key_cases g rest;
      Ok ((hash (name child), name child, state child) :: ks)
  end.

Definition printMapKeyStateImpl (g : Graph) (node : Node) : Res Case :=
  keys ← key_cases g (children node);
  Ok (mkCase (state node) ("map " +:+ full_name node)
        [KeySwitch (full_name node) keys]).

Definition printSourceImpl (g : Graph) : Res Source :=
  c_null ← for_nodes g (printNullStateImpl g) (null_nodes g);
  c_bool ← for_nodes g (printPodStateImpl g) (bool_nodes g);
  c_long ← for_nodes g (printPodStateImpl g) (long_nodes g);
  c_double ← for_nodes g (printPodStateImpl g) (double_nodes g);
  c_string ← for_nodes g (printStringStateImpl g) (string_nodes g);
  c_start ← for_nodes g (printMapStartStateImpl g) (object_nodes g);
  c_key ← for_nodes g (printMapKeyStateImpl g) (object_nodes g);
  c_end ← for_nodes g (printMapEndStateImpl g) (object_nodes g);
  c_astart ← for_nodes g (printArrayStartStateImpl g) (array_nodes g);
  c_aend ← for_nodes g (printArrayEndStateImpl g) (array_nodes g);
  Ok (mkSource c_null c_bool c_long c_double c_string c_start c_key c_end
        c_astart c_aend).

End PrintSource.

(** ** The printed parser at run time *)

(** A message object: the target [req], or what an accessor of another
    message returned. *)
Inductive Msg : Type :=
| Req
| Member (m : Msg) (accessor : string).

(** The events yajl delivers; numbers and strings come with their value (a
    double as its bits). *)
Inductive Event : Type :=
| ev_null
| ev_boolean (v : Z)
| ev_integer (v : Z)
| ev_double (v : Z)
| ev_string (v : string)
| ev_start_map
| ev_map_key (key : string)
| ev_end_map
| ev_start_array
| ev_end_array.

(** Calls into the protobuf objects, the order of which is what the parser
    does to the message. *)
Inductive Call : Type :=
| CheckInitialized (m : Msg)
| Clear (m : Msg)
| clear_field (m : Msg) (cpp_type nm : string)
| store (m : Msg) (cpp_type verb nm : string) (enum_cast : option string)
    (v : Event)
| accessor (m : Msg) (cpp_type verb nm : string)
| assign (target : Msg) (v : string).

(** [struct ..._parser_state_s], with the calls made so far.  The back of
    the vector [msgStack] is the head of the list. *)
Record parser_state : Type := mkState {
  checkInitialized : bool;
  location : Z;
  msgStack : list Msg;
  calls : list Call
}.

Definition set_location (s : Z) (st : parser_state) : parser_state :=
  mkState (checkInitialized st) s (msgStack st) (calls st).
Definition set_msgStack (v : list Msg) (st : parser_state) : parser_state :=
  mkState (checkInitialized st) (location st) v (calls st).
Definition call (c : Call) (st : parser_state) : parser_state :=
  mkState (checkInitialized st) (location st) (msgStack st) (calls st ++ [c]).

(** A callback returns 1 and the parse goes on, or the process ends:
    [exit(1)] in a default, a failed [assert], or undefined behaviour
    ([back()] or [pop_back()] on an empty vector). *)
Inductive Run (A : Type) : Type :=
| Continue (a : A)
| Exit (code : Z)
| AssertFails
| UndefinedBehaviour.
Arguments Continue {A} a.
Arguments Exit {A} code.
Arguments AssertFails {A}.
Arguments UndefinedBehaviour {A}.

#[global] Instance Run_ret : MRet Run := @Continue.
#[global] Instance Run_bind : MBind Run := fun A B f m =>
  match m with
  | Continue a => f a
  | Exit c => Exit c
  | AssertFails => AssertFails
  | UndefinedBehaviour => UndefinedBehaviour
  end.

(** [state.msgStack.back()] *)
Definition back (st : parser_state) : Run Msg :=
  match msgStack st with
  | top :: _ => Continue top
  | [] => UndefinedBehaviour
  end.

(** [switch (state.location)]: the case of the label, or the default. *)
Definition dispatch (cases : list Case) (loc : Z) : option Case :=
  find (fun c => Z.eqb (label c) loc) cases.

Definition find_key (h : Z) (keys : list (Z * string * Z)) : option Z :=
  match find (fun k => Z.eqb (fst (fst k)) h) keys with
  | Some k => Some (snd k)
  | None => None
  end.

Section Callbacks.
(** The hash the printed code computes is the one the printer used. *)
Variable hash : string -> Z.

Definition exec (ev : Event) (s : Stmt) (st : parser_state)
  : Run parser_state :=
  match s with
  | SetLocation l => Continue (set_location l st)
  | PopBack =>
      match msgStack st with
      | _ :: rest => Continue (set_msgStack rest st)
      | [] => UndefinedBehaviour
      end
  | AssertStackEmpty =>
      match msgStack st with
      | [] => Continue st
      | _ :: _ => AssertFails
      end
  | PushReq => Continue (set_msgStack (Req :: msgStack st) st)
  | PushSub cpp_type verb nm =>
      top ← back st;
      let st := call (accessor top cpp_type verb nm) st in
      Continue (set_msgStack (Member top (verb +:+ "_" +:+ nm) :: msgStack st)
                  st)
  | ClearField cpp_type nm =>
      top ← back st;
      Continue (call (clear_field top cpp_type nm) st)
  | StoreValue cpp_type verb nm enum_cast =>
      top ← back st;
      Continue (call (store top cpp_type verb nm enum_cast ev) st)
  | StringTarget cpp_type verb nm =>
      top ← back st;
      let st := call (accessor top cpp_type verb nm) st in
      match ev with
      | ev_string v =>
          Continue (call (assign (Member top (verb +:+ "_" +:+ nm)) v) st)
      | _ => Continue st
      end
  | KeySwitch _ keys =>
      match ev with
      | ev_map_key key =>
          match find_key (hash key) keys with
          | Some s => Continue (set_location s st)
          | None => Exit 1
          end
      | _ => Exit 1
      end
  end.

Fixpoint exec_body (ev : Event) (b : list Stmt) (st : parser_state)
  : Run parser_state :=
  match b with
  | [] => Continue st
  | s :: rest => st ← exec ev s st; exec_body ev rest st
  end.


Definition run_switch (cases : list Case) (ev : Event) (st : parser_state)
  : Run parser_state :=
  match dispatch cases (location st) with
  | Some c => exec_body ev (body c) st
  | None => Exit 1
  end.

(** The guard printed at the head of [..._parse_end_map]. *)
Definition check_initialized_guard (st : parser_state) : Run parser_state :=
  if checkInitialized st
  then top ← back st; Continue (call (CheckInitialized top) st)
  else Continue st.

(** The callback yajl calls for an event. *)
Definition callback (src : Source) (ev : Event) (st : parser_state)
  : Run parser_state :=
  match ev with
  | ev_null => run_switch (parse_null src) ev st
  | ev_boolean _ => run_switch (parse_boolean src) ev st
  | ev_integer _ => run_switch (parse_integer src) ev st
  | ev_double _ => run_switch (parse_double src) ev st
  | ev_string _ => run_switch (parse_string src) ev st
  | ev_start_map => run_switch (parse_start_map src) ev st
  | ev_map_key _ => run_switch (parse_map_key src) ev st
  | ev_end_map =>
      st ← check_initialized_guard st;
      run_switch (parse_end_map src) ev st
  | ev_start_array => run_switch (parse_start_array src) ev st
  | ev_end_array => run_switch (parse_end_array src) ev st
  end.

(** [yajl_parse] and [yajl_complete_parse] call the callbacks for the
    events they find, in order. *)
Fixpoint deliver (src : Source) (evs : list Event) (st : parser_state)
  : Run parser_state :=
  match evs with
  | [] => Continue st
  | ev :: rest => st ← callback src ev st; deliver src rest st
  end.

(** ** The printed API *)

(** [..._parser_init]: a new state, [config.checkInitialized = true]. *)
Definition parser_init : parser_state := mkState true 0 [] [].

(** [state.reset()] *)
Definition reset (st : parser_state) : parser_state :=
  call (Clear Req) (set_msgStack [] (set_location 0 st)).

(** The calls a user of the API can make on a state between
    [..._parser_init] and [..._parser_free]; [delivered] are the events the
    tokenizer finds in the chunk, or at the end of the input. *)
Inductive ApiCall : Type :=
| parser_on_chunk (delivered : list Event)
| parser_complete (delivered : list Event)
| parser_reset
| parser_get_error
| parser_free_error.

Definition api (src : Source) (c : ApiCall) (st : parser_state)
  : Run parser_state :=
  match c with
  | parser_on_chunk evs => deliver src evs st
  | parser_complete evs => deliver src evs st
  | parser_reset => Continue (reset st)
  | parser_get_error => Continue st
  | parser_free_error => Continue st
  end.

(** [..._parser_easy]: init, one chunk, complete, free.  The result is
    the state when [..._parser_free] is reached; when the tokenizer reports
    an error the function throws after [on_chunk] or after [complete], from
    one of the states passed on the way. *)
Definition parser_easy (src : Source) (in_chunk at_end : list Event)
  : Run parser_state :=
  st ← api src (parser_on_chunk in_chunk) parser_init;
  api src (parser_complete at_end) st.

End Callbacks.

(** * [main] *)

Definition tolower_ascii (c : ascii) : ascii :=
  let n := nat_of_ascii c in
  if Nat.leb 65 n && Nat.leb n 90 then ascii_of_nat (n + 32) else c.

(** [std::transform(..., ::tolower)] *)
Fixpoint tolower (s : string) : string :=
  match s with
  | EmptyString => EmptyString
  | String c rest => String (tolower_ascii c) (tolower rest)
  end.

(** [split(str, delim)]: the items between the delimiters that are not
    empty.  [item] is the item read so far. *)
Fixpoint split_from (item : string) (str : string) (delim : ascii)
  : list string :=
  match str with
  | EmptyString => if String.eqb item "" then [] else [item]
  | String c rest =>
      if Ascii.eqb c delim
      then (if String.eqb item "" then [] else [item])
             ++ split_from "" rest delim
      else split_from (item +:+ String c EmptyString) rest delim
  end.

Definition split (str : string) (delim : ascii) : list string :=
  split_from "" str delim.

Example split_package : split "some.ns" "." = ["some"; "ns"].
Proof. reflexivity. Qed.

(** What [Printer::print] writes: the two files, the namespaces that wrap
    their contents, the header of the message type the header file
    includes, and the callbacks of the source file. *)
Record Output : Type := mkOutput {
  header_name : string;
  source_name : string;
  namespaces : list string;
  proto_header : string;
  message_cpp_type : string;
  source : Source
}.

(** [fopen(name, "w")] gives a null pointer when the file cannot be
    written, and the source prints to what it gives without a test. *)
Definition fopen (can_write : string -> bool) (nm : string) : Res unit :=
  if can_write nm then Ok tt else Undefined.

Definition print (hash : string -> Z) (can_write : string -> bool)
    (g : Graph) (header : string) : Res Output :=
  r ← get g root;
  d ← deref (desc r);
  let name_lower := tolower (d_name d) in
  let cpp_type := get_full_cpp_type_name (d_full_name d) in
  let res_name_prefix := name_lower +:+ "_parser.pb" in
  let header_name := res_name_prefix +:+ ".h" in
  _ ← fopen can_write header_name;
  let source_name := res_name_prefix +:+ ".cpp" in
  _ ← fopen can_write source_name;
  src ← printSourceImpl hash g;
  Ok (mkOutput header_name source_name (split (package (fileDesc g)) ".")
        header cpp_type src).

(** How the process ends. *)
Inductive ProcessEnd : Type :=
| Returns (code : Z)
    (* main returns *)
| Exits (code : Z)
    (* exit(code), after the usage text on stderr *)
| Terminates (what : string)
    (* a runtime_error leaves main: std::terminate *)
| Aborts
    (* a failed assert *)
| Crashes
    (* undefined behaviour *)
| DoesNotEnd.
    (* the recursion of the builder has no end *)

(** The exit code of a process that ended by [return] or [exit]. *)
Definition exit_code (e : ProcessEnd) : option Z :=
  match e with
  | Returns c | Exits c => Some c
  | _ => None
  end.

Definition main (fuel : nat) (load : string -> Loaded)
    (can_write : string -> bool) (hash : string -> Z) (argv : list string)
  : ProcessEnd :=
  match argv with
  | [_; fname0; header; message_name] =>
      match (g ← build fuel load fname0 message_name;
             print hash can_write g header) with
      | Ok _ => Returns 0
      | Throw w => Terminates w
      | Abort => Aborts
      | Undefined => Crashes
      | OutOfFuel => DoesNotEnd
      end
  | _ => Exits 1
  end.

(** * Verification *)

(** ** Example schemas *)

Definition scalar (nm : string) (t : FieldType) (l : Label) : FieldDescriptor :=
  mkField nm t l None "".
Definition msgfield (nm : string) (l : Label) (ty : string) : FieldDescriptor :=
  mkField nm TYPE_MESSAGE l (Some ty) "".

Definition Point : Descriptor :=
  mkDescriptor "Point" "Point"
    [scalar "x" TYPE_INT32 LABEL_OPTIONAL; scalar "y" TYPE_INT32 LABEL_OPTIONAL].
Definition R : Descriptor :=
  mkDescriptor "R" "R" [scalar "xs" TYPE_INT32 LABEL_REPEATED].
Definition RM : Descriptor :=
  mkDescriptor "RM" "RM" [msgfield "ps" LABEL_REPEATED "Point"].
Definition Outer : Descriptor :=
  mkDescriptor "Outer" "Outer"
    [scalar "name" TYPE_STRING LABEL_OPTIONAL;
     msgfield "p" LABEL_OPTIONAL "Point"].

Definition Flags : Descriptor :=
  mkDescriptor "Flags" "Flags"
    [scalar "on" TYPE_BOOL LABEL_OPTIONAL;
     scalar "w" TYPE_DOUBLE LABEL_OPTIONAL;
     mkField "k" TYPE_ENUM LABEL_OPTIONAL None "Flags.K"].

Definition demo_file : FileDescriptor :=
  mkFile "" [Point; R; RM; Outer; Flags].
Definition demo_load (f : string) : Loaded :=
  if String.eqb f "demo.proto" then Built demo_file else CannotOpen.


(** ** What one allocation does

    Every node but the root is made the same way: [addChild], then the
    members are filled in, then [addNodeToTypeLists].  [alloc] is the graph
    after these steps, written out. *)

Definition register (p : ptr) (n : Node) (g : Graph) : Graph :=
  let g := push_all p g in
  let g := match field n with
           | Some f => if is_optional f then push_null p g else g
           | None => g
           end in
  match type n with
  | Some BOOL => push_long p (push_bool p g)
  | Some LONG => push_long p g
  | Some DOUBLE => push_long p (push_double p g)
  | Some STRING => push_string p g
  | Some INSIDE_OBJECT => push_object p g
  | Some OUTSIDE_OBJECT => push_key p g
  | Some ARRAY => push_array p g
  | None => g
  end.

Definition push_child (c : ptr) (n : Node) : Node :=
  set_children (children n ++ [c]) n.

Definition fresh (par : ptr) (ty : NodeType) (nm fn tn : string)
    (d : Descriptor) (f : FieldDescriptor) (g : Graph) : Node :=
  mkNode (Some par) [] (Some ty) (stateCounter g + 1) nm fn tn (Some d)
         (Some f).

Definition alloc (par : ptr) (ty : NodeType) (nm fn tn : string)
    (d : Descriptor) (f : FieldDescriptor) (g : Graph) : Graph :=
  let p := length (nodes g) in
  let nd := fresh par ty nm fn tn d f g in
  register p nd
    (with_stateCounter (stateCounter g + 1)
       (with_nodes (alter (push_child p) par (nodes g) ++ [nd]) g)).

Lemma alter_last {A} (f : A -> A) (l : list A) (x : A) (k : nat) :
  k = length l -> alter f k (l ++ [x]) = l ++ [f x].
Proof.
  intros ->. induction l as [|a l IH]; simpl; [reflexivity|].
  f_equal. exact IH.
Qed.

Lemma lookup_alter_app_l {A} (f : A -> A) (l : list A) (x a : A) (k : nat) :
  l !! k = Some a -> (alter f k l ++ [x]) !! k = Some (f a).
Proof.
  intros H. rewrite lookup_app_l.
  - rewrite list_lookup_alter_eq, H. reflexivity.
  - rewrite length_alter. eapply lookup_lt_Some; eauto.
Qed.

Lemma addNodeToTypeLists_last (l : list Node) (n : Node) (p : ptr)
    (g : Graph) :
  nodes g = l ++ [n] -> p = length l -> state n <> 0 ->
  addNodeToTypeLists p g = Ok (register p n g).
Proof.
  intros Hn -> Hs. unfold addNodeToTypeLists, get.
  rewrite Hn, lookup_app_r, Nat.sub_diag by lia. simpl.
  destruct (Z.eqb_spec (state n) 0); [contradiction|]. reflexivity.
Qed.

(** [addChild] written out: the parent gets the new pointer, the new node
    its parent and the next state. *)
Lemma addChild_Ok (node : ptr) (g : Graph) :
  stateCounter g < INT_MAX ->
  addChild node g =
  Ok (length (nodes g),
      with_stateCounter (stateCounter g + 1)
        (with_nodes
           (alter (push_child (length (nodes g))) node (nodes g)
              ++ [set_state (stateCounter g + 1)
                    (set_parent (Some node) new_Node)]) g)).
Proof.
  intros Hlt. unfold addChild, next_state, update. simpl.
  destruct (decide (stateCounter g < INT_MAX)); [|contradiction]. simpl.
  rewrite alter_last by (rewrite length_alter; reflexivity).
  reflexivity.
Qed.

Lemma addChild_overflow (node : ptr) (g : Graph) :
  ~ stateCounter g < INT_MAX -> addChild node g = Undefined.
Proof.
  intros Hlt. unfold addChild, next_state. simpl.
  destruct (decide (stateCounter g < INT_MAX)); [contradiction|reflexivity].
Qed.


(** Reduction of graph and node updates, innermost first. *)
Ltac gstep :=
  cbv [update with_nodes with_stateCounter get
       nodes fname msgName fileDesc msgDesc stateCounter all_nodes null_nodes
       bool_nodes long_nodes double_nodes string_nodes object_nodes key_nodes
       array_nodes].
Ltac nstep :=
  cbv [parent children type state name full_name type_name desc field
       set_parent set_children set_type set_state set_name set_full_name
       set_type_name set_desc set_field new_Node push_child fresh].
Ltac last_alter :=
  repeat (rewrite alter_last by (rewrite ?length_alter; reflexivity)).
Ltac mstep := cbn [mbind Res_bind deref]; cbv beta iota.

Lemma nodes_register p n g : nodes (register p n g) = nodes g.
Proof.
  unfold register. destruct (field n) as [f|]; [destruct (is_optional f)|];
    destruct (type n) as [[]|]; reflexivity.
Qed.

Lemma stateCounter_register p n g :
  stateCounter (register p n g) = stateCounter g.
Proof.
  unfold register. destruct (field n) as [f|]; [destruct (is_optional f)|];
    destruct (type n) as [[]|]; reflexivity.
Qed.

Lemma fileDesc_register p n g : fileDesc (register p n g) = fileDesc g.
Proof.
  unfold register. destruct (field n) as [f|]; [destruct (is_optional f)|];
    destruct (type n) as [[]|]; reflexivity.
Qed.

Lemma nodes_alloc par ty nm fn tn d f g :
  nodes (alloc par ty nm fn tn d f g) =
  alter (push_child (length (nodes g))) par (nodes g)
    ++ [fresh par ty nm fn tn d f g].
Proof. unfold alloc. rewrite nodes_register. reflexivity. Qed.

Lemma stateCounter_alloc par ty nm fn tn d f g :
  stateCounter (alloc par ty nm fn tn d f g) = stateCounter g + 1.
Proof. unfold alloc. rewrite stateCounter_register. reflexivity. Qed.

Lemma pool_alloc par ty nm fn tn d f g :
  pool (alloc par ty nm fn tn d f g) = pool g.
Proof. unfold pool, alloc. rewrite fileDesc_register. reflexivity. Qed.

Lemma length_nodes_alloc par ty nm fn tn d f g :
  length (nodes (alloc par ty nm fn tn d f g)) = S (length (nodes g)).
Proof.
  rewrite nodes_alloc, length_app, length_alter. simpl. lia.
Qed.

Lemma lookup_alloc_new par ty nm fn tn d f g p :
  p = length (nodes g) ->
  nodes (alloc par ty nm fn tn d f g) !! p =
  Some (fresh par ty nm fn tn d f g).
Proof.
  intros ->. rewrite nodes_alloc, lookup_app_r by (rewrite length_alter; lia).
  rewrite length_alter, Nat.sub_diag. reflexivity.
Qed.

Lemma pool_mkGraph a b c d sc l l1 l2 l3 l4 l5 l6 l7 l8 l9 :
  pool (mkGraph a b c d sc l l1 l2 l3 l4 l5 l6 l7 l8 l9) = message_types c.
Proof. reflexivity. Qed.

Lemma injectObjectNode_Ok desc0 fieldDesc keyNode g k :
  nodes g !! keyNode = Some k ->
  stateCounter g < INT_MAX -> 0 <= stateCounter g ->
  injectObjectNode desc0 fieldDesc keyNode g =
  Ok (length (nodes g),
      alloc keyNode INSIDE_OBJECT (name k) (full_name k +:+ ".") (type_name k)
        desc0 fieldDesc g).
Proof.
  intros Hk Hlt Hpos. unfold injectObjectNode.
  rewrite addChild_Ok by assumption. destruct g.
  cbn [nodes stateCounter] in Hk, Hlt, Hpos. mstep. gstep.
  rewrite (lookup_alter_app_l _ _ _ k) by assumption.
  mstep. last_alter. nstep.
  erewrite addNodeToTypeLists_last;
    [ | gstep; reflexivity | rewrite length_alter; reflexivity | nstep; lia ].
  reflexivity.
Qed.

Lemma injectArrayNode_Ok desc0 fieldDesc ty node g n tn :
  nodes g !! node = Some n ->
  stateCounter g < INT_MAX -> 0 <= stateCounter g ->
  getTypeNameForFieldDesc (pool g) fieldDesc = Ok tn ->
  injectArrayNode desc0 fieldDesc ty node g =
  Ok (length (nodes g),
      alloc node ty (fd_name fieldDesc) (full_name n +:+ "[]") tn
        desc0 fieldDesc g).
Proof.
  intros Hk Hlt Hpos Htn. unfold injectArrayNode.
  rewrite addChild_Ok by assumption. destruct g.
  cbn [nodes stateCounter] in Hk, Hlt, Hpos.
  rewrite pool_mkGraph in Htn. mstep. gstep.
  rewrite (lookup_alter_app_l _ _ _ n) by assumption.
  mstep. gstep. rewrite pool_mkGraph, Htn. mstep. last_alter. nstep.
  erewrite addNodeToTypeLists_last;
    [ | gstep; reflexivity | rewrite length_alter; reflexivity | nstep; lia ].
  reflexivity.
Qed.

Lemma injectObjectNode_overflow desc0 fieldDesc keyNode g :
  ~ stateCounter g < INT_MAX ->
  injectObjectNode desc0 fieldDesc keyNode g = Undefined.
Proof.
  intros H. unfold injectObjectNode. rewrite addChild_overflow by assumption.
  reflexivity.
Qed.

Lemma injectArrayNode_overflow desc0 fieldDesc ty node g :
  ~ stateCounter g < INT_MAX ->
  injectArrayNode desc0 fieldDesc ty node g = Undefined.
Proof.
  intros H. unfold injectArrayNode. rewrite addChild_overflow by assumption.
  reflexivity.
Qed.

(** [++stateCounter] is defined below [INT_MAX] only. *)
Definition counter_ok (sc : Z) : Res unit :=
  if decide (sc < INT_MAX) then Ok tt else Undefined.

(** The allocations of [parseField], in the order the source makes them:
    the node at the field, then for a repeated field the element node, then
    for a message the node inside the braces, which the recursion fills. *)
Definition parseField_allocs (rec : Descriptor -> ptr -> Graph -> Res Graph)
    (desc0 : Descriptor) (node : ptr) (f : FieldDescriptor) (g : Graph)
    (n : Node) : Res Graph :=
  ty ← getNodeTypeForProtoType (fd_type f);
  _ ← counter_ok (stateCounter g);
  tn ← getTypeNameForFieldDesc (pool g) f;
  let N := length (nodes g) in
  let fn := full_name n +:+ fd_name f in
  if is_repeated f then
    let g1 := alloc node ARRAY (fd_name f) fn ("[" +:+ tn +:+ "]") desc0 f g in
    let g2 := alloc N ty (fd_name f) (fn +:+ "[]") tn desc0 f g1 in
    _ ← counter_ok (stateCounter g + 1);
    if decide (ty = OUTSIDE_OBJECT) then
      let g3 := alloc (S N) INSIDE_OBJECT (fd_name f) ((fn +:+ "[]") +:+ ".")
                  tn desc0 f g2 in
      _ ← counter_ok (stateCounter g + 1 + 1);
      m ← deref (message_type (pool g) f);
      rec m (S (S N)) g3
    else Ok g2
  else
    let g1 := alloc node ty (fd_name f) fn tn desc0 f g in
    if decide (ty = OUTSIDE_OBJECT) then
      let g2 := alloc N INSIDE_OBJECT (fd_name f) (fn +:+ ".") tn desc0 f g1 in
      _ ← counter_ok (stateCounter g + 1);
      m ← deref (message_type (pool g) f);
      rec m (S N) g2
    else Ok g1.

Lemma parseField_eq rec desc0 node f g n :
  nodes g !! node = Some n -> 0 <= stateCounter g ->
  parseField rec desc0 node f g = parseField_allocs rec desc0 node f g n.
Proof.
  intros Hn Hpos. unfold parseField, parseField_allocs, counter_ok.
  destruct (getNodeTypeForProtoType (fd_type f)) as [ty| | | |] eqn:Hty;
    try reflexivity.
  mstep.
  destruct (decide (stateCounter g < INT_MAX)) as [Hlt|Hge];
    [|rewrite addChild_overflow by assumption; reflexivity].
  rewrite addChild_Ok by assumption.
  match goal with |- _ = ?R => remember R as rhs eqn:E end.
  set (g0 := g) in E.
  assert (Eg : g0 = g) by reflexivity. clearbody g0.
  destruct g as [a b c d sc l l1 l2 l3 l4 l5 l6 l7 l8 l9].
  cbn [nodes stateCounter] in Hn, Hpos, Hlt.
  mstep. gstep. last_alter.
  rewrite (lookup_alter_app_l _ _ _ n) by assumption. mstep. last_alter.
  assert (Hp : pool g0 = message_types c) by (subst g0; reflexivity).
  assert (Hs : stateCounter g0 = sc) by (subst g0; reflexivity).
  assert (Hl : nodes g0 = l) by (subst g0; reflexivity).
  rewrite Hp in E. rewrite !pool_mkGraph.
  destruct (getTypeNameForFieldDesc (message_types c) f) as [tn| | | |] eqn:Htn;
    try (subst rhs; destruct (is_repeated f); reflexivity).
  cbn [mbind Res_bind] in E. cbv zeta in E.
  destruct (is_repeated f) eqn:Hrep; cbn [negb]; mstep; last_alter.
  - erewrite addNodeToTypeLists_last;
      [ | gstep; reflexivity | rewrite length_alter; reflexivity | nstep; lia ].
    mstep. nstep.
    match goal with |- context [injectArrayNode _ _ _ _ ?G] =>
      change G with (alloc node ARRAY (fd_name f) (full_name n +:+ fd_name f)
                       ("[" +:+ tn +:+ "]") desc0 f
                       (mkGraph a b c d sc l l1 l2 l3 l4 l5 l6 l7 l8 l9))
    end.
    rewrite <- Eg, <- Hl.
    destruct (decide (stateCounter g0 + 1 < INT_MAX)) as [Hlt1|Hge1].
    + erewrite injectArrayNode_Ok;
        [ | apply lookup_alloc_new; reflexivity | rewrite stateCounter_alloc; lia
          | rewrite stateCounter_alloc; lia | rewrite pool_alloc, Hp; exact Htn ].
      mstep. rewrite length_nodes_alloc. cbn [full_name name type_name fresh].
      cbn [mbind Res_bind] in E. subst rhs.
      destruct (decide (ty = OUTSIDE_OBJECT)) as [->|Hne]; [|reflexivity].
      destruct (decide (stateCounter g0 + 1 + 1 < INT_MAX)) as [Hlt2|Hge2].
      * erewrite injectObjectNode_Ok;
          [ | apply lookup_alloc_new; rewrite length_nodes_alloc; reflexivity
            | rewrite !stateCounter_alloc; lia
            | rewrite !stateCounter_alloc; lia ].
        mstep. rewrite !length_nodes_alloc. cbn [full_name name type_name fresh].
        rewrite !pool_alloc, Hp. reflexivity.
      * rewrite injectObjectNode_overflow
          by (rewrite !stateCounter_alloc; lia).
        reflexivity.
    + rewrite injectArrayNode_overflow by (rewrite stateCounter_alloc; lia).
      subst rhs. reflexivity.
  - erewrite addNodeToTypeLists_last;
      [ | gstep; reflexivity | rewrite length_alter; reflexivity | nstep; lia ].
    mstep. nstep.
    match goal with |- context [Ok ?G] =>
      change G with (alloc node ty (fd_name f) (full_name n +:+ fd_name f)
                       tn desc0 f
                       (mkGraph a b c d sc l l1 l2 l3 l4 l5 l6 l7 l8 l9))
    end.
    rewrite <- Eg, <- Hl. subst rhs.
    destruct (decide (ty = OUTSIDE_OBJECT)) as [->|Hne]; [|reflexivity].
    destruct (decide (stateCounter g0 + 1 < INT_MAX)) as [Hlt1|Hge1].
    + erewrite injectObjectNode_Ok;
        [ | apply lookup_alloc_new; reflexivity
          | rewrite !stateCounter_alloc; lia
          | rewrite !stateCounter_alloc; lia ].
      mstep. rewrite !length_nodes_alloc. cbn [full_name name type_name fresh].
      rewrite !pool_alloc, Hp. reflexivity.
    + rewrite injectObjectNode_overflow by (rewrite !stateCounter_alloc; lia).
      reflexivity.
Qed.

(** ** The builder as a sequence of allocations *)

(** No array or message key is waiting for its only child. *)
Definition closed (g : Graph) : Prop :=
  forall n, nodes g !! pred (length (nodes g)) = Some n ->
    type n <> Some ARRAY /\ type n <> Some OUTSIDE_OBJECT.

(** Where the builder allocates: under the node of a message for one of its
    fields, under an array for its element, under a message key for the
    node inside the braces. *)
Inductive alloc_ctx (g : Graph)
  : ptr -> NodeType -> string -> string -> string -> Descriptor ->
    FieldDescriptor -> Prop :=
| ctx_field node n k tn d f :
    nodes g !! node = Some n -> type n = Some INSIDE_OBJECT -> closed g ->
    getNodeTypeForProtoType (fd_type f) = Ok k ->
    alloc_ctx g node (if is_repeated f then ARRAY else k) (fd_name f)
      (full_name n +:+ fd_name f) tn d f
| ctx_elem a n k tn d f :
    S a = length (nodes g) -> nodes g !! a = Some n ->
    type n = Some ARRAY -> field n = Some f -> is_repeated f = true ->
    getNodeTypeForProtoType (fd_type f) = Ok k ->
    alloc_ctx g a k (fd_name f) (full_name n +:+ "[]") tn d f
| ctx_obj key n d f :
    S key = length (nodes g) -> nodes g !! key = Some n ->
    type n = Some OUTSIDE_OBJECT -> field n = Some f ->
    name n = fd_name f ->
    alloc_ctx g key INSIDE_OBJECT (fd_name f) (full_name n +:+ ".")
      (type_name n) d f.

Inductive reach (g0 : Graph) : Graph -> Prop :=
| reach_refl : reach g0 g0
| reach_alloc g par ty nm fn tn d f :
    reach g0 g -> stateCounter g < INT_MAX ->
    alloc_ctx g par ty nm fn tn d f ->
    reach g0 (alloc par ty nm fn tn d f g).

Lemma reach_trans g0 g1 g2 : reach g0 g1 -> reach g1 g2 -> reach g0 g2.
Proof.
  intros H01 H12. induction H12 as [|g par ty nm fn tn d f _ IH Hlt Hctx].
  - exact H01.
  - eapply reach_alloc; eauto.
Qed.

(** A node after an allocation: an old node, with one more child if it is
    the parent, or the new node. *)
Lemma lookup_alloc par ty nm fn tn d f g i n' :
  nodes (alloc par ty nm fn tn d f g) !! i = Some n' ->
  (exists n, nodes g !! i = Some n /\
     n' = if decide (i = par) then push_child (length (nodes g)) n else n)
  \/ (i = length (nodes g) /\ n' = fresh par ty nm fn tn d f g).
Proof.
  rewrite nodes_alloc. intros H.
  apply lookup_app_Some in H as [H|[Hge H]].
  - left. destruct (decide (i = par)) as [Heq|Hne].
    + subst i. rewrite list_lookup_alter_eq in H.
      destruct (nodes g !! par) as [n|] eqn:Hi; simpl in H; [|discriminate].
      exists n. split; [reflexivity|congruence].
    + rewrite list_lookup_alter_ne in H by congruence.
      exists n'. split; [assumption|reflexivity].
  - right. rewrite length_alter in Hge, H.
    apply list_lookup_singleton_Some in H. destruct H as [Hi Hn].
    split; [lia|congruence].
Qed.

Lemma lookup_alloc_old par ty nm fn tn d f g i n :
  nodes g !! i = Some n ->
  nodes (alloc par ty nm fn tn d f g) !! i =
  Some (if decide (i = par) then push_child (length (nodes g)) n else n).
Proof.
  intros Hi. rewrite nodes_alloc, lookup_app_l
    by (rewrite length_alter; eapply lookup_lt_Some; eauto).
  destruct (decide (i = par)) as [Heq|Hne].
  - subst i. rewrite list_lookup_alter_eq, Hi. reflexivity.
  - rewrite list_lookup_alter_ne, Hi by congruence. reflexivity.
Qed.

(** What changes in an old node is its list of children, nothing else. *)
Definition same_info (n n' : Node) : Prop :=
  parent n' = parent n /\ type n' = type n /\ state n' = state n /\
  name n' = name n /\ full_name n' = full_name n /\
  type_name n' = type_name n /\ desc n' = desc n /\ field n' = field n.

Lemma same_info_refl n : same_info n n.
Proof. repeat split. Qed.

Lemma same_info_push c n : same_info n (push_child c n).
Proof. repeat split. Qed.

Lemma same_info_trans n1 n2 n3 :
  same_info n1 n2 -> same_info n2 n3 -> same_info n1 n3.
Proof. unfold same_info. intuition congruence. Qed.

Lemma reach_frame g0 g :
  reach g0 g ->
  stateCounter g0 <= stateCounter g /\
  pool g = pool g0 /\
  forall i n, nodes g0 !! i = Some n ->
    exists n', nodes g !! i = Some n' /\ same_info n n'.
Proof.
  induction 1 as [|g par ty nm fn tn d f _ IH Hlt Hctx].
  - split; [lia|]. split; [reflexivity|]. intros i n Hi. exists n.
    split; [assumption|apply same_info_refl].
  - destruct IH as (Hsc & Hpool & Hold).
    rewrite stateCounter_alloc, pool_alloc.
    split; [lia|]. split; [assumption|].
    intros i n Hi. destruct (Hold i n Hi) as (n1 & Hi1 & Hsame).
    eexists. split; [apply lookup_alloc_old; eassumption|].
    eapply same_info_trans; [eassumption|].
    destruct (decide (i = par)); [apply same_info_push|apply same_info_refl].
Qed.

(** ** The index vectors after an allocation *)

Definition has_optional_field (n : Node) : bool :=
  match field n with Some f => is_optional f | None => false end.

Definition has_type (t : NodeType) (n : Node) : bool :=
  bool_decide (type n = Some t).

Definition accepts_integer (n : Node) : bool :=
  match type n with
  | Some BOOL | Some LONG | Some DOUBLE => true
  | _ => false
  end.

Definition push_if (b : bool) (l : list ptr) (p : ptr) : list ptr :=
  if b then l ++ [p] else l.

Lemma lists_alloc par ty nm fn tn d f g :
  let g' := alloc par ty nm fn tn d f g in
  let nd := fresh par ty nm fn tn d f g in
  let N := length (nodes g) in
  all_nodes g' = all_nodes g ++ [N] /\
  null_nodes g' = push_if (has_optional_field nd) (null_nodes g) N /\
  bool_nodes g' = push_if (has_type BOOL nd) (bool_nodes g) N /\
  long_nodes g' = push_if (accepts_integer nd) (long_nodes g) N /\
  double_nodes g' = push_if (has_type DOUBLE nd) (double_nodes g) N /\
  string_nodes g' = push_if (has_type STRING nd) (string_nodes g) N /\
  object_nodes g' = push_if (has_type INSIDE_OBJECT nd) (object_nodes g) N /\
  key_nodes g' = push_if (has_type OUTSIDE_OBJECT nd) (key_nodes g) N /\
  array_nodes g' = push_if (has_type ARRAY nd) (array_nodes g) N.
Proof.
  unfold alloc, register, fresh, has_optional_field, has_type, accepts_integer.
  cbn [field type]. destruct (is_optional f); destruct ty;
    repeat split; reflexivity.
Qed.

(** A vector indexes the nodes that satisfy [P]. *)
Definition indexes (g : Graph) (l : list ptr) (P : Node -> bool) : Prop :=
  forall i, i ∈ l <-> exists n, nodes g !! i = Some n /\ P n = true.

Lemma indexes_alloc (P : Node -> bool) l par ty nm fn tn d f g :
  (forall c n, P (push_child c n) = P n) ->
  indexes g l P ->
  indexes (alloc par ty nm fn tn d f g)
    (push_if (P (fresh par ty nm fn tn d f g)) l (length (nodes g))) P.
Proof.
  intros Hpush Hidx i. split.
  - intros Hin.
    assert (Hcases : i ∈ l \/
              (i = length (nodes g) /\ P (fresh par ty nm fn tn d f g) = true)).
    { unfold push_if in Hin.
      destruct (P (fresh par ty nm fn tn d f g)); [|left; assumption].
      apply elem_of_app in Hin as [Hin|Hin]; [left; assumption|].
      apply list_elem_of_singleton in Hin. right. split; [assumption|reflexivity]. }
    destruct Hcases as [Hold|[Hi HP]].
    + apply Hidx in Hold as (n & Hn & HPn).
      eexists. split; [apply lookup_alloc_old; eassumption|].
      destruct (decide (i = par)); [rewrite Hpush|]; assumption.
    + subst i. eexists. split; [apply lookup_alloc_new; reflexivity|assumption].
  - intros (n' & Hn' & HP).
    apply lookup_alloc in Hn' as [(n & Hn & Heq)|[Hi Heq]].
    + assert (i ∈ l).
      { apply Hidx. exists n. split; [assumption|]. subst n'.
        destruct (decide (i = par)); [rewrite Hpush in HP|]; assumption. }
      unfold push_if. destruct (P (fresh par ty nm fn tn d f g));
        [apply elem_of_app; left|]; assumption.
    + subst n'. unfold push_if. rewrite HP. apply elem_of_app. right.
      apply list_elem_of_singleton. assumption.
Qed.

(** ** The invariant of the graph under construction *)

(** How a node hangs under its parent. *)
Definition link (p : ptr) (pn : Node) (i : ptr) (n : Node)
    (f : FieldDescriptor) : Prop :=
  match type pn with
  | Some INSIDE_OBJECT =>
      full_name n = full_name pn +:+ fd_name f /\
      exists k, getNodeTypeForProtoType (fd_type f) = Ok k /\
                type n = Some (if is_repeated f then ARRAY else k)
  | Some ARRAY =>
      i = S p /\ field pn = Some f /\ is_repeated f = true /\
      full_name n = full_name pn +:+ "[]" /\
      exists k, getNodeTypeForProtoType (fd_type f) = Ok k /\ type n = Some k
  | Some OUTSIDE_OBJECT =>
      i = S p /\ field pn = Some f /\ type n = Some INSIDE_OBJECT /\
      full_name n = full_name pn +:+ "."
  | _ => False
  end.

(** The children a node of each type has; an array or a message key that
    was allocated last may still wait for its child. *)
Definition shape (N : nat) (i : ptr) (n : Node) : Prop :=
  match type n with
  | Some ARRAY | Some OUTSIDE_OBJECT =>
      children n = [S i] \/ (children n = [] /\ S i = N)
  | Some INSIDE_OBJECT => True
  | Some _ => children n = []
  | None => False
  end.

Record Inv (g : Graph) : Prop := mkInv {
  inv_counter : stateCounter g = Z.of_nat (length (nodes g));
  inv_state : forall i n, nodes g !! i = Some n -> state n = Z.of_nat i + 1;
  inv_root : exists r, nodes g !! 0%nat = Some r /\ parent r = None /\
               type r = Some INSIDE_OBJECT /\ field r = None /\
               is_Some (desc r) /\ name r = "." /\ full_name r = ".";
  inv_parent : forall i n, nodes g !! i = Some n -> i <> 0%nat ->
      exists p pn f, parent n = Some p /\ (p < i)%nat /\
        nodes g !! p = Some pn /\ i ∈ children pn /\
        field n = Some f /\ name n = fd_name f /\ is_Some (desc n) /\
        link p pn i n f;
  inv_children : forall i n c, nodes g !! i = Some n -> c ∈ children n ->
      (i < c < length (nodes g))%nat /\
      exists cn, nodes g !! c = Some cn /\ parent cn = Some i;
  inv_shape : forall i n, nodes g !! i = Some n ->
      shape (length (nodes g)) i n;
  inv_all : all_nodes g = seq 0 (length (nodes g));
  inv_null : indexes g (null_nodes g) has_optional_field;
  inv_bool : indexes g (bool_nodes g) (has_type BOOL);
  inv_long : indexes g (long_nodes g) accepts_integer;
  inv_double : indexes g (double_nodes g) (has_type DOUBLE);
  inv_string : indexes g (string_nodes g) (has_type STRING);
  inv_object : indexes g (object_nodes g) (has_type INSIDE_OBJECT);
  inv_key : indexes g (key_nodes g) (has_type OUTSIDE_OBJECT);
  inv_array : indexes g (array_nodes g) (has_type ARRAY)
}.

Lemma link_same_info p pn pn' i n n' f :
  same_info pn pn' -> same_info n n' -> link p pn i n f -> link p pn' i n' f.
Proof.
  unfold link, same_info.
  intros (_ & Hty & _ & _ & Hfn & _ & _ & Hf)
         (_ & Hty' & _ & _ & Hfn' & _ & _ & _).
  rewrite Hty, Hfn, Hfn', Hty', Hf. tauto.
Qed.

Lemma getNodeType_not_array t k :
  getNodeTypeForProtoType t = Ok k -> k <> ARRAY /\ k <> INSIDE_OBJECT.
Proof. destruct t; simpl; intros [= <-]; split; discriminate. Qed.

Lemma alloc_ctx_parent g par ty nm fn tn d f :
  alloc_ctx g par ty nm fn tn d f ->
  exists pn, nodes g !! par = Some pn /\ nm = fd_name f /\
    link par pn (length (nodes g)) (fresh par ty nm fn tn d f g) f.
Proof.
  intros [node n k tn' d' f' Hn Hty Hcl Hk
         |a n k tn' d' f' Ha Hn Hty Hf Hrep Hk
         |key n d' f' Hkey Hn Hty Hf Hnm];
    exists n; (split; [assumption|]); (split; [reflexivity|]);
    unfold link; rewrite Hty; cbn [full_name type fresh].
  - split; [reflexivity|]. exists k. split; [assumption|reflexivity].
  - repeat (split; [first [reflexivity|assumption|lia]|]).
    exists k. split; [assumption|reflexivity].
  - repeat (split; [first [reflexivity|assumption|lia]|]). reflexivity.
Qed.

Lemma alloc_ctx_shape g par ty nm fn tn d f pn :
  Inv g -> alloc_ctx g par ty nm fn tn d f -> nodes g !! par = Some pn ->
  (* the parent is a message, or it waits for this child *)
  (type pn = Some INSIDE_OBJECT /\ closed g) \/
  ((type pn = Some ARRAY \/ type pn = Some OUTSIDE_OBJECT) /\
   children pn = [] /\ S par = length (nodes g)).
Proof.
  intros HI Hctx Hpn.
  destruct Hctx as [node n k tn' d' f' Hn Hty Hcl Hk
                   |a n k tn' d' f' Ha Hn Hty Hf Hrep Hk
                   |key n d' f' Hkey Hn Hty Hf Hnm];
    rewrite Hn in Hpn; injection Hpn as <-.
  - left. split; assumption.
  - right. split; [left; assumption|]. split; [|assumption].
    pose proof (inv_shape g HI _ _ Hn) as Hsh. unfold shape in Hsh.
    rewrite Hty in Hsh. destruct Hsh as [Hc|[Hc _]]; [|assumption].
    exfalso. destruct (inv_children g HI a n (S a) Hn) as [Hb _].
    { rewrite Hc. apply list_elem_of_singleton. reflexivity. }
    lia.
  - right. split; [right; assumption|]. split; [|assumption].
    pose proof (inv_shape g HI _ _ Hn) as Hsh. unfold shape in Hsh.
    rewrite Hty in Hsh. destruct Hsh as [Hc|[Hc _]]; [|assumption].
    exfalso. destruct (inv_children g HI key n (S key) Hn) as [Hb _].
    { rewrite Hc. apply list_elem_of_singleton. reflexivity. }
    lia.
Qed.

Lemma shape_alloc g par ty nm fn tn d f i n' :
  Inv g -> alloc_ctx g par ty nm fn tn d f ->
  nodes (alloc par ty nm fn tn d f g) !! i = Some n' ->
  shape (S (length (nodes g))) i n'.
Proof.
  intros HI Hctx Hn'.
  destruct (alloc_ctx_parent _ _ _ _ _ _ _ _ Hctx) as (pn & Hpn & _ & _).
  destruct (alloc_ctx_shape _ _ _ _ _ _ _ _ pn HI Hctx Hpn) as [[Hpt Hcl]|(Hpt & Hpc & Hpl)].
  - (* under a message *)
    apply lookup_alloc in Hn' as [(n & Hn & Heq)|[Hi Heq]].
    + pose proof (inv_shape g HI _ _ Hn) as Hsh.
      destruct (decide (i = par)) as [->|Hne].
      * subst n'. unfold shape. cbn [type push_child set_children].
        rewrite Hn in Hpn. injection Hpn as ->. rewrite Hpt. exact I.
      * subst n'. unfold shape in *.
        destruct (type n) as [[]|] eqn:Hty; try assumption.
        -- destruct Hsh as [Hc|[Hc Hl]]; [left; assumption|].
           exfalso. assert (Hi : i = pred (length (nodes g))) by lia.
           subst i. destruct (Hcl n Hn) as [_ H]. congruence.
        -- destruct Hsh as [Hc|[Hc Hl]]; [left; assumption|].
           exfalso. assert (Hi : i = pred (length (nodes g))) by lia.
           subst i. destruct (Hcl n Hn) as [H _]. congruence.
    + subst i n'. unfold shape. cbn [type children fresh].
      destruct ty; try reflexivity; try exact I; right; split; reflexivity.
  - (* under the array or key allocated last *)
    apply lookup_alloc in Hn' as [(n & Hn & Heq)|[Hi Heq]].
    + pose proof (inv_shape g HI _ _ Hn) as Hsh.
      destruct (decide (i = par)) as [->|Hne].
      * subst n'. rewrite Hn in Hpn. injection Hpn as ->.
        unfold shape. cbn [type children push_child set_children].
        rewrite Hpc, Hpl. destruct Hpt as [-> | ->]; left; reflexivity.
      * subst n'. unfold shape in *.
        assert (Hlt : (i < length (nodes g))%nat)
          by (eapply lookup_lt_Some; eauto).
        destruct (type n) as [[]|] eqn:Hty; try assumption.
        -- destruct Hsh as [Hc|[Hc Hl]]; [left; assumption|]. lia.
        -- destruct Hsh as [Hc|[Hc Hl]]; [left; assumption|]. lia.
    + subst i n'. unfold shape. cbn [type children fresh].
      destruct ty; try reflexivity; try exact I; right; split; reflexivity.
Qed.

Lemma Inv_alloc g par ty nm fn tn d f :
  Inv g -> alloc_ctx g par ty nm fn tn d f ->
  Inv (alloc par ty nm fn tn d f g).
Proof.
  intros HI Hctx.
  destruct (alloc_ctx_parent _ _ _ _ _ _ _ _ Hctx) as (pn & Hpn & Hnm & Hlink).
  assert (Hpar : (par < length (nodes g))%nat)
    by (eapply lookup_lt_Some; eauto).
  pose proof (lists_alloc par ty nm fn tn d f g) as HL. cbv zeta in HL.
  destruct HL as (La & Ln & Lb & Ll & Ld & Ls & Lo & Lk & Lr).
  constructor.
  - rewrite stateCounter_alloc, length_nodes_alloc, (inv_counter g HI). lia.
  - intros i n' Hn'.
    apply lookup_alloc in Hn' as [(n & Hn & Heq)|[Hi Heq]].
    + subst n'. rewrite <- (inv_state g HI i n Hn).
      destruct (decide (i = par)); reflexivity.
    + subst i n'. cbn [state fresh]. rewrite (inv_counter g HI). reflexivity.
  - destruct (inv_root g HI) as (r & Hr & H1 & H2 & H3 & H4 & H5 & H6).
    eexists. split; [apply lookup_alloc_old; eassumption|].
    destruct (decide (0%nat = par)); cbn [parent type field desc name
      full_name push_child set_children]; repeat split; assumption.
  - intros i n' Hn' Hi0.
    apply lookup_alloc in Hn' as [(n & Hn & Heq)|[Hi Heq]].
    + destruct (inv_parent g HI i n Hn Hi0)
        as (p & ppn & f0 & Hp & Hlt & Hppn & Hin & Hf & Hname & Hd & Hl).
      exists p. eexists. exists f0.
      assert (Hs : same_info n n')
        by (subst n'; destruct (decide (i = par));
            [apply same_info_push|apply same_info_refl]).
      destruct Hs as (S1 & S2 & S3 & S4 & S5 & S6 & S7 & S8).
      split; [congruence|]. split; [assumption|].
      split; [apply lookup_alloc_old; eassumption|].
      split.
      { destruct (decide (p = par)); [|assumption].
        cbn [children push_child set_children]. apply elem_of_app. left.
        assumption. }
      split; [congruence|]. split; [congruence|].
      split; [rewrite S7; assumption|].
      eapply link_same_info; [| |exact Hl].
      * destruct (decide (p = par));
          [apply same_info_push|apply same_info_refl].
      * repeat split; assumption.
    + subst i n'. exists par. eexists. exists f.
      cbn [parent field name desc fresh].
      split; [reflexivity|]. split; [assumption|].
      split; [apply lookup_alloc_old; eassumption|].
      rewrite decide_True by reflexivity.
      split.
      { cbn [children push_child set_children]. apply elem_of_app. right.
        apply list_elem_of_singleton. reflexivity. }
      split; [reflexivity|]. split; [assumption|].
      split; [eexists; reflexivity|].
      eapply link_same_info; [apply same_info_push|apply same_info_refl|].
      exact Hlink.
  - intros i n' c Hn' Hc. rewrite length_nodes_alloc.
    apply lookup_alloc in Hn' as [(n & Hn & Heq)|[Hi Heq]].
    + assert (Hcases : c ∈ children n \/ (i = par /\ c = length (nodes g))).
      { subst n'. destruct (decide (i = par)) as [->|]; [|left; assumption].
        cbn [children push_child set_children] in Hc.
        apply elem_of_app in Hc as [Hc|Hc]; [left; assumption|].
        apply list_elem_of_singleton in Hc. right. split; [reflexivity|assumption]. }
      destruct Hcases as [Hold|[-> ->]].
      * destruct (inv_children g HI i n c Hn Hold) as [Hb (cn & Hcn & Hcp)].
        split; [lia|]. eexists.
        split; [apply lookup_alloc_old; eassumption|].
        destruct (decide (c = par)); assumption.
      * split; [lia|]. eexists.
        split; [apply lookup_alloc_new; reflexivity|reflexivity].
    + subst n'. cbn [children fresh] in Hc. inversion Hc.
  - intros i n' Hn'. rewrite length_nodes_alloc.
    eapply shape_alloc; eassumption.
  - rewrite La, (inv_all g HI), length_nodes_alloc, seq_S. reflexivity.
  - rewrite Ln. apply indexes_alloc; [reflexivity|apply (inv_null g HI)].
  - rewrite Lb. apply indexes_alloc; [reflexivity|apply (inv_bool g HI)].
  - rewrite Ll. apply indexes_alloc; [reflexivity|apply (inv_long g HI)].
  - rewrite Ld. apply indexes_alloc; [reflexivity|apply (inv_double g HI)].
  - rewrite Ls. apply indexes_alloc; [reflexivity|apply (inv_string g HI)].
  - rewrite Lo. apply indexes_alloc; [reflexivity|apply (inv_object g HI)].
  - rewrite Lk. apply indexes_alloc; [reflexivity|apply (inv_key g HI)].
  - rewrite Lr. apply indexes_alloc; [reflexivity|apply (inv_array g HI)].
Qed.

Lemma Inv_reach g0 g : Inv g0 -> reach g0 g -> Inv g.
Proof.
  intros H0. induction 1 as [|g par ty nm fn tn d f _ IH Hlt Hctx].
  - exact H0.
  - apply Inv_alloc; [exact IH|exact Hctx].
Qed.

Lemma closed_alloc par ty nm fn tn d f g :
  ty <> ARRAY -> ty <> OUTSIDE_OBJECT -> closed (alloc par ty nm fn tn d f g).
Proof.
  intros H1 H2 n. rewrite length_nodes_alloc. cbn [pred].
  rewrite lookup_alloc_new by reflexivity. intros [= <-]. cbn [type fresh].
  split; congruence.
Qed.

Lemma counter_ok_inv sc (A : Type) (k : unit -> Res A) r :
  (counter_ok sc ≫= k) = Ok r -> sc < INT_MAX /\ k tt = Ok r.
Proof.
  unfold counter_ok. destruct (decide (sc < INT_MAX)); [|discriminate].
  intros H. split; assumption.
Qed.

(** ** Soundness: a run of the builder is a sequence of allocations *)

Section Soundness.
Variable rec : Descriptor -> ptr -> Graph -> Res Graph.

(** What the recursive call is assumed to do, and the loop is shown to
    do. *)
Definition builds (call : Descriptor -> ptr -> Graph -> Res Graph) : Prop :=
  forall desc0 node g g' n,
    Inv g -> nodes g !! node = Some n -> type n = Some INSIDE_OBJECT ->
    closed g -> call desc0 node g = Ok g' ->
    reach g g' /\ closed g'.

Hypothesis rec_builds : builds rec.

Lemma parseField_reach desc0 node f g g' n :
  Inv g -> nodes g !! node = Some n -> type n = Some INSIDE_OBJECT ->
  closed g -> parseField rec desc0 node f g = Ok g' ->
  reach g g' /\ closed g'.
Proof.
  intros HI Hn Hty Hcl.
  rewrite (parseField_eq rec desc0 node f g n Hn)
    by (rewrite (inv_counter g HI); lia).
  unfold parseField_allocs.
  destruct (getNodeTypeForProtoType (fd_type f)) as [k| | | |] eqn:Hk;
    try discriminate.
  cbn [mbind Res_bind]. intros H.
  apply counter_ok_inv in H as [Hlt H].
  destruct (getTypeNameForFieldDesc (pool g) f) as [tn| | | |] eqn:Htn;
    try discriminate.
  cbn [mbind Res_bind] in H. cbv zeta in H.
  destruct (getNodeType_not_array _ _ Hk) as [Hka Hki].
  destruct (is_repeated f) eqn:Hrep.
  - (* repeated: the array node, then its element *)
    apply counter_ok_inv in H as [Hlt1 H].
    set (g1 := alloc node ARRAY (fd_name f) (full_name n +:+ fd_name f)
                 ("[" +:+ tn +:+ "]") desc0 f g) in *.
    set (g2 := alloc (length (nodes g)) k (fd_name f)
                 ((full_name n +:+ fd_name f) +:+ "[]") tn desc0 f g1) in *.
    assert (C1 : alloc_ctx g node ARRAY (fd_name f)
                   (full_name n +:+ fd_name f) ("[" +:+ tn +:+ "]") desc0 f).
    { pose proof (ctx_field g node n k ("[" +:+ tn +:+ "]") desc0 f
                    Hn Hty Hcl Hk) as C.
      rewrite Hrep in C. exact C. }
    assert (R1 : reach g g1)
      by (eapply reach_alloc; [apply reach_refl|assumption|exact C1]).
    assert (C2 : alloc_ctx g1 (length (nodes g)) k (fd_name f)
                   ((full_name n +:+ fd_name f) +:+ "[]") tn desc0 f).
    { apply (ctx_elem g1 (length (nodes g))
               (fresh node ARRAY (fd_name f) (full_name n +:+ fd_name f)
                  ("[" +:+ tn +:+ "]") desc0 f g) k tn desc0 f).
      - unfold g1. rewrite length_nodes_alloc. reflexivity.
      - apply lookup_alloc_new. reflexivity.
      - reflexivity.
      - reflexivity.
      - assumption.
      - assumption. }
    assert (R2 : reach g g2).
    { eapply reach_alloc; [exact R1| |exact C2].
      unfold g1. rewrite stateCounter_alloc. assumption. }
    destruct (decide (k = OUTSIDE_OBJECT)) as [->|Hne].
    + apply counter_ok_inv in H as [Hlt2 H].
      destruct (message_type (pool g) f) as [m|] eqn:Hm; [|discriminate].
      cbn [mbind Res_bind deref] in H.
      set (g3 := alloc (S (length (nodes g))) INSIDE_OBJECT (fd_name f)
                   (((full_name n +:+ fd_name f) +:+ "[]") +:+ ".") tn
                   desc0 f g2) in *.
      assert (C3 : alloc_ctx g2 (S (length (nodes g))) INSIDE_OBJECT
                     (fd_name f)
                     (((full_name n +:+ fd_name f) +:+ "[]") +:+ ".") tn
                     desc0 f).
      { apply (ctx_obj g2 (S (length (nodes g)))
                 (fresh (length (nodes g)) OUTSIDE_OBJECT (fd_name f)
                    ((full_name n +:+ fd_name f) +:+ "[]") tn desc0 f g1)
                 desc0 f).
        - unfold g2, g1. rewrite !length_nodes_alloc. reflexivity.
        - apply lookup_alloc_new. unfold g1. rewrite length_nodes_alloc.
          reflexivity.
        - reflexivity.
        - reflexivity.
        - reflexivity. }
      assert (R3 : reach g g3).
      { eapply reach_alloc; [exact R2| |exact C3].
        unfold g2, g1. rewrite !stateCounter_alloc. assumption. }
      destruct (rec_builds m (S (S (length (nodes g)))) g3 g'
                  (fresh (S (length (nodes g))) INSIDE_OBJECT (fd_name f)
                     (((full_name n +:+ fd_name f) +:+ "[]") +:+ ".") tn
                     desc0 f g2))
        as [R4 Hcl'].
      * eapply Inv_reach; eassumption.
      * apply lookup_alloc_new. unfold g2, g1.
        rewrite !length_nodes_alloc. reflexivity.
      * reflexivity.
      * apply closed_alloc; discriminate.
      * exact H.
      * split; [eapply reach_trans; eassumption|assumption].
    + injection H as <-. split; [exact R2|].
      apply closed_alloc; assumption.
  - (* not repeated *)
    set (g1 := alloc node k (fd_name f) (full_name n +:+ fd_name f) tn
                 desc0 f g) in *.
    assert (C1 : alloc_ctx g node k (fd_name f)
                   (full_name n +:+ fd_name f) tn desc0 f).
    { pose proof (ctx_field g node n k tn desc0 f Hn Hty Hcl Hk) as C.
      rewrite Hrep in C. exact C. }
    assert (R1 : reach g g1)
      by (eapply reach_alloc; [apply reach_refl|assumption|exact C1]).
    destruct (decide (k = OUTSIDE_OBJECT)) as [->|Hne].
    + apply counter_ok_inv in H as [Hlt1 H].
      destruct (message_type (pool g) f) as [m|] eqn:Hm; [|discriminate].
      cbn [mbind Res_bind deref] in H.
      set (g2 := alloc (length (nodes g)) INSIDE_OBJECT (fd_name f)
                   ((full_name n +:+ fd_name f) +:+ ".") tn desc0 f g1) in *.
      assert (C2 : alloc_ctx g1 (length (nodes g)) INSIDE_OBJECT (fd_name f)
                     ((full_name n +:+ fd_name f) +:+ ".") tn desc0 f).
      { apply (ctx_obj g1 (length (nodes g))
                 (fresh node OUTSIDE_OBJECT (fd_name f)
                    (full_name n +:+ fd_name f) tn desc0 f g) desc0 f).
        - unfold g1. rewrite length_nodes_alloc. reflexivity.
        - apply lookup_alloc_new. reflexivity.
        - reflexivity.
        - reflexivity.
        - reflexivity. }
      assert (R2 : reach g g2).
      { eapply reach_alloc; [exact R1| |exact C2].
        unfold g1. rewrite stateCounter_alloc. assumption. }
      destruct (rec_builds m (S (length (nodes g))) g2 g'
                  (fresh (length (nodes g)) INSIDE_OBJECT (fd_name f)
                     ((full_name n +:+ fd_name f) +:+ ".") tn desc0 f g1))
        as [R3 Hcl'].
      * eapply Inv_reach; eassumption.
      * apply lookup_alloc_new. unfold g1. rewrite length_nodes_alloc.
        reflexivity.
      * reflexivity.
      * apply closed_alloc; discriminate.
      * exact H.
      * split; [eapply reach_trans; eassumption|assumption].
    + injection H as <-. split; [exact R1|].
      apply closed_alloc; assumption.
Qed.

Lemma parseFields_reach desc0 node fs :
  forall g g' n,
    Inv g -> nodes g !! node = Some n -> type n = Some INSIDE_OBJECT ->
    closed g -> parseFields rec desc0 node fs g = Ok g' ->
    reach g g' /\ closed g'.
Proof.
  induction fs as [|f rest IH]; intros g g' n HI Hn Hty Hcl H.
  - injection H as <-. split; [apply reach_refl|assumption].
  - cbn [parseFields] in H.
    destruct (parseField rec desc0 node f g) as [g1| | | |] eqn:Hf;
      try discriminate.
    cbn [mbind Res_bind] in H.
    destruct (parseField_reach desc0 node f g g1 n HI Hn Hty Hcl Hf)
      as [R1 Hcl1].
    destruct (reach_frame g g1 R1) as (_ & _ & Hold).
    destruct (Hold node n Hn) as (n1 & Hn1 & Hs).
    destruct (IH g1 g' n1) as [R2 Hcl2].
    + eapply Inv_reach; eassumption.
    + assumption.
    + destruct Hs as (_ & -> & _). assumption.
    + assumption.
    + assumption.
    + split; [eapply reach_trans; eassumption|assumption].
Qed.
End Soundness.

Lemma parseMessageDescRec_builds fuel : builds (parseMessageDescRec fuel).
Proof.
  induction fuel as [|fuel IH]; intros desc0 node g g' n HI Hn Hty Hcl H.
  - discriminate.
  - cbn [parseMessageDescRec] in H.
    eapply parseFields_reach; eassumption.
Qed.

(** ** The fuel of the model

    A result other than [OutOfFuel] is the result with any larger fuel:
    what the builder returns or throws does not depend on the fuel. *)

Lemma bind_more_fuel {A B} (m : Res A) (k1 k2 : A -> Res B) r :
  (m ≫= k1) = r -> r <> OutOfFuel ->
  (forall a, k1 a = r -> k2 a = r) -> (m ≫= k2) = r.
Proof.
  destruct m as [a| | | |]; cbn [mbind Res_bind]; intros H Hr Hk;
    try exact H.
  apply Hk. exact H.
Qed.

Definition extends (rec1 rec2 : Descriptor -> ptr -> Graph -> Res Graph)
  : Prop :=
  forall m p g r, rec1 m p g = r -> r <> OutOfFuel -> rec2 m p g = r.

Lemma parseField_more_fuel rec1 rec2 desc0 node f g r :
  extends rec1 rec2 ->
  parseField rec1 desc0 node f g = r -> r <> OutOfFuel ->
  parseField rec2 desc0 node f g = r.
Proof.
  intros Hrec H Hr. unfold parseField in *.
  refine (bind_more_fuel _ _ _ _ H Hr _). clear H. intros ty H.
  refine (bind_more_fuel _ _ _ _ H Hr _). clear H. intros [c g1] H.
  refine (bind_more_fuel _ _ _ _ H Hr _). clear H. intros n H.
  destruct (negb (is_repeated f)).
  - refine (bind_more_fuel _ _ _ _ H Hr _). clear H. intros tn H.
    refine (bind_more_fuel _ _ _ _ H Hr _). clear H. intros g2 H.
    destruct (decide (ty = OUTSIDE_OBJECT)); [|exact H].
    refine (bind_more_fuel _ _ _ _ H Hr _). clear H. intros [o g3] H.
    refine (bind_more_fuel _ _ _ _ H Hr _). clear H. intros m H.
    exact (Hrec _ _ _ _ H Hr).
  - refine (bind_more_fuel _ _ _ _ H Hr _). clear H. intros tn H.
    refine (bind_more_fuel _ _ _ _ H Hr _). clear H. intros g2 H.
    refine (bind_more_fuel _ _ _ _ H Hr _). clear H. intros [arr g3] H.
    destruct (decide (ty = OUTSIDE_OBJECT)); [|exact H].
    refine (bind_more_fuel _ _ _ _ H Hr _). clear H. intros [o g4] H.
    refine (bind_more_fuel _ _ _ _ H Hr _). clear H. intros m H.
    exact (Hrec _ _ _ _ H Hr).
Qed.

Lemma parseFields_more_fuel rec1 rec2 desc0 node fs :
  extends rec1 rec2 ->
  forall g r, parseFields rec1 desc0 node fs g = r -> r <> OutOfFuel ->
    parseFields rec2 desc0 node fs g = r.
Proof.
  intros Hrec. induction fs as [|f fs IH]; intros g r H Hr; [exact H|].
  cbn [parseFields] in *.
  destruct (parseField rec1 desc0 node f g) as [g1| | | |] eqn:E.
  - rewrite (parseField_more_fuel _ _ _ _ _ _ _ Hrec E) by discriminate.
    cbn [mbind Res_bind] in *. exact (IH g1 r H Hr).
  - rewrite (parseField_more_fuel _ _ _ _ _ _ _ Hrec E) by discriminate.
    exact H.
  - rewrite (parseField_more_fuel _ _ _ _ _ _ _ Hrec E) by discriminate.
    exact H.
  - rewrite (parseField_more_fuel _ _ _ _ _ _ _ Hrec E) by discriminate.
    exact H.
  - cbn [mbind Res_bind] in H. congruence.
Qed.

Lemma parseMessageDescRec_more_fuel fuel fuel' :
  (fuel <= fuel')%nat ->
  extends (parseMessageDescRec fuel) (parseMessageDescRec fuel').
Proof.
  revert fuel'. induction fuel as [|fuel IH]; intros fuel' Hle m p g r H Hr.
  - cbn in H. congruence.
  - destruct fuel' as [|fuel']; [lia|].
    cbn [parseMessageDescRec] in *.
    eapply parseFields_more_fuel; [|exact H|exact Hr].
    apply IH. lia.
Qed.

(** ** The graph [main] builds *)

(** The graph when the root has been filled in and registered. *)
Definition root_graph (f m : string) (fd : FileDescriptor) (md : Descriptor)
  : Graph :=
  mkGraph f m fd md 1
    [mkNode None [] (Some INSIDE_OBJECT) 1 "." "." (d_name md) (Some md) None]
    [0%nat] [] [] [] [] [] [0%nat] [] [].

Lemma Graph_new_Ok load f m g :
  Graph_new load f m = Ok g ->
  exists fd md, load f = Built fd /\
    FindMessageTypeByName (message_types fd) m = Some md /\
    g = mkGraph f m fd md 1 [set_state 1 new_Node] [] [] [] [] [] [] [] [] [].
Proof.
  unfold Graph_new. destruct (load f) as [| | |fd] eqn:Hl; try discriminate.
  destruct (FindMessageTypeByName (message_types fd) m) as [md|] eqn:Hm;
    [|discriminate].
  intros [= <-]. exists fd, md. repeat split. assumption.
Qed.

Lemma build_Ok fuel load f m g :
  build fuel load f m = Ok g ->
  exists fd md, load f = Built fd /\
    FindMessageTypeByName (message_types fd) m = Some md /\
    parseMessageDescRec fuel md root (root_graph f m fd md) = Ok g.
Proof.
  unfold build. destruct (Graph_new load f m) as [g0| | | |] eqn:H0;
    try discriminate.
  apply Graph_new_Ok in H0 as (fd & md & Hl & Hm & ->).
  cbn [mbind Res_bind]. intros H. exists fd, md.
  split; [assumption|]. split; [assumption|]. exact H.
Qed.

Lemma build_more_fuel fuel fuel' load f m r :
  (fuel <= fuel')%nat ->
  build fuel load f m = r -> r <> OutOfFuel -> build fuel' load f m = r.
Proof.
  intros Hle. unfold build, Graph_new.
  destruct (load f) as [| | |fd]; cbn [mbind Res_bind]; try (intros H _; exact H).
  destruct (FindMessageTypeByName (message_types fd) m) as [md|];
    cbn [mbind Res_bind]; [|intros H _; exact H].
  intros H Hr.
  change (parseMessageDescRec fuel md root (root_graph f m fd md) = r) in H.
  change (parseMessageDescRec fuel' md root (root_graph f m fd md) = r).
  exact (parseMessageDescRec_more_fuel fuel fuel' Hle _ _ _ _ H Hr).
Qed.

Lemma Inv_root_graph f m fd md : Inv (root_graph f m fd md).
Proof.
  constructor; cbn [root_graph nodes stateCounter all_nodes null_nodes
    bool_nodes long_nodes double_nodes string_nodes object_nodes key_nodes
    array_nodes length].
  - reflexivity.
  - intros [|i] n H; [|destruct i; discriminate]. injection H as <-.
    reflexivity.
  - eexists. split; [reflexivity|]. cbn. repeat split. eexists; reflexivity.
  - intros [|i] n H Hi; [congruence|destruct i; discriminate].
  - intros [|i] n c H Hc; [|destruct i; discriminate]. injection H as <-.
    inversion Hc.
  - intros [|i] n H; [|destruct i; discriminate]. injection H as <-.
    exact I.
  - reflexivity.
  - intros i. split; [intros H; inversion H|].
    intros (n & Hn & HP). destruct i as [|[|i]]; try discriminate.
    injection Hn as <-. discriminate.
  - intros i. split; [intros H; inversion H|].
    intros (n & Hn & HP). destruct i as [|[|i]]; try discriminate.
    injection Hn as <-. discriminate.
  - intros i. split; [intros H; inversion H|].
    intros (n & Hn & HP). destruct i as [|[|i]]; try discriminate.
    injection Hn as <-. discriminate.
  - intros i. split; [intros H; inversion H|].
    intros (n & Hn & HP). destruct i as [|[|i]]; try discriminate.
    injection Hn as <-. discriminate.
  - intros i. split; [intros H; inversion H|].
    intros (n & Hn & HP). destruct i as [|[|i]]; try discriminate.
    injection Hn as <-. discriminate.
  - intros i. split.
    + intros H. apply list_elem_of_singleton in H. subst i.
      eexists. split; reflexivity.
    + intros (n & Hn & HP). destruct i as [|[|i]]; try discriminate.
      apply list_elem_of_singleton. reflexivity.
  - intros i. split; [intros H; inversion H|].
    intros (n & Hn & HP). destruct i as [|[|i]]; try discriminate.
    injection Hn as <-. discriminate.
  - intros i. split; [intros H; inversion H|].
    intros (n & Hn & HP). destruct i as [|[|i]]; try discriminate.
    injection Hn as <-. discriminate.
Qed.

Lemma closed_root_graph f m fd md : closed (root_graph f m fd md).
Proof. intros n [= <-]. split; discriminate. Qed.

(** Every graph the builder returns satisfies the invariant, and no node
    in it waits for a child. *)
Lemma build_Inv fuel load f m g :
  build fuel load f m = Ok g -> Inv g /\ closed g.
Proof.
  intros H. apply build_Ok in H as (fd & md & _ & _ & H).
  destruct (parseMessageDescRec_builds fuel md root (root_graph f m fd md) g
              _ (Inv_root_graph f m fd md) eq_refl eq_refl
              (closed_root_graph f m fd md) H) as [R Hcl].
  split; [|assumption].
  eapply Inv_reach; [apply Inv_root_graph|exact R].
Qed.

(** ** The tree under the root *)

(** The nodes of the parse graph: the root and what hangs under it. *)
Inductive in_tree (g : Graph) : ptr -> Prop :=
| in_tree_root : in_tree g root
| in_tree_child p pn c :
    in_tree g p -> nodes g !! p = Some pn -> c ∈ children pn -> in_tree g c.

Lemma in_tree_allocated g :
  Inv g -> forall i, in_tree g i <-> is_Some (nodes g !! i).
Proof.
  intros HI i. split.
  - induction 1 as [|p pn c _ _ Hp Hc].
    + destruct (inv_root g HI) as (r & Hr & _). eexists; exact Hr.
    + destruct (inv_children g HI p pn c Hp Hc) as [_ (cn & Hcn & _)].
      eexists; exact Hcn.
  - induction i as [i IH] using lt_wf_ind. intros [n Hn].
    destruct (decide (i = 0%nat)) as [->|Hi0]; [apply in_tree_root|].
    destruct (inv_parent g HI i n Hn Hi0)
      as (p & pn & f & _ & Hlt & Hp & Hin & _).
    eapply in_tree_child; [apply IH; [exact Hlt|eexists; exact Hp]| |];
      eassumption.
Qed.

(** ** Example graphs *)

Definition demo_RM : Graph :=
  Eval vm_compute in
    match build 5 demo_load "demo.proto" "RM" with
    | Ok g => g
    | _ => root_graph "" "" demo_file RM
    end.

Definition demo_R : Graph :=
  Eval vm_compute in
    match build 5 demo_load "demo.proto" "R" with
    | Ok g => g
    | _ => root_graph "" "" demo_file R
    end.

Definition demo_Outer : Graph :=
  Eval vm_compute in
    match build 5 demo_load "demo.proto" "Outer" with
    | Ok g => g
    | _ => root_graph "" "" demo_file Outer
    end.

Definition demo_Flags : Graph :=
  Eval vm_compute in
    match build 5 demo_load "demo.proto" "Flags" with
    | Ok g => g
    | _ => root_graph "" "" demo_file Flags
    end.

Definition demo_Point : Graph :=
  Eval vm_compute in
    match build 5 demo_load "demo.proto" "Point" with
    | Ok g => g
    | _ => root_graph "" "" demo_file Point
    end.

Example build_RM : build 5 demo_load "demo.proto" "RM" = Ok demo_RM.
Proof. vm_compute. reflexivity. Qed.

Example build_R : build 5 demo_load "demo.proto" "R" = Ok demo_R.
Proof. vm_compute. reflexivity. Qed.

Example build_Outer : build 5 demo_load "demo.proto" "Outer" = Ok demo_Outer.
Proof. vm_compute. reflexivity. Qed.

Example demo_RM_names :
  map full_name (nodes demo_RM) =
  ["."; ".ps"; ".ps[]"; ".ps[]."; ".ps[].x"; ".ps[].y"].
Proof. reflexivity. Qed.

Example demo_RM_states : map state (nodes demo_RM) = [1; 2; 3; 4; 5; 6].
Proof. reflexivity. Qed.

(** * Properties of the graph builder *)

(** C6. In every graph the builder returns the root has state 1; the
    nodes of the tree are the allocated nodes, as many as [all_nodes]
    lists; their states lie in [1, N], are pairwise distinct, and every
    number of [1, N] is the state of a node. *)
Theorem states_dense fuel load f m g :
  build fuel load f m = Ok g ->
  let N := length (nodes g) in
  (exists r, nodes g !! root = Some r /\ state r = 1) /\
  (forall i, in_tree g i <-> is_Some (nodes g !! i)) /\
  length (all_nodes g) = N /\
  (forall i n, nodes g !! i = Some n -> 1 <= state n <= Z.of_nat N) /\
  (forall i j n n', nodes g !! i = Some n -> nodes g !! j = Some n' ->
     state n = state n' -> i = j) /\
  (forall s, 1 <= s <= Z.of_nat N ->
     exists i n, nodes g !! i = Some n /\ state n = s).
Proof.
  intros H N. apply build_Inv in H as [HI _].
  split.
  { destruct (inv_root g HI) as (r & Hr & _). exists r.
    split; [exact Hr|]. apply (inv_state g HI) in Hr. exact Hr. }
  split; [apply in_tree_allocated; exact HI|].
  split; [rewrite (inv_all g HI), length_seq; reflexivity|].
  split.
  { intros i n Hn. rewrite (inv_state g HI i n Hn).
    apply lookup_lt_Some in Hn. unfold N. lia. }
  split.
  { intros i j n n' Hn Hn' Heq.
    rewrite (inv_state g HI i n Hn), (inv_state g HI j n' Hn') in Heq. lia. }
  intros s Hs.
  destruct (lookup_lt_is_Some_2 (nodes g) (Z.to_nat (s - 1))) as [n Hn];
    [unfold N in Hs; lia|].
  exists (Z.to_nat (s - 1)), n. split; [exact Hn|].
  rewrite (inv_state g HI _ n Hn). lia.
Qed.

Lemma states_dense_witness :
  build 5 demo_load "demo.proto" "RM" = Ok demo_RM /\
  (exists r, nodes demo_RM !! root = Some r /\ state r = 1) /\
  length (all_nodes demo_RM) = length (nodes demo_RM).
Proof.
  split; [vm_compute; reflexivity|].
  destruct (states_dense 5 demo_load "demo.proto" "RM" demo_RM)
    as (H1 & _ & H2 & _); [vm_compute; reflexivity|].
  split; assumption.
Defined.

(** The only child of an array or of a message key: the node allocated
    right after it. *)
Lemma only_child g i n :
  Inv g -> closed g -> nodes g !! i = Some n ->
  type n = Some ARRAY \/ type n = Some OUTSIDE_OBJECT ->
  exists cn f, children n = [S i] /\ nodes g !! S i = Some cn /\
    parent cn = Some i /\ field cn = Some f /\ name cn = fd_name f /\
    link i n (S i) cn f.
Proof.
  intros HI Hcl Hn Hty.
  assert (Hc : children n = [S i]).
  { pose proof (inv_shape g HI i n Hn) as Hsh. unfold shape in Hsh.
    destruct Hty as [Hty|Hty]; rewrite Hty in Hsh;
      (destruct Hsh as [Hc|[_ Hl]]; [exact Hc|]);
      exfalso; (assert (Hi : i = pred (length (nodes g))) by lia);
      subst i; destruct (Hcl n Hn) as [H1 H2]; congruence. }
  destruct (inv_children g HI i n (S i) Hn) as [_ (cn & Hcn & Hcp)].
  { rewrite Hc. apply list_elem_of_singleton. reflexivity. }
  destruct (inv_parent g HI (S i) cn Hcn)
    as (p & pn & f & Hp & _ & Hpn & _ & Hf & Hnm & _ & Hl); [lia|].
  rewrite Hcp in Hp. injection Hp as <-.
  rewrite Hn in Hpn. injection Hpn as <-.
  exists cn, f. repeat (split; [assumption|]). assumption.
Qed.

(** C7. In every graph the builder returns an array node has exactly one
    child, and a node at the key of a message has exactly one child, of
    type [INSIDE_OBJECT]. *)
Theorem array_and_key_have_one_child fuel load f m g :
  build fuel load f m = Ok g ->
  forall i n, nodes g !! i = Some n ->
    (type n = Some ARRAY ->
       length (children n) = 1%nat /\
       exists e en, children n = [e] /\ nodes g !! e = Some en /\
                    parent en = Some i) /\
    (type n = Some OUTSIDE_OBJECT ->
       length (children n) = 1%nat /\
       exists c cn, children n = [c] /\ nodes g !! c = Some cn /\
                    parent cn = Some i /\ type cn = Some INSIDE_OBJECT).
Proof.
  intros H i n Hn. apply build_Inv in H as [HI Hcl]. split; intros Hty.
  - destruct (only_child g i n HI Hcl Hn (or_introl Hty))
      as (cn & f0 & Hc & Hcn & Hcp & _).
    split; [rewrite Hc; reflexivity|].
    exists (S i), cn. repeat split; assumption.
  - destruct (only_child g i n HI Hcl Hn (or_intror Hty))
      as (cn & f0 & Hc & Hcn & Hcp & _ & _ & Hl).
    split; [rewrite Hc; reflexivity|].
    exists (S i), cn. repeat (split; [assumption|]).
    unfold link in Hl. rewrite Hty in Hl. tauto.
Qed.

Lemma array_and_key_have_one_child_witness :
  build 5 demo_load "demo.proto" "RM" = Ok demo_RM /\
  (exists arr key,
     nodes demo_RM !! 1%nat = Some arr /\ type arr = Some ARRAY /\
     length (children arr) = 1%nat /\
     nodes demo_RM !! 2%nat = Some key /\ type key = Some OUTSIDE_OBJECT /\
     exists c cn, children key = [c] /\ nodes demo_RM !! c = Some cn /\
                  parent cn = Some 2%nat /\ type cn = Some INSIDE_OBJECT).
Proof.
  assert (B : build 5 demo_load "demo.proto" "RM" = Ok demo_RM)
    by (vm_compute; reflexivity).
  split; [exact B|].
  destruct (nodes demo_RM !! 1%nat) as [arr|] eqn:Ha; [|discriminate].
  destruct (nodes demo_RM !! 2%nat) as [key|] eqn:Hk; [|discriminate].
  exists arr, key.
  destruct (array_and_key_have_one_child 5 demo_load "demo.proto" "RM"
              demo_RM B 1%nat arr Ha) as [HA _].
  destruct (array_and_key_have_one_child 5 demo_load "demo.proto" "RM"
              demo_RM B 2%nat key Hk) as [_ HK].
  assert (Ta : type arr = Some ARRAY) by (injection Ha as <-; reflexivity).
  assert (Tk : type key = Some OUTSIDE_OBJECT)
    by (injection Hk as <-; reflexivity).
  destruct (HA Ta) as [La _]. destruct (HK Tk) as [_ Hc].
  repeat (split; [first [reflexivity|assumption]|]). exact Hc.
Defined.

(** C2, as the code has it.  For a repeated field [f] of a message, the
    node at the field is an array whose [full_name] is the enclosing node's
    [full_name] followed by the name of [f]; its only child, the element
    node, carries the same field and name, and its [full_name] is the
    array's followed by ["[]"]. *)
Theorem repeated_field_names fuel load f0 m g :
  build fuel load f0 m = Ok g ->
  forall i n p pn f,
    nodes g !! i = Some n -> parent n = Some p -> nodes g !! p = Some pn ->
    type pn = Some INSIDE_OBJECT -> field n = Some f ->
    is_repeated f = true ->
    type n = Some ARRAY /\
    full_name n = full_name pn +:+ fd_name f /\
    exists e en, children n = [e] /\ nodes g !! e = Some en /\
      parent en = Some i /\ field en = Some f /\ name en = fd_name f /\
      full_name en = (full_name pn +:+ fd_name f) +:+ "[]".
Proof.
  intros H i n p pn f Hn Hp Hpn Hpt Hf Hrep.
  apply build_Inv in H as [HI Hcl].
  assert (Hi0 : i <> 0%nat).
  { intros ->. destruct (inv_root g HI) as (r & Hr & Hrp & _).
    rewrite Hr in Hn. injection Hn as ->. congruence. }
  destruct (inv_parent g HI i n Hn Hi0)
    as (p' & pn' & f' & Hp' & _ & Hpn' & _ & Hf' & _ & _ & Hl).
  rewrite Hp in Hp'. injection Hp' as <-.
  rewrite Hpn in Hpn'. injection Hpn' as <-.
  rewrite Hf in Hf'. injection Hf' as <-.
  unfold link in Hl. rewrite Hpt, Hrep in Hl.
  destruct Hl as [Hfn (k & _ & Hty)].
  split; [exact Hty|]. split; [exact Hfn|].
  destruct (only_child g i n HI Hcl Hn (or_introl Hty))
    as (cn & f2 & Hc & Hcn & Hcp & Hcf & Hcname & Hl2).
  unfold link in Hl2. rewrite Hty in Hl2.
  destruct Hl2 as (_ & Hf2 & _ & Hfn2 & _).
  rewrite Hf in Hf2. injection Hf2 as <-.
  exists (S i), cn. repeat (split; [assumption|]).
  rewrite Hfn2, Hfn. reflexivity.
Qed.

Lemma repeated_field_names_witness :
  build 5 demo_load "demo.proto" "R" = Ok demo_R /\
  exists n pn f,
    nodes demo_R !! 1%nat = Some n /\ nodes demo_R !! 0%nat = Some pn /\
    field n = Some f /\ is_repeated f = true /\
    type n = Some ARRAY /\ full_name n = full_name pn +:+ fd_name f /\
    exists e en, children n = [e] /\ nodes demo_R !! e = Some en /\
      parent en = Some 1%nat /\ field en = Some f /\ name en = fd_name f /\
      full_name en = (full_name pn +:+ fd_name f) +:+ "[]".
Proof.
  assert (B : build 5 demo_load "demo.proto" "R" = Ok demo_R)
    by (vm_compute; reflexivity).
  split; [exact B|].
  destruct (nodes demo_R !! 1%nat) as [n|] eqn:Hn; [|discriminate].
  destruct (nodes demo_R !! 0%nat) as [pn|] eqn:Hpn; [|discriminate].
  exists n, pn, (scalar "xs" TYPE_INT32 LABEL_REPEATED).
  assert (Hf : field n = Some (scalar "xs" TYPE_INT32 LABEL_REPEATED))
    by (injection Hn as <-; reflexivity).
  assert (Hp : parent n = Some 0%nat) by (injection Hn as <-; reflexivity).
  assert (Hpt : type pn = Some INSIDE_OBJECT)
    by (injection Hpn as <-; reflexivity).
  destruct (repeated_field_names 5 demo_load "demo.proto" "R" demo_R B
              1%nat n 0%nat pn _ Hn Hp Hpn Hpt Hf eq_refl) as (H1 & H2 & H3).
  repeat (split; [first [reflexivity|assumption]|]). exact H3.
Defined.

(** C2, as the spec words it, fails on the schema
    [message R { repeated int32 xs = 1; }]: the array node is named
    [".xs"], not [".[]"], and its element [".xs[]"], not [".xs"]. *)
Lemma repeated_field_names_counterexample :
  exists g encl arr el,
    build 5 demo_load "demo.proto" "R" = Ok g /\
    nodes g !! 0%nat = Some encl /\ nodes g !! 1%nat = Some arr /\
    nodes g !! 2%nat = Some el /\
    type arr = Some ARRAY /\ children arr = [2%nat] /\
    full_name encl = "." /\
    full_name arr = ".xs" /\ full_name arr <> full_name encl +:+ "[]" /\
    full_name el = ".xs[]" /\ full_name el <> full_name encl +:+ "xs".
Proof.
  exists demo_R.
  destruct (nodes demo_R !! 0%nat) as [encl|] eqn:H0; [|discriminate].
  destruct (nodes demo_R !! 1%nat) as [arr|] eqn:H1; [|discriminate].
  destruct (nodes demo_R !! 2%nat) as [el|] eqn:H2; [|discriminate].
  exists encl, arr, el.
  injection H0 as <-. injection H1 as <-. injection H2 as <-.
  repeat (split; [first [reflexivity|discriminate]|]). discriminate.
Qed.

(** * Properties of the printer *)

(** ** Loops over the index vectors *)

Lemma for_nodes_Ok g pr l :
  (forall p, p ∈ l -> exists n c, nodes g !! p = Some n /\ pr n = Ok c) ->
  exists cs, for_nodes g pr l = Ok cs.
Proof.
  induction l as [|p l IH]; intros H; [eexists; reflexivity|].
  destruct (H p) as (n & c & Hn & Hc); [apply elem_of_cons; left; reflexivity|].
  destruct IH as [cs Hcs].
  { intros q Hq. apply H. apply elem_of_cons. right. exact Hq. }
  exists (c :: cs). cbn [for_nodes]. unfold get. rewrite Hn. cbn.
  rewrite Hc. cbn. rewrite Hcs. reflexivity.
Qed.

Lemma for_nodes_cons_inv g pr p l cs :
  for_nodes g pr (p :: l) = Ok cs ->
  exists n c cs', nodes g !! p = Some n /\ pr n = Ok c /\
    for_nodes g pr l = Ok cs' /\ cs = c :: cs'.
Proof.
  cbn [for_nodes]. unfold get.
  destruct (nodes g !! p) as [n|] eqn:Hn; [|discriminate]. cbn.
  destruct (pr n) as [c| | | |] eqn:Hc; try discriminate. cbn.
  destruct (for_nodes g pr l) as [cs'| | | |] eqn:Hcs; try discriminate. cbn.
  intros [= <-]. exists n, c, cs'. repeat split; assumption.
Qed.

(** The switch finds the case printed for a node when no other node of the
    vector has a case with the same label. *)
Lemma dispatch_for_nodes g pr l cs p n c :
  for_nodes g pr l = Ok cs ->
  p ∈ l -> nodes g !! p = Some n -> pr n = Ok c ->
  (forall q m c', q ∈ l -> nodes g !! q = Some m -> pr m = Ok c' ->
     label c' = label c -> c' = c) ->
  dispatch cs (label c) = Some c.
Proof.
  revert cs. induction l as [|q l IH]; intros cs Hcs Hp Hn Hc Huniq.
  - inversion Hp.
  - apply for_nodes_cons_inv in Hcs as (m & c' & cs' & Hm & Hc' & Hcs' & ->).
    unfold dispatch. cbn [find].
    destruct (Z.eqb_spec (label c') (label c)) as [Heq|Hne].
    + f_equal. apply (Huniq q m c'); try assumption.
      apply elem_of_cons. left. reflexivity.
    + apply elem_of_cons in Hp as [->|Hp].
      * rewrite Hn in Hm. injection Hm as <-. rewrite Hc in Hc'.
        injection Hc' as <-. contradiction.
      * apply IH; try assumption.
        intros q' m' c'' Hq'. apply Huniq. apply elem_of_cons. right.
        exact Hq'.
Qed.

(** ** What the invariant gives the printer *)

Lemma Inv_root_only g i n :
  Inv g -> nodes g !! i = Some n -> (i = 0%nat <-> parent n = None).
Proof.
  intros HI Hn. split.
  - intros ->. destruct (inv_root g HI) as (r & Hr & Hp & _).
    rewrite Hr in Hn. injection Hn as <-. exact Hp.
  - intros Hp. destruct (decide (i = 0%nat)) as [|Hi]; [assumption|].
    destruct (inv_parent g HI i n Hn Hi) as (p & _ & _ & Hp' & _).
    congruence.
Qed.

Lemma Inv_not_root g i n :
  Inv g -> nodes g !! i = Some n ->
  is_Some (field n) \/ type n <> Some INSIDE_OBJECT -> i <> 0%nat.
Proof.
  intros HI Hn H ->. destruct (inv_root g HI) as (r & Hr & _ & Ht & Hf & _).
  rewrite Hr in Hn. injection Hn as <-.
  destruct H as [[f Hf']|H]; congruence.
Qed.

Lemma Inv_parent_state g i n :
  Inv g -> nodes g !! i = Some n -> i <> 0%nat ->
  exists p pn d f, parent n = Some p /\ nodes g !! p = Some pn /\
    desc n = Some d /\ field n = Some f /\ name n = fd_name f /\
    parent_state g n = Ok (state pn) /\
    node_cpp_type n = Ok (get_full_cpp_type_name (d_full_name d)).
Proof.
  intros HI Hn Hi.
  destruct (inv_parent g HI i n Hn Hi)
    as (p & pn & f & Hp & _ & Hpn & _ & Hf & Hnm & [d Hd] & _).
  exists p, pn, d, f. repeat (split; [assumption|]).
  unfold parent_state, node_cpp_type, get. rewrite Hp, Hd.
  cbn [mbind Res_bind deref]. rewrite Hpn. split; reflexivity.
Qed.

(** A node inside the braces of a message that is not the root hangs
    under a message key, which hangs under a message or an array. *)
Lemma Inv_inside g i n :
  Inv g -> nodes g !! i = Some n -> type n = Some INSIDE_OBJECT ->
  i <> 0%nat ->
  exists p pn pp ppn f,
    parent n = Some p /\ nodes g !! p = Some pn /\
    type pn = Some OUTSIDE_OBJECT /\ i = S p /\
    field n = Some f /\ field pn = Some f /\
    parent pn = Some pp /\ nodes g !! pp = Some ppn /\
    (type ppn = Some INSIDE_OBJECT \/ type ppn = Some ARRAY).
Proof.
  intros HI Hn Hty Hi.
  destruct (inv_parent g HI i n Hn Hi)
    as (p & pn & f & Hp & _ & Hpn & _ & Hf & _ & _ & Hl).
  unfold link in Hl.
  destruct (type pn) as [[]|] eqn:Hpt; try contradiction.
  - (* under a key *)
    destruct Hl as (Hip & Hpf & _ & _).
    assert (Hp0 : p <> 0%nat).
    { eapply Inv_not_root; [exact HI|exact Hpn|]. right. congruence. }
    destruct (inv_parent g HI p pn Hpn Hp0)
      as (pp & ppn & f' & Hpp & _ & Hppn & _ & _ & _ & _ & Hl').
    exists p, pn, pp, ppn, f. repeat (split; [assumption|]).
    unfold link in Hl'. rewrite Hpt in Hl'.
    destruct (type ppn) as [[]|]; try contradiction.
    + destruct Hl' as (_ & _ & Hbad & _). discriminate.
    + left. reflexivity.
    + right. reflexivity.
  - (* under a message: the node would be a field node *)
    destruct Hl as (_ & k & Hk & Hty').
    rewrite Hty in Hty'. injection Hty' as Hty'.
    destruct (getNodeType_not_array _ _ Hk) as [_ Hki].
    destruct (is_repeated f); [discriminate|congruence].
  - (* under an array: the node would be an element *)
    destruct Hl as (_ & _ & _ & _ & k & Hk & Hty').
    rewrite Hty in Hty'. injection Hty' as Hty'.
    destruct (getNodeType_not_array _ _ Hk) as [_ Hki]. congruence.
Qed.

(** ** The printer on the graphs the builder returns *)

Lemma printNullStateImpl_Ok g i n :
  Inv g -> nodes g !! i = Some n -> i <> 0%nat ->
  exists p pn d f, parent n = Some p /\ nodes g !! p = Some pn /\
    desc n = Some d /\ field n = Some f /\
    printNullStateImpl g n =
    Ok (mkCase (state n) ("key " +:+ full_name n)
          [ClearField (get_full_cpp_type_name (d_full_name d)) (fd_name f);
           SetLocation (state pn)]).
Proof.
  intros HI Hn Hi.
  destruct (Inv_parent_state g i n HI Hn Hi)
    as (p & pn & d & f & Hp & Hpn & Hd & Hf & Hnm & Hps & Hcpp).
  exists p, pn, d, f. repeat (split; [assumption|]).
  unfold printNullStateImpl. rewrite Hcpp, Hps, Hnm. reflexivity.
Qed.

Lemma printPodStateImpl_Ok g i n :
  Inv g -> nodes g !! i = Some n -> i <> 0%nat ->
  exists c cpp_type verb cast tail,
    printPodStateImpl g n = Ok c /\ label c = state n /\
    body c = StoreValue cpp_type verb (name n) cast :: tail /\
    (tail = [] \/ exists s, tail = [SetLocation s]).
Proof.
  intros HI Hn Hi.
  destruct (Inv_parent_state g i n HI Hn Hi)
    as (p & pn & d & f & Hp & Hpn & Hd & Hf & Hnm & Hps & Hcpp).
  unfold printPodStateImpl. rewrite Hcpp, Hf, Hps. cbn [mbind Res_bind deref].
  destruct (is_repeated f); cbn [negb mbind Res_bind];
    do 5 eexists; (split; [reflexivity|]); (split; [reflexivity|]);
    (split; [reflexivity|]); [left; reflexivity|right; eexists; reflexivity].
Qed.

Lemma printPodStateImpl_label g n c :
  printPodStateImpl g n = Ok c -> label c = state n.
Proof.
  unfold printPodStateImpl.
  destruct (node_cpp_type n); try discriminate. cbn [mbind Res_bind].
  destruct (field n) as [f|]; [|discriminate]. cbn [mbind Res_bind deref].
  destruct (is_repeated f); cbn [negb mbind Res_bind].
  - intros [= <-]. reflexivity.
  - destruct (parent_state g n); try discriminate. cbn [mbind Res_bind].
    intros [= <-]. reflexivity.
Qed.

Lemma printNullStateImpl_label g n c :
  printNullStateImpl g n = Ok c -> label c = state n.
Proof.
  unfold printNullStateImpl.
  destruct (node_cpp_type n); try discriminate. cbn [mbind Res_bind].
  destruct (parent_state g n); try discriminate. cbn [mbind Res_bind].
  intros [= <-]. reflexivity.
Qed.

(** Where every case carries the state of its node as label, the switch
    finds the case of a node at the node's state. *)
Lemma dispatch_by_state g pr l cs p n c :
  Inv g -> for_nodes g pr l = Ok cs ->
  (forall m c', pr m = Ok c' -> label c' = state m) ->
  p ∈ l -> nodes g !! p = Some n -> pr n = Ok c ->
  dispatch cs (state n) = Some c.
Proof.
  intros HI Hcs Hlab Hp Hn Hc. rewrite <- (Hlab n c Hc).
  eapply dispatch_for_nodes; [exact Hcs|exact Hp|exact Hn|exact Hc|].
  intros q m c' _ Hq Hc' Heq.
  rewrite (Hlab m c' Hc'), (Hlab n c Hc) in Heq.
  rewrite (inv_state g HI q m Hq), (inv_state g HI p n Hn) in Heq.
  assert (q = p) by lia. subst q. rewrite Hn in Hq. injection Hq as <-.
  congruence.
Qed.

Lemma printStringStateImpl_Ok g i n :
  Inv g -> nodes g !! i = Some n -> i <> 0%nat ->
  exists c, printStringStateImpl g n = Ok c /\ label c = state n.
Proof.
  intros HI Hn Hi.
  destruct (Inv_parent_state g i n HI Hn Hi)
    as (p & pn & d & f & Hp & Hpn & Hd & Hf & Hnm & Hps & Hcpp).
  unfold printStringStateImpl. rewrite Hcpp, Hf, Hps.
  cbn [mbind Res_bind deref].
  destruct (is_repeated f); cbn [negb mbind Res_bind];
    eexists; split; reflexivity.
Qed.

Lemma printMapStartStateImpl_Ok g i n :
  Inv g -> nodes g !! i = Some n ->
  exists c, printMapStartStateImpl g n = Ok c.
Proof.
  intros HI Hn. unfold printMapStartStateImpl.
  destruct (parent n) as [p|] eqn:Hp; [|eexists; reflexivity].
  assert (Hi : i <> 0%nat).
  { intros Hi. apply (Inv_root_only g i n HI Hn) in Hi. congruence. }
  destruct (Inv_parent_state g i n HI Hn Hi)
    as (p' & pn & d & f & Hp' & Hpn & Hd & Hf & Hnm & Hps & Hcpp).
  rewrite Hp in Hp'. injection Hp' as <-.
  rewrite Hcpp, Hf. unfold get. rewrite Hpn. eexists. reflexivity.
Qed.

Lemma printMapEndStateImpl_root g n :
  Inv g -> nodes g !! 0%nat = Some n ->
  printMapEndStateImpl g n =
  Ok (mkCase (state n) "map ." [SetLocation 0; PopBack; AssertStackEmpty]).
Proof.
  intros HI Hn. unfold printMapEndStateImpl.
  assert (Hp : parent n = None)
    by (apply (Inv_root_only g 0%nat n HI Hn); reflexivity).
  rewrite Hp. reflexivity.
Qed.

Lemma printMapEndStateImpl_inner g i n :
  Inv g -> nodes g !! i = Some n -> type n = Some INSIDE_OBJECT ->
  i <> 0%nat ->
  exists p pn pp ppn,
    parent n = Some p /\ nodes g !! p = Some pn /\
    parent pn = Some pp /\ nodes g !! pp = Some ppn /\
    printMapEndStateImpl g n =
    Ok (mkCase (state n) ("map " +:+ full_name n)
          [SetLocation (if decide (type ppn = Some ARRAY)
                        then state pn else state ppn);
           PopBack]).
Proof.
  intros HI Hn Hty Hi.
  destruct (Inv_inside g i n HI Hn Hty Hi)
    as (p & pn & pp & ppn & f & Hp & Hpn & _ & _ & _ & _ & Hpp & Hppn & _).
  destruct (Inv_parent_state g i n HI Hn Hi)
    as (_ & _ & d & _ & _ & _ & Hd & _ & _ & _ & Hcpp).
  exists p, pn, pp, ppn. repeat (split; [assumption|]).
  unfold printMapEndStateImpl, get. rewrite Hp, Hpn.
  cbn [mbind Res_bind deref]. rewrite Hpp, Hcpp, Hppn. reflexivity.
Qed.

Lemma printMapEndStateImpl_label g n c :
  printMapEndStateImpl g n = Ok c -> label c = state n.
Proof.
  unfold printMapEndStateImpl, get.
  destruct (parent n) as [p|]; [|intros [= <-]; reflexivity].
  destruct (nodes g !! p) as [pn|]; [|discriminate].
  cbn [mbind Res_bind deref].
  destruct (parent pn) as [pp|]; [|intros [= <-]; reflexivity].
  destruct (node_cpp_type n); try discriminate. cbn [mbind Res_bind].
  destruct (nodes g !! pp) as [ppn|]; [|discriminate].
  intros [= <-]. reflexivity.
Qed.

Lemma printArrayStartStateImpl_Ok g i n :
  Inv g -> closed g -> nodes g !! i = Some n -> type n = Some ARRAY ->
  exists c, printArrayStartStateImpl g n = Ok c.
Proof.
  intros HI Hcl Hn Hty.
  destruct (only_child g i n HI Hcl Hn (or_introl Hty))
    as (cn & f & Hc & Hcn & _).
  unfold printArrayStartStateImpl, get. rewrite Hc. cbn. rewrite Hcn.
  eexists. reflexivity.
Qed.

Lemma printArrayEndStateImpl_Ok g i n :
  Inv g -> closed g -> nodes g !! i = Some n -> type n = Some ARRAY ->
  exists c, printArrayEndStateImpl g n = Ok c.
Proof.
  intros HI Hcl Hn Hty.
  destruct (only_child g i n HI Hcl Hn (or_introl Hty))
    as (cn & f & Hc & Hcn & _).
  assert (Hi : i <> 0%nat).
  { eapply Inv_not_root; [exact HI|exact Hn|]. right. congruence. }
  destruct (Inv_parent_state g i n HI Hn Hi)
    as (p & pn & d & f' & Hp & Hpn & Hd & Hf & Hnm & Hps & Hcpp).
  unfold printArrayEndStateImpl, get. rewrite Hc, Hp, Hps. cbn.
  rewrite Hcn. eexists. reflexivity.
Qed.

Lemma has_type_true t n : has_type t n = true -> type n = Some t.
Proof. unfold has_type. apply bool_decide_eq_true. Qed.

Lemma has_type_intro t n : type n = Some t -> has_type t n = true.
Proof. unfold has_type. apply bool_decide_eq_true. Qed.

Lemma accepts_integer_not_root g i n :
  Inv g -> nodes g !! i = Some n -> accepts_integer n = true -> i <> 0%nat.
Proof.
  intros HI Hn Ha. eapply Inv_not_root; [exact HI|exact Hn|]. right.
  unfold accepts_integer in Ha. destruct (type n) as [[]|]; congruence.
Qed.

Section PrinterProperties.
Variable hash : string -> Z.

Lemma key_cases_Ok g cs :
  (forall c, c ∈ cs -> is_Some (nodes g !! c)) ->
  exists ks, key_cases hash g cs = Ok ks /\
    map (fun k => fst (fst k)) ks =
    map (fun c => match nodes g !! c with
                  | Some cn => hash (name cn)
                  | None => 0
                  end) cs.
Proof.
  induction cs as [|c cs IH]; intros H; [eexists; split; reflexivity|].
  destruct (H c) as [cn Hcn]; [apply elem_of_cons; left; reflexivity|].
  destruct IH as (ks & Hks & Hmap).
  { intros c' Hc'. apply H. apply elem_of_cons. right. exact Hc'. }
  eexists. cbn [key_cases]. unfold get. rewrite Hcn. cbn [mbind Res_bind deref].
  rewrite Hks. cbn [mbind Res_bind]. split; [reflexivity|].
  cbn [map fst]. rewrite Hcn, Hmap. reflexivity.
Qed.

Lemma printMapKeyStateImpl_Ok g i n :
  Inv g -> nodes g !! i = Some n ->
  exists ks,
    printMapKeyStateImpl hash g n =
    Ok (mkCase (state n) ("map " +:+ full_name n)
          [KeySwitch (full_name n) ks]) /\
    map (fun k => fst (fst k)) ks =
    map (fun c => match nodes g !! c with
                  | Some cn => hash (name cn)
                  | None => 0
                  end) (children n).
Proof.
  intros HI Hn.
  destruct (key_cases_Ok g (children n)) as (ks & Hks & Hmap).
  { intros c Hc. destruct (inv_children g HI i n c Hn Hc) as [_ (cn & Hcn & _)].
    eexists; exact Hcn. }
  exists ks. split; [|exact Hmap].
  unfold printMapKeyStateImpl. rewrite Hks. reflexivity.
Qed.

(** On a graph the builder returned the printer dereferences no null
    pointer and fails no [assert]. *)
Lemma printSourceImpl_Ok g :
  Inv g -> closed g -> exists src, printSourceImpl hash g = Ok src.
Proof.
  intros HI Hcl. unfold printSourceImpl.
  destruct (for_nodes_Ok g (printNullStateImpl g) (null_nodes g)) as [c1 ->].
  { intros p Hp. apply (inv_null g HI) in Hp as (n & Hn & HP).
    assert (Hi : p <> 0%nat).
    { eapply Inv_not_root; [exact HI|exact Hn|]. left.
      unfold has_optional_field in HP. destruct (field n); [eauto|discriminate]. }
    destruct (printNullStateImpl_Ok g p n HI Hn Hi)
      as (? & ? & ? & ? & _ & _ & _ & _ & H).
    eauto. }
  destruct (for_nodes_Ok g (printPodStateImpl g) (bool_nodes g)) as [c2 ->].
  { intros p Hp. apply (inv_bool g HI) in Hp as (n & Hn & HP).
    assert (Hi : p <> 0%nat).
    { eapply Inv_not_root; [exact HI|exact Hn|]. right.
      apply has_type_true in HP. congruence. }
    destruct (printPodStateImpl_Ok g p n HI Hn Hi)
      as (c & ? & ? & ? & ? & H & _).
    eauto. }
  destruct (for_nodes_Ok g (printPodStateImpl g) (long_nodes g)) as [c3 ->].
  { intros p Hp. apply (inv_long g HI) in Hp as (n & Hn & HP).
    pose proof (accepts_integer_not_root g p n HI Hn HP) as Hi.
    destruct (printPodStateImpl_Ok g p n HI Hn Hi)
      as (c & ? & ? & ? & ? & H & _).
    eauto. }
  destruct (for_nodes_Ok g (printPodStateImpl g) (double_nodes g)) as [c4 ->].
  { intros p Hp. apply (inv_double g HI) in Hp as (n & Hn & HP).
    assert (Hi : p <> 0%nat).
    { eapply Inv_not_root; [exact HI|exact Hn|]. right.
      apply has_type_true in HP. congruence. }
    destruct (printPodStateImpl_Ok g p n HI Hn Hi)
      as (c & ? & ? & ? & ? & H & _).
    eauto. }
  destruct (for_nodes_Ok g (printStringStateImpl g) (string_nodes g)) as [c5 ->].
  { intros p Hp. apply (inv_string g HI) in Hp as (n & Hn & HP).
    assert (Hi : p <> 0%nat).
    { eapply Inv_not_root; [exact HI|exact Hn|]. right.
      apply has_type_true in HP. congruence. }
    destruct (printStringStateImpl_Ok g p n HI Hn Hi) as (c & H & _).
    eauto. }
  destruct (for_nodes_Ok g (printMapStartStateImpl g) (object_nodes g))
    as [c6 ->].
  { intros p Hp. apply (inv_object g HI) in Hp as (n & Hn & HP).
    destruct (printMapStartStateImpl_Ok g p n HI Hn) as [c H]. eauto. }
  destruct (for_nodes_Ok g (printMapKeyStateImpl hash g) (object_nodes g))
    as [c7 ->].
  { intros p Hp. apply (inv_object g HI) in Hp as (n & Hn & HP).
    destruct (printMapKeyStateImpl_Ok g p n HI Hn) as (ks & H & _). eauto. }
  destruct (for_nodes_Ok g (printMapEndStateImpl g) (object_nodes g))
    as [c8 ->].
  { intros p Hp. apply (inv_object g HI) in Hp as (n & Hn & HP).
    apply has_type_true in HP.
    destruct (decide (p = 0%nat)) as [->|Hi].
    - pose proof (printMapEndStateImpl_root g n HI Hn). eauto.
    - destruct (printMapEndStateImpl_inner g p n HI Hn HP Hi)
        as (? & ? & ? & ? & _ & _ & _ & _ & H).
      eauto. }
  destruct (for_nodes_Ok g (printArrayStartStateImpl g) (array_nodes g))
    as [c9 ->].
  { intros p Hp. apply (inv_array g HI) in Hp as (n & Hn & HP).
    apply has_type_true in HP.
    destruct (printArrayStartStateImpl_Ok g p n HI Hcl Hn HP) as [c H]. eauto. }
  destruct (for_nodes_Ok g (printArrayEndStateImpl g) (array_nodes g))
    as [c10 ->].
  { intros p Hp. apply (inv_array g HI) in Hp as (n & Hn & HP).
    apply has_type_true in HP.
    destruct (printArrayEndStateImpl_Ok g p n HI Hcl Hn HP) as [c H]. eauto. }
  eexists. reflexivity.
Qed.

Lemma printSourceImpl_inv g src :
  printSourceImpl hash g = Ok src ->
  for_nodes g (printNullStateImpl g) (null_nodes g) = Ok (parse_null src) /\
  for_nodes g (printPodStateImpl g) (long_nodes g) = Ok (parse_integer src) /\
  for_nodes g (printMapKeyStateImpl hash g) (object_nodes g)
    = Ok (parse_map_key src) /\
  for_nodes g (printMapEndStateImpl g) (object_nodes g)
    = Ok (parse_end_map src).
Proof.
  unfold printSourceImpl.
  repeat match goal with
  | |- context [for_nodes g ?pr ?l ≫= _] =>
      destruct (for_nodes g pr l); try discriminate; cbn [mbind Res_bind]
  end.
  intros [= <-]. repeat split.
Qed.

End PrinterProperties.

(** ** The case of [end_map] *)

(** Popping the stack and going to [target]; with [must_be_empty], the
    stack has to be empty afterwards. *)
Definition pop_to (target : Z) (must_be_empty : bool) (st : parser_state)
  : Run parser_state :=
  match msgStack st with
  | [] => UndefinedBehaviour
  | _ :: rest =>
      if must_be_empty && negb (bool_decide (rest = []))
      then AssertFails
      else Continue (mkState (checkInitialized st) target rest (calls st))
  end.

Lemma exec_root_case hash ev st :
  exec_body hash ev [SetLocation 0; PopBack; AssertStackEmpty] st =
  pop_to 0 true st.
Proof.
  unfold pop_to. destruct st as [ci loc [|top [|m rest]] cs]; reflexivity.
Qed.

Lemma exec_inner_case hash ev target st :
  exec_body hash ev [SetLocation target; PopBack] st = pop_to target false st.
Proof.
  unfold pop_to. destruct st as [ci loc [|top rest] cs]; reflexivity.
Qed.

(** C1. For every node inside a message of a graph the builder returned,
    the switch of [end_map] has a case at the node's state.  For the root,
    or a node one level under it, the case sets the location to 0 and pops
    the stack, which must then be empty.  Otherwise it pops the stack and
    sets the location to the state of the parent when the grandparent is
    an array, and to the state of the grandparent when it is not. *)
Theorem end_map_case hash fuel load f m g :
  build fuel load f m = Ok g ->
  exists src, printSourceImpl hash g = Ok src /\
  forall i n, nodes g !! i = Some n -> type n = Some INSIDE_OBJECT ->
    exists c, dispatch (parse_end_map src) (state n) = Some c /\
      printMapEndStateImpl g n = Ok c /\
      ((parent n = None \/
        (exists p pn, parent n = Some p /\ nodes g !! p = Some pn /\
                      parent pn = None)) /\
       body c = [SetLocation 0; PopBack; AssertStackEmpty] /\
       (forall ev st, exec_body hash ev (body c) st = pop_to 0 true st)
       \/
       exists p pn pp ppn,
         parent n = Some p /\ nodes g !! p = Some pn /\
         parent pn = Some pp /\ nodes g !! pp = Some ppn /\
         let target := if decide (type ppn = Some ARRAY)
                       then state pn else state ppn in
         body c = [SetLocation target; PopBack] /\
         (forall ev st,
            exec_body hash ev (body c) st = pop_to target false st)).
Proof.
  intros H. apply build_Inv in H as [HI Hcl].
  destruct (printSourceImpl_Ok hash g HI Hcl) as [src Hsrc].
  exists src. split; [exact Hsrc|].
  destruct (printSourceImpl_inv hash g src Hsrc) as (_ & _ & _ & Hend).
  intros i n Hn Hty.
  assert (Hin : i ∈ object_nodes g).
  { apply (inv_object g HI). exists n. split; [exact Hn|].
    apply has_type_intro. exact Hty. }
  assert (Hfind : forall c, printMapEndStateImpl g n = Ok c ->
            dispatch (parse_end_map src) (state n) = Some c).
  { intros c Hc.
    rewrite <- (printMapEndStateImpl_label g n c Hc).
    eapply dispatch_for_nodes; [exact Hend|exact Hin|exact Hn|exact Hc|].
    intros q m' c' _ Hq Hc' Hlab.
    rewrite (printMapEndStateImpl_label g m' c' Hc'),
            (printMapEndStateImpl_label g n c Hc) in Hlab.
    rewrite (inv_state g HI q m' Hq), (inv_state g HI i n Hn) in Hlab.
    assert (q = i) by lia. subst q. rewrite Hn in Hq. injection Hq as <-.
    congruence. }
  destruct (decide (i = 0%nat)) as [->|Hi].
  - pose proof (printMapEndStateImpl_root g n HI Hn) as Hc.
    eexists. split; [apply Hfind; exact Hc|]. split; [exact Hc|].
    left. split.
    { left. apply (Inv_root_only g 0%nat n HI Hn). reflexivity. }
    split; [reflexivity|]. intros ev st. apply exec_root_case.
  - destruct (printMapEndStateImpl_inner g i n HI Hn Hty Hi)
      as (p & pn & pp & ppn & Hp & Hpn & Hpp & Hppn & Hc).
    eexists. split; [apply Hfind; exact Hc|]. split; [exact Hc|].
    right. exists p, pn, pp, ppn. repeat (split; [assumption|]).
    split; [reflexivity|]. intros ev st. apply exec_inner_case.
Qed.

(** A hash for the examples: the sum of the character codes times 31 to
    the position. *)
Fixpoint demo_hash (s : string) : Z :=
  match s with
  | EmptyString => 7
  | String c rest => Z.of_nat (nat_of_ascii c) + 31 * demo_hash rest
  end.

Lemma end_map_case_witness :
  build 5 demo_load "demo.proto" "RM" = Ok demo_RM /\
  exists src n c,
    printSourceImpl demo_hash demo_RM = Ok src /\
    nodes demo_RM !! 3%nat = Some n /\ type n = Some INSIDE_OBJECT /\
    dispatch (parse_end_map src) (state n) = Some c /\
    body c = [SetLocation 3; PopBack].
Proof.
  assert (B : build 5 demo_load "demo.proto" "RM" = Ok demo_RM)
    by (vm_compute; reflexivity).
  split; [exact B|].
  destruct (end_map_case demo_hash 5 demo_load "demo.proto" "RM" demo_RM B)
    as (src & Hsrc & Hcases).
  destruct (nodes demo_RM !! 3%nat) as [n|] eqn:Hn; [|discriminate].
  assert (Hty : type n = Some INSIDE_OBJECT)
    by (injection Hn as <-; reflexivity).
  destruct (Hcases 3%nat n Hn Hty) as (c & Hd & Hc & _).
  exists src, n, c. repeat (split; [first [assumption|reflexivity]|]).
  injection Hn as <-. vm_compute in Hc. injection Hc as <-. reflexivity.
Defined.

(** The stack of the scenario S4 of the spec is back at the element node
    of [ps] after the braces of a [Point] close. *)
Example end_map_in_array :
  (src ← printSourceImpl demo_hash demo_RM;
   Ok (deliver demo_hash src
         [ev_start_map; ev_map_key "ps"; ev_start_array;
          ev_start_map; ev_map_key "x"; ev_integer 1; ev_end_map]
         parser_init)) =
  Ok (Continue
        (mkState true 3 [Req]
           [accessor Req "::RM" "add" "ps";
            store (Member Req "add_ps") "::Point" "set" "x" None (ev_integer 1);
            CheckInitialized (Member Req "add_ps")])).
Proof. vm_compute. reflexivity. Qed.

(** ** Integers where a bool or a double is expected *)

(** C8. In a graph the builder returned every node of [bool_nodes] and
    every node of [double_nodes] is in [long_nodes] too, so the callback
    for integers has a case at the state of every bool and double node,
    which stores the integer in the message on top of the stack. *)
Theorem bool_and_double_accept_integers hash fuel load f m g :
  build fuel load f m = Ok g ->
  (forall p, p ∈ bool_nodes g -> p ∈ long_nodes g) /\
  (forall p, p ∈ double_nodes g -> p ∈ long_nodes g) /\
  exists src, printSourceImpl hash g = Ok src /\
    forall i n, nodes g !! i = Some n ->
      type n = Some BOOL \/ type n = Some DOUBLE ->
      i ∈ long_nodes g /\
      exists c cpp_type verb cast,
        dispatch (parse_integer src) (state n) = Some c /\
        printPodStateImpl g n = Ok c /\
        forall v st top rest,
          location st = state n -> msgStack st = top :: rest ->
          exists st',
            callback hash src (ev_integer v) st = Continue st' /\
            calls st' =
            calls st ++ [store top cpp_type verb (name n) cast (ev_integer v)].
Proof.
  intros H. apply build_Inv in H as [HI Hcl].
  assert (Hb : forall p, p ∈ bool_nodes g -> p ∈ long_nodes g).
  { intros p Hp. apply (inv_bool g HI) in Hp as (n & Hn & HP).
    apply (inv_long g HI). exists n. split; [exact Hn|].
    apply has_type_true in HP. unfold accepts_integer. rewrite HP.
    reflexivity. }
  assert (Hd : forall p, p ∈ double_nodes g -> p ∈ long_nodes g).
  { intros p Hp. apply (inv_double g HI) in Hp as (n & Hn & HP).
    apply (inv_long g HI). exists n. split; [exact Hn|].
    apply has_type_true in HP. unfold accepts_integer. rewrite HP.
    reflexivity. }
  split; [exact Hb|]. split; [exact Hd|].
  destruct (printSourceImpl_Ok hash g HI Hcl) as [src Hsrc].
  exists src. split; [exact Hsrc|].
  destruct (printSourceImpl_inv hash g src Hsrc) as (_ & Hint & _ & _).
  intros i n Hn Hty.
  assert (Hacc : accepts_integer n = true).
  { unfold accepts_integer. destruct Hty as [-> | ->]; reflexivity. }
  assert (Hin : i ∈ long_nodes g).
  { apply (inv_long g HI). exists n. split; assumption. }
  split; [exact Hin|].
  pose proof (accepts_integer_not_root g i n HI Hn Hacc) as Hi.
  destruct (printPodStateImpl_Ok g i n HI Hn Hi)
    as (c & cpp & verb & cast & tail & Hc & Hlab & Hbody & Htail).
  exists c, cpp, verb, cast.
  assert (Hdisp : dispatch (parse_integer src) (state n) = Some c).
  { eapply dispatch_by_state; [exact HI|exact Hint| |exact Hin|exact Hn|exact Hc].
    apply printPodStateImpl_label. }
  split; [exact Hdisp|]. split; [exact Hc|].
  intros v st top rest Hloc Hst.
  cbn [callback]. unfold run_switch. rewrite Hloc, Hdisp, Hbody.
  cbn [exec_body exec]. unfold back. rewrite Hst. cbn [mbind Run_bind].
  destruct Htail as [-> | [s ->]]; cbn [exec_body exec mbind Run_bind];
    eexists; split; reflexivity.
Qed.

Lemma bool_and_double_accept_integers_witness :
  build 5 demo_load "demo.proto" "Flags" = Ok demo_Flags /\
  bool_nodes demo_Flags = [1%nat] /\ double_nodes demo_Flags = [2%nat] /\
  long_nodes demo_Flags = [1%nat; 2%nat; 3%nat] /\
  (forall p, p ∈ bool_nodes demo_Flags -> p ∈ long_nodes demo_Flags) /\
  (forall p, p ∈ double_nodes demo_Flags -> p ∈ long_nodes demo_Flags).
Proof.
  assert (B : build 5 demo_load "demo.proto" "Flags" = Ok demo_Flags)
    by (vm_compute; reflexivity).
  split; [exact B|]. repeat (split; [reflexivity|]).
  destruct (bool_and_double_accept_integers demo_hash 5 demo_load
              "demo.proto" "Flags" demo_Flags B) as (H1 & H2 & _).
  split; assumption.
Defined.

(** An integer at the bool [on], at the double [w] and at the enum [k]. *)
Example integers_for_bool_double_enum :
  (src ← printSourceImpl demo_hash demo_Flags;
   Ok (deliver demo_hash src
         [ev_start_map; ev_map_key "on"; ev_integer 1;
          ev_map_key "w"; ev_integer 2; ev_map_key "k"; ev_integer 1]
         parser_init)) =
  Ok (Continue
        (mkState true 1 [Req]
           [store Req "::Flags" "set" "on" None (ev_integer 1);
            store Req "::Flags" "set" "w" None (ev_integer 2);
            store Req "::Flags" "set" "k" (Some "::Flags::K")
              (ev_integer 1)])).
Proof. vm_compute. reflexivity. Qed.

(** ** [null] inside an optional message *)

(** C9. For an optional field whose type is a message, the node at the
    key and the node inside the braces carry the same field and are both
    in [null_nodes]; the callback for [null] therefore has a case at the
    state of the inside node, which calls the clearer of the field on the
    message on top of the stack and sets the location to the state of the
    node at the key. *)
Theorem null_case_inside_optional_message hash fuel load f0 m g :
  build fuel load f0 m = Ok g ->
  exists src, printSourceImpl hash g = Ok src /\
    forall k kn f,
      nodes g !! k = Some kn -> type kn = Some OUTSIDE_OBJECT ->
      field kn = Some f -> is_optional f = true ->
      exists i n d c,
        children kn = [i] /\ nodes g !! i = Some n /\
        type n = Some INSIDE_OBJECT /\ field n = Some f /\
        desc n = Some d /\
        k ∈ null_nodes g /\ i ∈ null_nodes g /\
        dispatch (parse_null src) (state n) = Some c /\
        body c = [ClearField (get_full_cpp_type_name (d_full_name d))
                    (fd_name f);
                  SetLocation (state kn)] /\
        forall st top rest,
          location st = state n -> msgStack st = top :: rest ->
          callback hash src ev_null st =
          Continue
            (mkState (checkInitialized st) (state kn) (msgStack st)
               (calls st ++
                [clear_field top (get_full_cpp_type_name (d_full_name d))
                   (fd_name f)])).
Proof.
  intros H. apply build_Inv in H as [HI Hcl].
  destruct (printSourceImpl_Ok hash g HI Hcl) as [src Hsrc].
  exists src. split; [exact Hsrc|].
  destruct (printSourceImpl_inv hash g src Hsrc) as (Hnull & _ & _ & _).
  intros k kn f Hkn Hty Hf Hopt.
  destruct (only_child g k kn HI Hcl Hkn (or_intror Hty))
    as (n & f2 & Hc & Hn & Hnp & Hnf & _ & Hl).
  unfold link in Hl. rewrite Hty in Hl. destruct Hl as (_ & Hf2 & Hnt & _).
  rewrite Hf in Hf2. injection Hf2 as <-.
  destruct (printNullStateImpl_Ok g (S k) n HI Hn)
    as (p & pn & d & f' & Hp & Hpn & Hd & Hf' & Hcase); [lia|].
  rewrite Hnp in Hp. injection Hp as <-.
  rewrite Hkn in Hpn. injection Hpn as <-.
  rewrite Hnf in Hf'. injection Hf' as <-.
  assert (Hkin : k ∈ null_nodes g).
  { apply (inv_null g HI). exists kn. split; [exact Hkn|].
    unfold has_optional_field. rewrite Hf. exact Hopt. }
  assert (Hnin : S k ∈ null_nodes g).
  { apply (inv_null g HI). exists n. split; [exact Hn|].
    unfold has_optional_field. rewrite Hnf. exact Hopt. }
  assert (Hdisp : dispatch (parse_null src) (state n) = Some
            (mkCase (state n) ("key " +:+ full_name n)
               [ClearField (get_full_cpp_type_name (d_full_name d)) (fd_name f);
                SetLocation (state kn)])).
  { eapply dispatch_by_state;
      [exact HI|exact Hnull| |exact Hnin|exact Hn|exact Hcase].
    apply printNullStateImpl_label. }
  eexists (S k), n, d, _.
  repeat (split; [first [eassumption|reflexivity]|]).
  intros st top rest Hloc Hst.
  cbn [callback]. unfold run_switch. rewrite Hloc, Hdisp.
  cbn [body exec_body exec]. unfold back. rewrite Hst.
  cbn [mbind Run_bind]. unfold call, set_location. cbn.
  rewrite Hst. reflexivity.
Qed.

Lemma null_case_inside_optional_message_witness :
  build 5 demo_load "demo.proto" "Outer" = Ok demo_Outer /\
  null_nodes demo_Outer = [1%nat; 2%nat; 3%nat; 4%nat; 5%nat] /\
  exists src c,
    printSourceImpl demo_hash demo_Outer = Ok src /\
    dispatch (parse_null src) 4 = Some c /\
    body c = [ClearField "::Outer" "p"; SetLocation 3].
Proof.
  assert (B : build 5 demo_load "demo.proto" "Outer" = Ok demo_Outer)
    by (vm_compute; reflexivity).
  split; [exact B|]. split; [reflexivity|].
  destruct (null_case_inside_optional_message demo_hash 5 demo_load
              "demo.proto" "Outer" demo_Outer B) as (src & Hsrc & Hcases).
  destruct (nodes demo_Outer !! 2%nat) as [kn|] eqn:Hkn; [|discriminate].
  destruct (Hcases 2%nat kn (msgfield "p" LABEL_OPTIONAL "Point") Hkn)
    as (i & n & d & c & Hch & Hn & _ & _ & Hd & _ & _ & Hdisp & Hbody & _).
  { injection Hkn as <-. reflexivity. }
  { injection Hkn as <-. reflexivity. }
  { reflexivity. }
  exists src, c. split; [exact Hsrc|].
  injection Hkn as <-. cbn in Hch. injection Hch as <-.
  vm_compute in Hn. injection Hn as <-. cbn in Hd. injection Hd as <-.
  cbn in Hdisp, Hbody. split; [exact Hdisp|exact Hbody].
Defined.

(** ** The flag [checkInitialized] *)

Section CheckInitialized.
Variable hash : string -> Z.
Variable src : Source.

Lemma exec_keeps_flag ev s st st' :
  exec hash ev s st = Continue st' ->
  checkInitialized st' = checkInitialized st.
Proof.
  destruct s; cbn [exec]; unfold back.
  - intros [= <-]. reflexivity.
  - destruct (msgStack st); [discriminate|]. intros [= <-]. reflexivity.
  - destruct (msgStack st); [|discriminate]. intros [= <-]. reflexivity.
  - intros [= <-]. reflexivity.
  - destruct (msgStack st); [discriminate|]. cbn [mbind Run_bind].
    intros [= <-]. reflexivity.
  - destruct (msgStack st); [discriminate|]. cbn [mbind Run_bind].
    intros [= <-]. reflexivity.
  - destruct (msgStack st); [discriminate|]. cbn [mbind Run_bind].
    intros [= <-]. reflexivity.
  - destruct (msgStack st); [discriminate|]. cbn [mbind Run_bind].
    destruct ev; intros [= <-]; reflexivity.
  - destruct ev; try discriminate.
    destruct (find_key (hash key) keys); [|discriminate].
    intros [= <-]. reflexivity.
Qed.

Lemma exec_body_keeps_flag ev b :
  forall st st', exec_body hash ev b st = Continue st' ->
    checkInitialized st' = checkInitialized st.
Proof.
  induction b as [|s b IH]; intros st st'; cbn [exec_body].
  - intros [= <-]. reflexivity.
  - destruct (exec hash ev s st) as [st1| | |] eqn:H1; try discriminate.
    cbn [mbind Run_bind]. intros H.
    rewrite (IH st1 st' H). eapply exec_keeps_flag; exact H1.
Qed.

Lemma run_switch_keeps_flag cases ev st st' :
  run_switch hash cases ev st = Continue st' ->
  checkInitialized st' = checkInitialized st.
Proof.
  unfold run_switch. destruct (dispatch cases (location st)); [|discriminate].
  apply exec_body_keeps_flag.
Qed.

Lemma callback_keeps_flag ev st st' :
  callback hash src ev st = Continue st' ->
  checkInitialized st' = checkInitialized st.
Proof.
  destruct ev; cbn [callback]; try apply run_switch_keeps_flag.
  unfold check_initialized_guard, back.
  destruct (checkInitialized st) eqn:Hf.
  - destruct (msgStack st); [discriminate|]. cbn [mbind Run_bind].
    intros H. apply run_switch_keeps_flag in H. rewrite H. exact Hf.
  - cbn [mbind Run_bind]. intros H. apply run_switch_keeps_flag in H.
    rewrite H. exact Hf.
Qed.

Lemma deliver_keeps_flag evs :
  forall st st', deliver hash src evs st = Continue st' ->
    checkInitialized st' = checkInitialized st.
Proof.
  induction evs as [|ev evs IH]; intros st st'; cbn [deliver].
  - intros [= <-]. reflexivity.
  - destruct (callback hash src ev st) as [st1| | |] eqn:H1; try discriminate.
    cbn [mbind Run_bind]. intros H.
    rewrite (IH st1 st' H). eapply callback_keeps_flag; exact H1.
Qed.

Lemma api_keeps_flag c st st' :
  api hash src c st = Continue st' ->
  checkInitialized st' = checkInitialized st.
Proof.
  destruct c; cbn [api]; try apply deliver_keeps_flag;
    intros [= <-]; reflexivity.
Qed.

(** The states of a parser made by [..._parser_init]: after calls of the
    API, and between the callbacks of a call. *)
Inductive initialised : parser_state -> Prop :=
| initialised_init : initialised parser_init
| initialised_api c st st' :
    initialised st -> api hash src c st = Continue st' -> initialised st'
| initialised_callback ev st st' :
    initialised st -> callback hash src ev st = Continue st' ->
    initialised st'.

(** C10. [..._parser_init] sets [checkInitialized], and no call of the API
    and no callback clears it: in every state of a parser made by init
    (by [..._parser_easy] too) the flag is set, and the callback of
    [end_map] calls [CheckInitialized] on the message on top of the stack
    before it switches on the location (with an empty stack, which no
    [end_map] of a well-nested input meets, [back()] is undefined). *)
Theorem check_initialized_always_on st :
  initialised st ->
  checkInitialized parser_init = true /\
  checkInitialized st = true /\
  (forall c st', api hash src c st = Continue st' ->
     checkInitialized st' = true) /\
  (forall top rest, msgStack st = top :: rest ->
     callback hash src ev_end_map st =
     run_switch hash (parse_end_map src) ev_end_map
       (call (CheckInitialized top) st)) /\
  (msgStack st = [] ->
     callback hash src ev_end_map st = UndefinedBehaviour) /\
  (forall in_chunk at_end st',
     parser_easy hash src in_chunk at_end = Continue st' ->
     initialised st' /\ checkInitialized st' = true).
Proof.
  intros Hinit.
  assert (Hflag : forall s, initialised s -> checkInitialized s = true).
  { induction 1 as [|c s s' _ IH Hc|ev s s' _ IH Hc].
    - reflexivity.
    - rewrite (api_keeps_flag c s s' Hc). exact IH.
    - rewrite (callback_keeps_flag ev s s' Hc). exact IH. }
  split; [reflexivity|]. split; [exact (Hflag st Hinit)|].
  split.
  { intros c st' Hc. rewrite (api_keeps_flag c st st' Hc).
    exact (Hflag st Hinit). }
  split.
  { intros top rest Hst. cbn [callback].
    unfold check_initialized_guard, back.
    rewrite (Hflag st Hinit), Hst. reflexivity. }
  split.
  { intros Hst. cbn [callback]. unfold check_initialized_guard, back.
    rewrite (Hflag st Hinit), Hst. reflexivity. }
  intros in_chunk at_end st'. unfold parser_easy.
  destruct (api hash src (parser_on_chunk in_chunk) parser_init)
    as [st1| | |] eqn:H1; try discriminate.
  cbn [mbind Run_bind]. intros H2.
  assert (I1 : initialised st1)
    by (eapply initialised_api; [apply initialised_init|exact H1]).
  assert (I2 : initialised st')
    by (eapply initialised_api; [exact I1|exact H2]).
  split; [exact I2|exact (Hflag st' I2)].
Qed.

End CheckInitialized.

Definition demo_RM_source : Source :=
  Eval vm_compute in
    match printSourceImpl demo_hash demo_RM with
    | Ok src => src
    | _ => mkSource [] [] [] [] [] [] [] [] [] []
    end.

Example print_RM : printSourceImpl demo_hash demo_RM = Ok demo_RM_source.
Proof. vm_compute. reflexivity. Qed.

(** Inside the first element of [ps]. *)
Definition demo_state : parser_state :=
  mkState true 4 [Member Req "add_ps"; Req] [accessor Req "::RM" "add" "ps"].

Lemma check_initialized_always_on_witness :
  initialised demo_hash demo_RM_source demo_state /\
  checkInitialized demo_state = true /\
  callback demo_hash demo_RM_source ev_end_map demo_state =
  Continue
    (mkState true 3 [Req]
       [accessor Req "::RM" "add" "ps";
        CheckInitialized (Member Req "add_ps")]).
Proof.
  assert (I : initialised demo_hash demo_RM_source demo_state).
  { apply (initialised_api demo_hash demo_RM_source
             (parser_on_chunk
                [ev_start_map; ev_map_key "ps"; ev_start_array; ev_start_map])
             parser_init demo_state).
    - apply initialised_init.
    - vm_compute. reflexivity. }
  split; [exact I|].
  destruct (check_initialized_always_on demo_hash demo_RM_source demo_state I)
    as (_ & Hflag & _ & Hend & _ & _).
  split; [exact Hflag|].
  rewrite (Hend (Member Req "add_ps") [Req] eq_refl).
  vm_compute. reflexivity.
Defined.

(** ** The hashes of the keys *)

Lemma not_NoDup_map {A B} (f : A -> B) (l : list A) (a b : A) :
  a ∈ l -> b ∈ l -> a <> b -> f a = f b -> ~ NoDup (map f l).
Proof.
  intros Ha Hb Hne Heq Hnd.
  induction l as [|x l IH]; [inversion Ha|].
  cbn [map] in Hnd. apply NoDup_cons in Hnd as [Hx Hnd].
  apply elem_of_cons in Ha as [->|Ha]; apply elem_of_cons in Hb as [->|Hb].
  - congruence.
  - apply Hx. rewrite Heq. apply list_elem_of_fmap. exists b. split;
      [reflexivity|assumption].
  - apply Hx. rewrite <- Heq. apply list_elem_of_fmap. exists a. split;
      [reflexivity|assumption].
  - apply IH; assumption.
Qed.

Lemma printMapKeyStateImpl_label hash g n c :
  printMapKeyStateImpl hash g n = Ok c -> label c = state n.
Proof.
  unfold printMapKeyStateImpl.
  destruct (key_cases hash g (children n)); try discriminate.
  cbn [mbind Res_bind]. intros [= <-]. reflexivity.
Qed.

(** The labels of the inner switch. *)
Definition key_labels (keys : list (Z * string * Z)) : list Z :=
  map (fun k => fst (fst k)) keys.

(** C5, as the code has it.  The printer does not compare the hashes of
    the keys of a message: for every node inside a message it prints one
    case per child, labelled with the hash of the child's name, in the
    order of the children, and it succeeds whatever the hashes are.  When
    two children have names of the same hash, the inner switch has that
    label twice. *)
Theorem key_hashes_are_not_compared hash fuel load f m g :
  build fuel load f m = Ok g ->
  exists src, printSourceImpl hash g = Ok src /\
    forall i n, nodes g !! i = Some n -> type n = Some INSIDE_OBJECT ->
      exists c keys,
        dispatch (parse_map_key src) (state n) = Some c /\
        body c = [KeySwitch (full_name n) keys] /\
        key_labels keys =
        map (fun ch => match nodes g !! ch with
                       | Some cn => hash (name cn)
                       | None => 0
                       end) (children n) /\
        forall a b an bn,
          a ∈ children n -> b ∈ children n -> a <> b ->
          nodes g !! a = Some an -> nodes g !! b = Some bn ->
          hash (name an) = hash (name bn) ->
          ~ NoDup (key_labels keys).
Proof.
  intros H. apply build_Inv in H as [HI Hcl].
  destruct (printSourceImpl_Ok hash g HI Hcl) as [src Hsrc].
  exists src. split; [exact Hsrc|].
  destruct (printSourceImpl_inv hash g src Hsrc) as (_ & _ & Hkey & _).
  intros i n Hn Hty.
  destruct (printMapKeyStateImpl_Ok hash g i n HI Hn) as (ks & Hc & Hmap).
  assert (Hin : i ∈ object_nodes g).
  { apply (inv_object g HI). exists n. split; [exact Hn|].
    apply has_type_intro. exact Hty. }
  eexists _, ks. split.
  { eapply dispatch_by_state;
      [exact HI|exact Hkey| |exact Hin|exact Hn|exact Hc].
    apply printMapKeyStateImpl_label. }
  split; [reflexivity|]. split; [exact Hmap|].
  intros a b an bn Ha Hb Hne Han Hbn Heq.
  unfold key_labels. rewrite Hmap.
  apply (not_NoDup_map _ _ a b Ha Hb Hne). rewrite Han, Hbn. exact Heq.
Qed.

(** A hash under which the keys [x] and [y] of [Point] collide: the
    length of the string. *)
Definition length_hash (s : string) : Z := Z.of_nat (String.length s).

Lemma key_hashes_are_not_compared_witness :
  build 5 demo_load "demo.proto" "Point" = Ok demo_Point /\
  exists src c keys,
    printSourceImpl length_hash demo_Point = Ok src /\
    dispatch (parse_map_key src) 1 = Some c /\
    body c = [KeySwitch "." keys] /\
    ~ NoDup (key_labels keys).
Proof.
  assert (B : build 5 demo_load "demo.proto" "Point" = Ok demo_Point)
    by (vm_compute; reflexivity).
  split; [exact B|].
  destruct (key_hashes_are_not_compared length_hash 5 demo_load "demo.proto"
              "Point" demo_Point B) as (src & Hsrc & Hcases).
  destruct (nodes demo_Point !! 0%nat) as [n|] eqn:Hn; [|discriminate].
  assert (Hty : type n = Some INSIDE_OBJECT)
    by (injection Hn as <-; reflexivity).
  assert (Hch : children n = [1%nat; 2%nat])
    by (injection Hn as <-; reflexivity).
  assert (Hst : state n = 1) by (injection Hn as <-; reflexivity).
  assert (Hfn : full_name n = ".") by (injection Hn as <-; reflexivity).
  destruct (Hcases 0%nat n Hn Hty) as (c & keys & Hd & Hb & _ & Hdup).
  rewrite Hst in Hd. rewrite Hfn in Hb. rewrite Hch in Hdup.
  exists src, c, keys. split; [exact Hsrc|].
  split; [exact Hd|]. split; [exact Hb|].
  destruct (nodes demo_Point !! 1%nat) as [an|] eqn:Han; [|discriminate].
  destruct (nodes demo_Point !! 2%nat) as [bn|] eqn:Hbn; [|discriminate].
  apply (Hdup 1%nat 2%nat an bn).
  - apply elem_of_cons. left. reflexivity.
  - apply elem_of_cons. right. apply elem_of_cons. left. reflexivity.
  - discriminate.
  - exact Han.
  - exact Hbn.
  - injection Han as <-. injection Hbn as <-. reflexivity.
Defined.

(** C5, as the spec words it, fails: for [message Point] and a hash under
    which [x] and [y] collide the printer does not fail, and the inner
    switch of the root has the label 1 twice. *)
Lemma key_hash_collision_counterexample :
  "x" <> "y" /\ length_hash "x" = length_hash "y" /\
  build 5 demo_load "demo.proto" "Point" = Ok demo_Point /\
  exists src,
    printSourceImpl length_hash demo_Point = Ok src /\
    parse_map_key src =
    [mkCase 1 "map ." [KeySwitch "." [(1, "x", 2); (1, "y", 3)]]].
Proof.
  split; [discriminate|]. split; [reflexivity|].
  split; [vm_compute; reflexivity|].
  eexists. split; vm_compute; reflexivity.
Qed.

(** ** Runs of the builder from the root *)

Lemma build_reach fuel load f m g :
  build fuel load f m = Ok g ->
  exists fd md, load f = Built fd /\
    FindMessageTypeByName (message_types fd) m = Some md /\
    reach (root_graph f m fd md) g /\ closed g.
Proof.
  intros H. apply build_Ok in H as (fd & md & Hl & Hm & H).
  destruct (parseMessageDescRec_builds fuel md root (root_graph f m fd md) g
              _ (Inv_root_graph f m fd md) eq_refl eq_refl
              (closed_root_graph f m fd md) H) as [R Hcl].
  exists fd, md. split; [exact Hl|]. split; [exact Hm|]. split; assumption.
Qed.

(** ** The index vectors, in order *)

Definition holds (g : Graph) (P : Node -> bool) (i : ptr) : bool :=
  match nodes g !! i with Some n => P n | None => false end.

(** The pointers of the nodes that satisfy [P], in the order of
    allocation. *)
Definition select (g : Graph) (P : Node -> bool) : list ptr :=
  List.filter (holds g P) (seq 0 (length (nodes g))).

Lemma select_alloc (P : Node -> bool) par ty nm fn tn d f g :
  (forall c n, P (push_child c n) = P n) ->
  select (alloc par ty nm fn tn d f g) P =
  push_if (P (fresh par ty nm fn tn d f g)) (select g P) (length (nodes g)).
Proof.
  intros Hpush. unfold select. rewrite length_nodes_alloc, seq_S.
  rewrite List.filter_app. cbn [List.filter Nat.add].
  assert (Hnew : holds (alloc par ty nm fn tn d f g) P (length (nodes g))
                 = P (fresh par ty nm fn tn d f g)).
  { unfold holds. rewrite lookup_alloc_new by reflexivity. reflexivity. }
  rewrite Hnew.
  assert (Hold : List.filter (holds (alloc par ty nm fn tn d f g) P)
                   (seq 0 (length (nodes g))) =
                 List.filter (holds g P) (seq 0 (length (nodes g)))).
  { apply List.filter_ext_in. intros i Hi. apply in_seq in Hi.
    destruct (lookup_lt_is_Some_2 (nodes g) i) as [n Hn]; [lia|].
    unfold holds. rewrite (lookup_alloc_old _ _ _ _ _ _ _ _ _ _ Hn), Hn.
    destruct (decide (i = par)); [apply Hpush|reflexivity]. }
  rewrite Hold. unfold push_if.
  destruct (P (fresh par ty nm fn tn d f g)); [reflexivity|].
  rewrite app_nil_r. reflexivity.
Qed.

Record Ordered (g : Graph) : Prop := mkOrdered {
  ord_null : null_nodes g = select g has_optional_field;
  ord_bool : bool_nodes g = select g (has_type BOOL);
  ord_long : long_nodes g = select g accepts_integer;
  ord_double : double_nodes g = select g (has_type DOUBLE);
  ord_string : string_nodes g = select g (has_type STRING);
  ord_object : object_nodes g = select g (has_type INSIDE_OBJECT);
  ord_key : key_nodes g = select g (has_type OUTSIDE_OBJECT);
  ord_array : array_nodes g = select g (has_type ARRAY)
}.

Lemma Ordered_root_graph f m fd md : Ordered (root_graph f m fd md).
Proof. constructor; reflexivity. Qed.

Lemma Ordered_alloc g par ty nm fn tn d f :
  Ordered g -> Ordered (alloc par ty nm fn tn d f g).
Proof.
  intros [H1 H2 H3 H4 H5 H6 H7 H8].
  pose proof (lists_alloc par ty nm fn tn d f g) as HL. cbv zeta in HL.
  destruct HL as (_ & Ln & Lb & Ll & Ld & Ls & Lo & Lk & Lr).
  constructor; rewrite select_alloc by reflexivity; congruence.
Qed.

Lemma Ordered_reach g0 g : Ordered g0 -> reach g0 g -> Ordered g.
Proof.
  intros H0. induction 1; [exact H0|]. apply Ordered_alloc. assumption.
Qed.

Lemma build_Ordered fuel load f m g :
  build fuel load f m = Ok g -> Ordered g.
Proof.
  intros H. apply build_reach in H as (fd & md & _ & _ & R & _).
  eapply Ordered_reach; [apply Ordered_root_graph|exact R].
Qed.

Lemma select_spec g P i :
  i ∈ select g P <-> exists n, nodes g !! i = Some n /\ P n = true.
Proof.
  unfold select. rewrite list_elem_of_In, List.filter_In, in_seq. unfold holds.
  split.
  - intros [_ H]. destruct (nodes g !! i) as [n|]; [eauto|discriminate].
  - intros (n & Hn & HP). rewrite Hn. split; [|exact HP].
    apply lookup_lt_Some in Hn. lia.
Qed.

Lemma select_NoDup g P : NoDup (select g P).
Proof.
  unfold select. apply NoDup_ListNoDup, List.NoDup_filter, List.seq_NoDup.
Qed.

Lemma select_sorted g P : StronglySorted lt (select g P).
Proof.
  unfold select. generalize (length (nodes g)) as k. generalize 0%nat as s.
  intros s k. revert s. induction k as [|k IH]; intros s; cbn [seq List.filter].
  - constructor.
  - destruct (holds g P s).
    + constructor; [apply IH|].
      apply Forall_forall. intros x Hx.
      apply list_elem_of_In, List.filter_In in Hx as [Hx _]. apply in_seq in Hx. lia.
    + apply IH.
Qed.

(** ** Children *)

Definition children_NoDup (g : Graph) : Prop :=
  forall i n, nodes g !! i = Some n -> NoDup (children n).

Lemma children_NoDup_alloc g par ty nm fn tn d f :
  Inv g -> children_NoDup g ->
  children_NoDup (alloc par ty nm fn tn d f g).
Proof.
  intros HI Hnd i n' Hn'.
  apply lookup_alloc in Hn' as [(n & Hn & ->)|[_ ->]].
  - destruct (decide (i = par)) as [_|_]; [|exact (Hnd i n Hn)].
    cbn [children push_child set_children]. apply NoDup_app.
    split; [exact (Hnd i n Hn)|]. split; [|apply NoDup_singleton].
    intros c Hc Hc'. apply list_elem_of_singleton in Hc'.
    destruct (inv_children g HI i n c Hn Hc) as [Hb _]. lia.
  - cbn [children fresh]. apply NoDup_nil_2.
Qed.

Lemma children_NoDup_reach g0 g :
  Inv g0 -> children_NoDup g0 -> reach g0 g -> children_NoDup g.
Proof.
  intros HI0 H0 R. induction R as [|g par ty nm fn tn d f R IH Hlt Hctx].
  - exact H0.
  - apply children_NoDup_alloc; [eapply Inv_reach; eassumption|exact IH].
Qed.

Lemma children_NoDup_root_graph f m fd md :
  children_NoDup (root_graph f m fd md).
Proof.
  intros [|i] n H; [|destruct i; discriminate]. injection H as <-.
  apply NoDup_nil_2.
Qed.

(** ** What the builder leaves alone *)

Definition returns_only {A} (Q : A -> Prop) (m : Res A) : Prop :=
  forall a, m = Ok a -> Q a.

Lemma returns_only_bind {A B} (Q1 : A -> Prop) (Q2 : B -> Prop)
    (m : Res A) (k : A -> Res B) :
  returns_only Q1 m -> (forall a, Q1 a -> returns_only Q2 (k a)) ->
  returns_only Q2 (m ≫= k).
Proof.
  intros Hm Hk b. destruct m as [a| | | |]; cbn [mbind Res_bind];
    try discriminate.
  apply Hk, Hm. reflexivity.
Qed.

Lemma returns_only_any {A} (m : Res A) : returns_only (fun _ => True) m.
Proof. intros a _. exact I. Qed.

Lemma returns_only_Ok {A} (Q : A -> Prop) a : Q a -> returns_only Q (Ok a).
Proof. intros H b [= <-]. exact H. Qed.

Lemma pool_register p n g : pool (register p n g) = pool g.
Proof. unfold pool. rewrite fileDesc_register. reflexivity. Qed.

Lemma addChild_pool node g :
  returns_only (fun r => pool (snd r) = pool g) (addChild node g).
Proof.
  intros [c g1]. unfold addChild, next_state.
  destruct g as [a b fd md sc l l1 l2 l3 l4 l5 l6 l7 l8 l9]. gstep.
  destruct (decide (sc < INT_MAX)); [|discriminate].
  cbn [mbind Res_bind]. intros [= _ <-]. reflexivity.
Qed.

Lemma addNodeToTypeLists_pool node g :
  returns_only (fun g1 => pool g1 = pool g) (addNodeToTypeLists node g).
Proof.
  intros g1. unfold addNodeToTypeLists, get.
  destruct (nodes g !! node) as [n|]; [|discriminate].
  cbn [mbind Res_bind deref].
  destruct (assert (negb (state n =? 0)%Z)); try discriminate.
  cbn [mbind Res_bind]. intros [= <-].
  destruct (field n) as [f|]; [destruct (is_optional f)|];
    destruct (type n) as [[]|]; reflexivity.
Qed.

Lemma pool_update p h g : pool (update p h g) = pool g.
Proof. reflexivity. Qed.

Lemma injectObjectNode_pool desc0 f keyNode g :
  returns_only (fun r => pool (snd r) = pool g)
    (injectObjectNode desc0 f keyNode g).
Proof.
  unfold injectObjectNode.
  eapply returns_only_bind; [apply addChild_pool|]. intros [c g1] H1.
  cbn [snd] in H1.
  eapply returns_only_bind; [apply returns_only_any|]. intros k _.
  eapply returns_only_bind; [apply addNodeToTypeLists_pool|]. intros g2 H2.
  apply returns_only_Ok. cbn [snd]. rewrite H2, !pool_update. exact H1.
Qed.

Lemma injectArrayNode_pool desc0 f ty node g :
  returns_only (fun r => pool (snd r) = pool g)
    (injectArrayNode desc0 f ty node g).
Proof.
  unfold injectArrayNode.
  eapply returns_only_bind; [apply addChild_pool|]. intros [c g1] H1.
  cbn [snd] in H1.
  eapply returns_only_bind; [apply returns_only_any|]. intros k _.
  eapply returns_only_bind; [apply returns_only_any|]. intros tn _.
  eapply returns_only_bind; [apply addNodeToTypeLists_pool|]. intros g2 H2.
  apply returns_only_Ok. cbn [snd]. rewrite H2, !pool_update. exact H1.
Qed.

Section PoolKept.
Variable rec : Descriptor -> ptr -> Graph -> Res Graph.
Hypothesis rec_pool : forall m p g,
  returns_only (fun g' => pool g' = pool g) (rec m p g).

Lemma parseField_pool desc0 node f g :
  returns_only (fun g' => pool g' = pool g) (parseField rec desc0 node f g).
Proof.
  unfold parseField.
  eapply returns_only_bind; [apply returns_only_any|]. intros ty _.
  eapply returns_only_bind; [apply addChild_pool|]. intros [c g1] H1.
  cbn [snd] in H1.
  eapply returns_only_bind; [apply returns_only_any|]. intros n _.
  destruct (negb (is_repeated f)).
  - eapply returns_only_bind; [apply returns_only_any|]. intros tn _.
    eapply returns_only_bind; [apply addNodeToTypeLists_pool|]. intros g2 H2.
    rewrite !pool_update, H1 in H2.
    destruct (decide (ty = OUTSIDE_OBJECT)); [|apply returns_only_Ok; exact H2].
    eapply returns_only_bind; [apply injectObjectNode_pool|].
    intros [o g3] H3. cbn [snd] in H3.
    eapply returns_only_bind; [apply returns_only_any|]. intros m _.
    intros g' Hg'. rewrite (rec_pool m o g3 g' Hg'). congruence.
  - eapply returns_only_bind; [apply returns_only_any|]. intros tn _.
    eapply returns_only_bind; [apply addNodeToTypeLists_pool|]. intros g2 H2.
    rewrite !pool_update, H1 in H2.
    eapply returns_only_bind; [apply injectArrayNode_pool|].
    intros [arr g3] H3. cbn [snd] in H3.
    destruct (decide (ty = OUTSIDE_OBJECT));
      [|apply returns_only_Ok; congruence].
    eapply returns_only_bind; [apply injectObjectNode_pool|].
    intros [o g4] H4. cbn [snd] in H4.
    eapply returns_only_bind; [apply returns_only_any|]. intros m _.
    intros g' Hg'. rewrite (rec_pool m o g4 g' Hg'). congruence.
Qed.

Lemma parseFields_pool desc0 node fs :
  forall g, returns_only (fun g' => pool g' = pool g)
              (parseFields rec desc0 node fs g).
Proof.
  induction fs as [|f fs IH]; intros g; cbn [parseFields].
  - apply returns_only_Ok. reflexivity.
  - eapply returns_only_bind; [apply parseField_pool|]. intros g1 H1.
    intros g' Hg'. rewrite (IH g1 g' Hg'). exact H1.
Qed.
End PoolKept.

Lemma parseMessageDescRec_pool fuel :
  forall m p g, returns_only (fun g' => pool g' = pool g)
                  (parseMessageDescRec fuel m p g).
Proof.
  induction fuel as [|fuel IH]; intros m p g; cbn [parseMessageDescRec].
  - intros g'. discriminate.
  - apply parseFields_pool. exact IH.
Qed.

(** ** Schemas that mention themselves *)

Section Recursive.
Variable pool0 : list Descriptor.
(** A family of messages each of which has a field whose message type is
    of the family again. *)
Variable family : Descriptor -> Prop.
Hypothesis family_closed : forall d, family d ->
  exists f m, f ∈ d_fields d /\ fd_type f = TYPE_MESSAGE /\
    message_type pool0 f = Some m /\ family m.

Section Step.
Variable rec : Descriptor -> ptr -> Graph -> Res Graph.
Hypothesis rec_pool : forall m p g,
  returns_only (fun g' => pool g' = pool g) (rec m p g).
Hypothesis rec_never : forall m p g,
  pool g = pool0 -> family m -> returns_only (fun _ => False) (rec m p g).

Lemma parseField_never desc0 node f m g :
  fd_type f = TYPE_MESSAGE -> message_type pool0 f = Some m -> family m ->
  pool g = pool0 ->
  returns_only (fun _ => False) (parseField rec desc0 node f g).
Proof.
  intros Hty Hm Hfam Hpool. unfold parseField. rewrite Hty.
  cbn [getNodeTypeForProtoType mbind Res_bind].
  eapply returns_only_bind; [apply addChild_pool|]. intros [c g1] H1.
  cbn [snd] in H1.
  eapply returns_only_bind; [apply returns_only_any|]. intros n _.
  destruct (negb (is_repeated f)).
  - eapply returns_only_bind; [apply returns_only_any|]. intros tn _.
    eapply returns_only_bind; [apply addNodeToTypeLists_pool|]. intros g2 H2.
    rewrite !pool_update, H1 in H2.
    rewrite decide_True by reflexivity.
    eapply returns_only_bind; [apply injectObjectNode_pool|].
    intros [o g3] H3. cbn [snd] in H3.
    assert (Hp3 : pool g3 = pool0) by congruence.
    rewrite Hp3, Hm. cbn [deref mbind Res_bind].
    apply rec_never; assumption.
  - eapply returns_only_bind; [apply returns_only_any|]. intros tn _.
    eapply returns_only_bind; [apply addNodeToTypeLists_pool|]. intros g2 H2.
    rewrite !pool_update, H1 in H2.
    eapply returns_only_bind; [apply injectArrayNode_pool|].
    intros [arr g3] H3. cbn [snd] in H3.
    rewrite decide_True by reflexivity.
    eapply returns_only_bind; [apply injectObjectNode_pool|].
    intros [o g4] H4. cbn [snd] in H4.
    assert (Hp4 : pool g4 = pool0) by congruence.
    rewrite Hp4, Hm. cbn [deref mbind Res_bind].
    apply rec_never; assumption.
Qed.

Lemma parseFields_never desc0 node fs f m :
  f ∈ fs -> fd_type f = TYPE_MESSAGE -> message_type pool0 f = Some m ->
  family m ->
  forall g, pool g = pool0 ->
    returns_only (fun _ => False) (parseFields rec desc0 node fs g).
Proof.
  intros Hin Hty Hm Hfam.
  induction fs as [|f' fs IH]; intros g Hpool; [inversion Hin|].
  cbn [parseFields]. apply elem_of_cons in Hin as [<-|Hin].
  - eapply returns_only_bind; [eapply parseField_never; eassumption|].
    intros g1 [].
  - eapply returns_only_bind; [apply parseField_pool; exact rec_pool|].
    intros g1 H1. apply IH; [exact Hin|congruence].
Qed.
End Step.

Lemma parseMessageDescRec_never fuel :
  forall d p g, pool g = pool0 -> family d ->
    returns_only (fun _ => False) (parseMessageDescRec fuel d p g).
Proof.
  induction fuel as [|fuel IH]; intros d p g Hpool Hfam;
    cbn [parseMessageDescRec].
  - intros g'. discriminate.
  - destruct (family_closed d Hfam) as (f & m & Hin & Hty & Hm & Hfm).
    eapply parseFields_never; try eassumption.
    apply parseMessageDescRec_pool.
Qed.
End Recursive.

(** * More on the graph builder *)

(** The index vectors of [addNodeToTypeLists].  In a graph the builder
    returned, [all_nodes] lists every node in the order of allocation, and
    each of the other vectors lists, in that order and once each, the nodes
    of its kind: [null_nodes] the nodes of an optional field, [long_nodes]
    the nodes of type [BOOL], [LONG] or [DOUBLE], every other vector the
    nodes of its type. *)
Theorem index_vectors_in_allocation_order fuel load f m g :
  build fuel load f m = Ok g ->
  all_nodes g = seq 0 (length (nodes g)) /\
  null_nodes g = select g has_optional_field /\
  bool_nodes g = select g (has_type BOOL) /\
  long_nodes g = select g accepts_integer /\
  double_nodes g = select g (has_type DOUBLE) /\
  string_nodes g = select g (has_type STRING) /\
  object_nodes g = select g (has_type INSIDE_OBJECT) /\
  key_nodes g = select g (has_type OUTSIDE_OBJECT) /\
  array_nodes g = select g (has_type ARRAY) /\
  (forall P, NoDup (select g P) /\ StronglySorted lt (select g P) /\
     forall i, i ∈ select g P <->
               exists n, nodes g !! i = Some n /\ P n = true).
Proof.
  intros H. pose proof (build_Ordered _ _ _ _ _ H) as [H1 H2 H3 H4 H5 H6 H7 H8].
  apply build_Inv in H as [HI _].
  split; [exact (inv_all g HI)|].
  repeat (split; [assumption|]).
  intros P. split; [apply select_NoDup|]. split; [apply select_sorted|].
  intros i. apply select_spec.
Qed.

Lemma index_vectors_in_allocation_order_witness :
  build 5 demo_load "demo.proto" "Flags" = Ok demo_Flags /\
  all_nodes demo_Flags = [0; 1; 2; 3]%nat /\
  long_nodes demo_Flags = select demo_Flags accepts_integer /\
  select demo_Flags accepts_integer = [1; 2; 3]%nat /\
  object_nodes demo_Flags = [0%nat].
Proof.
  assert (B : build 5 demo_load "demo.proto" "Flags" = Ok demo_Flags)
    by (vm_compute; reflexivity).
  destruct (index_vectors_in_allocation_order 5 demo_load "demo.proto"
              "Flags" demo_Flags B)
    as (Ha & _ & _ & Hl & _ & _ & Ho & _).
  split; [exact B|]. split; [exact Ha|]. split; [exact Hl|].
  split; [reflexivity|]. rewrite Ho. reflexivity.
Defined.

(** The parse graph is a tree.  In a graph the builder returned the root
    has no parent and is the only such node; every other node was
    allocated after its parent; a node is a child of another exactly when
    that one is its parent; and no node is listed twice among the children
    of a node. *)
Theorem parse_graph_is_a_tree fuel load f m g :
  build fuel load f m = Ok g ->
  (exists r, nodes g !! root = Some r /\ parent r = None) /\
  (forall i n, nodes g !! i = Some n -> parent n = None -> i = root) /\
  (forall i n p, nodes g !! i = Some n -> parent n = Some p ->
     (p < i)%nat /\ is_Some (nodes g !! p)) /\
  (forall i n c cn, nodes g !! i = Some n -> nodes g !! c = Some cn ->
     (c ∈ children n <-> parent cn = Some i)) /\
  (forall i n, nodes g !! i = Some n -> NoDup (children n)).
Proof.
  intros H. pose proof H as Hb.
  apply build_reach in H as (fd & md & _ & _ & R & _).
  apply build_Inv in Hb as [HI _].
  split.
  { destruct (inv_root g HI) as (r & Hr & Hp & _). exists r. auto. }
  split.
  { intros i n Hn Hp. apply (Inv_root_only g i n HI Hn). exact Hp. }
  split.
  { intros i n p Hn Hp.
    assert (Hi : i <> 0%nat).
    { intros Hi. apply (Inv_root_only g i n HI Hn) in Hi. congruence. }
    destruct (inv_parent g HI i n Hn Hi) as (p' & pn & _ & Hp' & Hlt & Hpn & _).
    rewrite Hp in Hp'. injection Hp' as <-. split; [exact Hlt|].
    eexists; exact Hpn. }
  split.
  { intros i n c cn Hn Hcn. split.
    - intros Hc. destruct (inv_children g HI i n c Hn Hc) as [_ (cn' & Hcn' & Hp)].
      rewrite Hcn in Hcn'. injection Hcn' as <-. exact Hp.
    - intros Hp.
      assert (Hc0 : c <> 0%nat).
      { intros Hc0. apply (Inv_root_only g c cn HI Hcn) in Hc0. congruence. }
      destruct (inv_parent g HI c cn Hcn Hc0)
        as (p & pn & _ & Hp' & _ & Hpn & Hin & _).
      rewrite Hp in Hp'. injection Hp' as <-.
      rewrite Hn in Hpn. injection Hpn as <-. exact Hin. }
  eapply children_NoDup_reach;
    [apply Inv_root_graph|apply children_NoDup_root_graph|exact R].
Qed.

Lemma parse_graph_is_a_tree_witness :
  build 5 demo_load "demo.proto" "RM" = Ok demo_RM /\
  map parent (nodes demo_RM) =
    [None; Some 0; Some 1; Some 2; Some 3; Some 3]%nat /\
  map children (nodes demo_RM) = [[1]; [2]; [3]; [4; 5]; []; []]%nat /\
  (forall i n, nodes demo_RM !! i = Some n -> NoDup (children n)).
Proof.
  assert (B : build 5 demo_load "demo.proto" "RM" = Ok demo_RM)
    by (vm_compute; reflexivity).
  destruct (parse_graph_is_a_tree 5 demo_load "demo.proto" "RM" demo_RM B)
    as (_ & _ & _ & _ & Hnd).
  split; [exact B|]. split; [reflexivity|]. split; [reflexivity|exact Hnd].
Defined.

(** A schema that mentions itself.  When the root message belongs to a
    family of message types each of which has a field whose message type
    is of the family again, [parseMessageDescRec] never returns: whatever
    depth the model allows, [build] gives no graph (the recursion of the
    source goes on until the stack or the counter of states is used
    up). *)
Theorem recursive_schema_is_never_built (family : Descriptor -> Prop)
    fuel load f m fd md :
  load f = Built fd ->
  FindMessageTypeByName (message_types fd) m = Some md ->
  (forall d, family d ->
     exists fl m', fl ∈ d_fields d /\ fd_type fl = TYPE_MESSAGE /\
       message_type (message_types fd) fl = Some m' /\ family m') ->
  family md ->
  forall g, build fuel load f m <> Ok g.
Proof.
  intros Hl Hm Hclosed Hfam g Hb.
  unfold build, Graph_new in Hb. rewrite Hl, Hm in Hb.
  change (parseMessageDescRec fuel md root (root_graph f m fd md) = Ok g)
    in Hb.
  exact (parseMessageDescRec_never (message_types fd) family Hclosed fuel
           md root (root_graph f m fd md) eq_refl Hfam g Hb).
Qed.

(** [message Tree { repeated Tree kids = 1; }] *)
Definition Tree : Descriptor :=
  mkDescriptor "Tree" "Tree" [msgfield "kids" LABEL_REPEATED "Tree"].
Definition tree_file : FileDescriptor := mkFile "" [Tree].
Definition tree_load (f : string) : Loaded :=
  if String.eqb f "tree.proto" then Built tree_file else CannotOpen.

Lemma recursive_schema_is_never_built_witness :
  (forall g, build 100 tree_load "tree.proto" "Tree" <> Ok g) /\
  build 3 tree_load "tree.proto" "Tree" = OutOfFuel.
Proof.
  split; [|vm_compute; reflexivity].
  apply (recursive_schema_is_never_built (fun d => d = Tree) 100 tree_load
           "tree.proto" "Tree" tree_file Tree eq_refl eq_refl);
    [|reflexivity].
  intros d ->. exists (msgfield "kids" LABEL_REPEATED "Tree"), Tree.
  split; [apply list_elem_of_singleton; reflexivity|].
  split; [reflexivity|]. split; reflexivity.
Defined.

(** * The string helpers *)

(** Whether the character [c] occurs in [s]. *)
Fixpoint has_char (c : ascii) (s : string) : bool :=
  match s with
  | EmptyString => false
  | String a rest => Ascii.eqb a c || has_char c rest
  end.

Lemma app_String x (a b : string) : String x a +:+ b = String x (a +:+ b).
Proof. reflexivity. Qed.

Lemma app_Empty (b : string) : "" +:+ b = b.
Proof. reflexivity. Qed.

Lemma has_char_app c a b :
  has_char c (a +:+ b) = has_char c a || has_char c b.
Proof.
  induction a as [|x a IH]; [reflexivity|].
  rewrite app_String. cbn [has_char]. rewrite IH, orb_assoc. reflexivity.
Qed.

Lemma string_app_assoc (a b c : string) : (a +:+ b) +:+ c = a +:+ (b +:+ c).
Proof.
  induction a as [|x a IH]; [reflexivity|].
  rewrite !app_String, IH. reflexivity.
Qed.

Lemma string_app_nil_r (a : string) : a +:+ "" = a.
Proof.
  induction a as [|x a IH]; [reflexivity|].
  rewrite app_String, IH. reflexivity.
Qed.

(** ** [split] *)

(** What the loop of [split] does with the item read so far when the
    delimiter or the end of the string comes. *)
Definition flush (item : string) : list string :=
  if String.eqb item "" then [] else [item].

Lemma split_from_nil item d : split_from item "" d = flush item.
Proof. reflexivity. Qed.

Lemma split_from_delim item rest d :
  split_from item (String d rest) d = flush item ++ split_from "" rest d.
Proof. cbn [split_from]. rewrite Ascii.eqb_refl. reflexivity. Qed.

Lemma split_from_app item a rest d :
  has_char d a = false ->
  split_from item (a +:+ rest) d = split_from (item +:+ a) rest d.
Proof.
  revert item. induction a as [|c a IH]; intros item Ha.
  - rewrite string_app_nil_r. reflexivity.
  - cbn [has_char] in Ha. apply orb_false_iff in Ha as [Hc Ha].
    rewrite app_String. cbn [split_from]. rewrite Hc.
    rewrite (IH _ Ha), string_app_assoc. reflexivity.
Qed.

Lemma split_from_items s d :
  forall item x, has_char d item = false -> x ∈ split_from item s d ->
    x <> "" /\ has_char d x = false.
Proof.
  assert (Hflush : forall item x, has_char d item = false -> x ∈ flush item ->
            x <> "" /\ has_char d x = false).
  { intros item x Hi Hx. unfold flush in Hx.
    destruct (String.eqb_spec item "") as [->|Hne]; [inversion Hx|].
    apply list_elem_of_singleton in Hx. subst x. split; assumption. }
  induction s as [|c s IH]; intros item x Hi Hx.
  - exact (Hflush item x Hi Hx).
  - cbn [split_from] in Hx. destruct (Ascii.eqb c d) eqn:Hc.
    + apply elem_of_app in Hx as [Hx|Hx]; [exact (Hflush item x Hi Hx)|].
      exact (IH "" x eq_refl Hx).
    + apply (IH (item +:+ String c "") x); [|exact Hx].
      rewrite has_char_app, Hi. cbn [has_char]. rewrite Hc. reflexivity.
Qed.

Lemma split_concat (d : ascii) (parts : list string) :
  Forall (fun p => has_char d p = false) parts ->
  split (String.concat (String d "") parts) d =
  List.filter (fun p => negb (String.eqb p "")) parts.
Proof.
  unfold split. intros H. induction H as [|x parts Hx Hparts IH];
    [reflexivity|].
  assert (Hfl : forall l, flush x ++ l =
                  (if negb (String.eqb x "") then x :: l else l)).
  { intros l. unfold flush. destruct (String.eqb x ""); reflexivity. }
  destruct parts as [|y parts].
  - cbn [String.concat List.filter].
    rewrite <- (string_app_nil_r x) at 1.
    rewrite (split_from_app "" x "" d Hx), app_Empty.
    rewrite split_from_nil, <- (app_nil_r (flush x)). apply Hfl.
  - change (String.concat (String d "") (x :: y :: parts))
      with (x +:+ String d (String.concat (String d "") (y :: parts))).
    rewrite (split_from_app "" x _ d Hx), app_Empty.
    rewrite split_from_delim, IH. cbn [List.filter]. apply Hfl.
Qed.

(** [split]: the items are the pieces between the delimiters, in order,
    the empty ones left out.  No item of [split str delim] is empty or
    holds the delimiter; and for pieces without the delimiter, splitting
    the pieces joined by the delimiter gives back the pieces that are not
    empty (so a delimiter at the head, at the end or doubled adds
    nothing). *)
Theorem split_gives_the_pieces (d : ascii) :
  (forall str x, x ∈ split str d -> x <> "" /\ has_char d x = false) /\
  (forall parts, Forall (fun p => has_char d p = false) parts ->
     split (String.concat (String d "") parts) d =
     List.filter (fun p => negb (String.eqb p "")) parts) /\
  split "" d = [].
Proof.
  split; [|split; [apply split_concat|reflexivity]].
  intros str x Hx. exact (split_from_items str d "" x eq_refl Hx).
Qed.

Lemma split_gives_the_pieces_witness :
  split ".some..ns." "." = ["some"; "ns"] /\
  (forall x, x ∈ split ".some..ns." "." -> x <> "" /\ has_char "." x = false).
Proof.
  destruct (split_gives_the_pieces ".") as (Hitems & Hjoin & _).
  split.
  - apply (Hjoin [""; "some"; ""; "ns"; ""]).
    repeat (constructor; [reflexivity|]). constructor.
  - intros x. apply Hitems.
Defined.

(** ** [replace_all] and [get_full_cpp_type_name] *)

Lemma replace_all_from_char_app c to a b :
  replace_all_from 0 (a +:+ b) (String c "") to =
  replace_all_from 0 a (String c "") to +:+
  replace_all_from 0 b (String c "") to.
Proof.
  induction a as [|x a IH]; [reflexivity|].
  rewrite app_String.
  cbn [replace_all_from is_prefix String.length pred].
  destruct (Ascii.eqb c x).
  - rewrite IH, string_app_assoc. reflexivity.
  - rewrite IH. reflexivity.
Qed.

Lemma replace_all_from_absent c to a :
  has_char c a = false -> replace_all_from 0 a (String c "") to = a.
Proof.
  induction a as [|x a IH]; [reflexivity|].
  cbn [has_char replace_all_from is_prefix]. intros H.
  apply orb_false_iff in H as [Hx Ha].
  rewrite Ascii.eqb_sym, Hx, (IH Ha). reflexivity.
Qed.

Lemma replace_all_concat c to parts :
  Forall (fun p => has_char c p = false) parts ->
  replace_all (String.concat (String c "") parts) (String c "") to =
  String.concat to parts.
Proof.
  unfold replace_all. intros H.
  induction H as [|x parts Hx Hparts IH]; [reflexivity|].
  destruct parts as [|y parts].
  - cbn [String.concat]. apply replace_all_from_absent. exact Hx.
  - change (String.concat (String c "") (x :: y :: parts))
      with (x +:+ (String c "" +:+ String.concat (String c "") (y :: parts))).
    change (String.concat to (x :: y :: parts))
      with (x +:+ (to +:+ String.concat to (y :: parts))).
    rewrite !replace_all_from_char_app, IH, (replace_all_from_absent _ _ _ Hx).
    cbn [replace_all_from is_prefix String.length pred].
    rewrite Ascii.eqb_refl. cbn [replace_all_from].
    rewrite string_app_nil_r. reflexivity.
Qed.

Lemma replace_all_from_no_char c to a :
  has_char c to = false ->
  has_char c (replace_all_from 0 a (String c "") to) = false.
Proof.
  intros Hto. induction a as [|x a IH]; [reflexivity|].
  cbn [replace_all_from is_prefix String.length pred].
  destruct (Ascii.eqb c x) eqn:Hx.
  - rewrite has_char_app, Hto, IH. reflexivity.
  - cbn [has_char]. rewrite Ascii.eqb_sym, Hx, IH. reflexivity.
Qed.

(** [get_full_cpp_type_name]: the name of a C++ type for a protobuf full
    name.  The result holds no dot, whatever the name; and for a name made
    of pieces without dots joined by dots, it is ["::"] followed by the
    pieces joined by ["::"]. *)
Theorem cpp_type_name_of_dotted_name :
  (forall full, has_char "." (get_full_cpp_type_name full) = false) /\
  (forall parts, Forall (fun p => has_char "." p = false) parts ->
     get_full_cpp_type_name (String.concat "." parts) =
     "::" +:+ String.concat "::" parts) /\
  (forall a b, replace_all (a +:+ b) "." "::" =
               replace_all a "." "::" +:+ replace_all b "." "::").
Proof.
  split; [|split].
  - intros full. unfold get_full_cpp_type_name, replace_all.
    rewrite has_char_app, replace_all_from_no_char by reflexivity.
    reflexivity.
  - intros parts H. unfold get_full_cpp_type_name.
    rewrite (replace_all_concat "." "::" parts H). reflexivity.
  - intros a b. apply replace_all_from_char_app.
Qed.

Lemma cpp_type_name_of_dotted_name_witness :
  get_full_cpp_type_name "some.ns.MyMessage" = "::some::ns::MyMessage" /\
  has_char "." (get_full_cpp_type_name "some.ns.MyMessage") = false.
Proof.
  destruct cpp_type_name_of_dotted_name as (Hno & Hjoin & _).
  split.
  - apply (Hjoin ["some"; "ns"; "MyMessage"]).
    repeat (constructor; [reflexivity|]). constructor.
  - apply Hno.
Defined.

(** * The labels of the printed switches *)

Lemma for_nodes_labels g pr l (lab : ptr -> Z) :
  (forall p n c, p ∈ l -> nodes g !! p = Some n -> pr n = Ok c ->
     label c = lab p) ->
  forall cs, for_nodes g pr l = Ok cs -> map label cs = map lab l.
Proof.
  induction l as [|p l IH]; intros Hlab cs Hcs.
  - injection Hcs as <-. reflexivity.
  - apply for_nodes_cons_inv in Hcs as (n & c & cs' & Hn & Hc & Hcs' & ->).
    cbn [map]. f_equal.
    + apply (Hlab p n c); [apply elem_of_cons; left; reflexivity| |];
        assumption.
    + apply IH; [|exact Hcs'].
      intros q m c' Hq. apply Hlab. apply elem_of_cons. right. exact Hq.
Qed.

Lemma NoDup_map_inj {A B} (f : A -> B) (l : list A) :
  (forall a b, a ∈ l -> b ∈ l -> f a = f b -> a = b) ->
  NoDup l -> NoDup (map f l).
Proof.
  intros Hinj Hnd. induction Hnd as [|a l Ha Hnd IH]; cbn [map].
  - apply NoDup_nil_2.
  - apply NoDup_cons. split.
    + intros Hin. apply list_elem_of_In, in_map_iff in Hin as (b & Hb & Hin).
      apply list_elem_of_In in Hin.
      assert (b = a).
      { apply Hinj; [apply elem_of_cons; right; exact Hin
                    |apply elem_of_cons; left; reflexivity|exact Hb]. }
      subst b. contradiction.
    + apply IH. intros x y Hx Hy. apply Hinj; apply elem_of_cons; right;
        assumption.
Qed.

Lemma printStringStateImpl_label g n c :
  printStringStateImpl g n = Ok c -> label c = state n.
Proof.
  unfold printStringStateImpl.
  destruct (node_cpp_type n); try discriminate. cbn [mbind Res_bind].
  destruct (field n) as [f|]; [|discriminate]. cbn [mbind Res_bind deref].
  destruct (is_repeated f); cbn [negb mbind Res_bind].
  - intros [= <-]. reflexivity.
  - destruct (parent_state g n); try discriminate. cbn [mbind Res_bind].
    intros [= <-]. reflexivity.
Qed.

Lemma printArrayStartStateImpl_label g n c :
  printArrayStartStateImpl g n = Ok c -> label c = state n.
Proof.
  unfold printArrayStartStateImpl.
  destruct (assert _); try discriminate. cbn [mbind Res_bind].
  destruct (deref _) as [ch| | | |]; try discriminate. cbn [mbind Res_bind].
  destruct (get g ch); try discriminate. cbn [mbind Res_bind].
  intros [= <-]. reflexivity.
Qed.

(** The case of [start_map] for a node inside a message carries the state
    of the node at the key, which was allocated just before it; the case
    of the root carries 0. *)
Lemma printMapStartStateImpl_label g i n c :
  Inv g -> nodes g !! i = Some n -> type n = Some INSIDE_OBJECT ->
  printMapStartStateImpl g n = Ok c -> label c = Z.of_nat i.
Proof.
  intros HI Hn Hty. unfold printMapStartStateImpl.
  destruct (decide (i = 0%nat)) as [->|Hi].
  - assert (Hp : parent n = None)
      by (apply (Inv_root_only g 0%nat n HI Hn); reflexivity).
    rewrite Hp. intros [= <-]. reflexivity.
  - destruct (Inv_inside g i n HI Hn Hty Hi)
      as (p & pn & pp & ppn & f & Hp & Hpn & _ & Hip & _).
    rewrite Hp.
    destruct (node_cpp_type n); try discriminate. cbn [mbind Res_bind].
    destruct (field n); [|discriminate]. cbn [mbind Res_bind deref].
    unfold get. rewrite Hpn. cbn [mbind Res_bind deref].
    intros [= <-]. cbn [label]. rewrite (inv_state g HI p pn Hpn). lia.
Qed.

(** The case of [end_array] carries the state of the element node. *)
Lemma printArrayEndStateImpl_label g i n c :
  Inv g -> closed g -> nodes g !! i = Some n -> type n = Some ARRAY ->
  printArrayEndStateImpl g n = Ok c -> label c = Z.of_nat (S i) + 1.
Proof.
  intros HI Hcl Hn Hty.
  destruct (only_child g i n HI Hcl Hn (or_introl Hty))
    as (cn & f & Hc & Hcn & _).
  unfold printArrayEndStateImpl.
  destruct (assert (bool_decide _)); try discriminate. cbn [mbind Res_bind].
  rewrite Hc. cbn [length Nat.eqb assert mbind Res_bind lookup].
  unfold get. cbn. rewrite Hcn. cbn [mbind Res_bind deref].
  destruct (parent_state g n); try discriminate. cbn [mbind Res_bind].
  intros [= <-]. cbn [label]. exact (inv_state g HI (S i) cn Hcn).
Qed.

Lemma printSourceImpl_parts hash g src :
  printSourceImpl hash g = Ok src ->
  for_nodes g (printNullStateImpl g) (null_nodes g) = Ok (parse_null src) /\
  for_nodes g (printPodStateImpl g) (bool_nodes g) = Ok (parse_boolean src) /\
  for_nodes g (printPodStateImpl g) (long_nodes g) = Ok (parse_integer src) /\
  for_nodes g (printPodStateImpl g) (double_nodes g)
    = Ok (parse_double src) /\
  for_nodes g (printStringStateImpl g) (string_nodes g)
    = Ok (parse_string src) /\
  for_nodes g (printMapStartStateImpl g) (object_nodes g)
    = Ok (parse_start_map src) /\
  for_nodes g (printMapKeyStateImpl hash g) (object_nodes g)
    = Ok (parse_map_key src) /\
  for_nodes g (printMapEndStateImpl g) (object_nodes g)
    = Ok (parse_end_map src) /\
  for_nodes g (printArrayStartStateImpl g) (array_nodes g)
    = Ok (parse_start_array src) /\
  for_nodes g (printArrayEndStateImpl g) (array_nodes g)
    = Ok (parse_end_array src).
Proof.
  unfold printSourceImpl.
  repeat match goal with
  | |- context [for_nodes g ?pr ?l ≫= _] =>
      destruct (for_nodes g pr l); try discriminate; cbn [mbind Res_bind]
  end.
  intros [= <-]. repeat split.
Qed.

(** The state of the node at a pointer. *)
Definition state_of (i : ptr) : Z := Z.of_nat i + 1.

Record Labels (g : Graph) (src : Source) : Prop := mkLabels {
  lab_null : map label (parse_null src) = map state_of (null_nodes g);
  lab_boolean : map label (parse_boolean src) = map state_of (bool_nodes g);
  lab_integer : map label (parse_integer src) = map state_of (long_nodes g);
  lab_double : map label (parse_double src) = map state_of (double_nodes g);
  lab_string : map label (parse_string src) = map state_of (string_nodes g);
  lab_start_map :
    map label (parse_start_map src) = map Z.of_nat (object_nodes g);
  lab_map_key : map label (parse_map_key src) = map state_of (object_nodes g);
  lab_end_map : map label (parse_end_map src) = map state_of (object_nodes g);
  lab_start_array :
    map label (parse_start_array src) = map state_of (array_nodes g);
  lab_end_array :
    map label (parse_end_array src)
    = map (fun i => state_of (S i)) (array_nodes g)
}.

Lemma printSourceImpl_Labels hash g src :
  Inv g -> closed g -> printSourceImpl hash g = Ok src -> Labels g src.
Proof.
  intros HI Hcl Hsrc.
  destruct (printSourceImpl_parts hash g src Hsrc)
    as (H1 & H2 & H3 & H4 & H5 & H6 & H7 & H8 & H9 & H10).
  assert (Hst : forall pr l,
            (forall n c, pr n = Ok c -> label c = state n) ->
            forall cs, for_nodes g pr l = Ok cs ->
              map label cs = map state_of l).
  { intros pr l Hlab. apply for_nodes_labels.
    intros p n c _ Hn Hc. rewrite (Hlab n c Hc).
    exact (inv_state g HI p n Hn). }
  constructor.
  - apply (Hst _ _ (printNullStateImpl_label g) _ H1).
  - apply (Hst _ _ (printPodStateImpl_label g) _ H2).
  - apply (Hst _ _ (printPodStateImpl_label g) _ H3).
  - apply (Hst _ _ (printPodStateImpl_label g) _ H4).
  - apply (Hst _ _ (printStringStateImpl_label g) _ H5).
  - apply (for_nodes_labels g _ _ Z.of_nat) in H6; [exact H6|].
    intros p n c Hp Hn Hc.
    apply (inv_object g HI) in Hp as (n' & Hn' & HP).
    rewrite Hn in Hn'. injection Hn' as <-. apply has_type_true in HP.
    exact (printMapStartStateImpl_label g p n c HI Hn HP Hc).
  - apply (Hst _ _ (printMapKeyStateImpl_label hash g) _ H7).
  - apply (Hst _ _ (printMapEndStateImpl_label g) _ H8).
  - apply (Hst _ _ (printArrayStartStateImpl_label g) _ H9).
  - apply (for_nodes_labels g _ _ (fun i => state_of (S i))) in H10;
      [exact H10|].
    intros p n c Hp Hn Hc.
    apply (inv_array g HI) in Hp as (n' & Hn' & HP).
    rewrite Hn in Hn'. injection Hn' as <-. apply has_type_true in HP.
    exact (printArrayEndStateImpl_label g p n c HI Hcl Hn HP Hc).
Qed.

Lemma NoDup_map_state_of (f : ptr -> Z) l :
  (forall a b, f a = f b -> a = b) -> NoDup l -> NoDup (map f l).
Proof. intros Hf. apply NoDup_map_inj. intros a b _ _. apply Hf. Qed.

(** The switches of the printed callbacks.  For a graph the builder
    returned, the cases of each switch carry, in the order of the vector
    the printer loops over, the states of its nodes (node [i] has the state
    [i + 1]); the cases of [start_map] carry the state of the parent, 0 for
    the root, and the cases of [end_array] the state of the element.  No
    switch on [state.location] has a label twice. *)
Theorem switch_labels_are_distinct hash fuel load f m g src :
  build fuel load f m = Ok g -> printSourceImpl hash g = Ok src ->
  (forall i n, nodes g !! i = Some n -> state n = state_of i) /\
  Labels g src /\
  NoDup (map label (parse_null src)) /\
  NoDup (map label (parse_boolean src)) /\
  NoDup (map label (parse_integer src)) /\
  NoDup (map label (parse_double src)) /\
  NoDup (map label (parse_string src)) /\
  NoDup (map label (parse_start_map src)) /\
  NoDup (map label (parse_map_key src)) /\
  NoDup (map label (parse_end_map src)) /\
  NoDup (map label (parse_start_array src)) /\
  NoDup (map label (parse_end_array src)).
Proof.
  intros Hb Hsrc. pose proof (build_Ordered _ _ _ _ _ Hb) as HO.
  apply build_Inv in Hb as [HI Hcl].
  pose proof (printSourceImpl_Labels hash g src HI Hcl Hsrc) as HL.
  split; [exact (inv_state g HI)|]. split; [exact HL|].
  destruct HL as [L1 L2 L3 L4 L5 L6 L7 L8 L9 L10].
  destruct HO as [O1 O2 O3 O4 O5 O6 O7 O8].
  assert (Hs : forall a b, state_of a = state_of b -> a = b)
    by (unfold state_of; intros; lia).
  assert (Hz : forall a b : nat, Z.of_nat a = Z.of_nat b -> a = b)
    by (intros; lia).
  assert (Hs' : forall a b, state_of (S a) = state_of (S b) -> a = b)
    by (unfold state_of; intros; lia).
  rewrite L1, L2, L3, L4, L5, L6, L7, L8, L9, L10.
  rewrite O1, O2, O3, O4, O5, O6, O8.
  repeat split; apply NoDup_map_state_of; try assumption; apply select_NoDup.
Qed.

Lemma switch_labels_are_distinct_witness :
  build 5 demo_load "demo.proto" "RM" = Ok demo_RM /\
  printSourceImpl demo_hash demo_RM = Ok demo_RM_source /\
  map label (parse_start_map demo_RM_source) = [0; 3] /\
  map label (parse_end_array demo_RM_source) = [3] /\
  NoDup (map label (parse_integer demo_RM_source)).
Proof.
  assert (B : build 5 demo_load "demo.proto" "RM" = Ok demo_RM)
    by (vm_compute; reflexivity).
  assert (S : printSourceImpl demo_hash demo_RM = Ok demo_RM_source)
    by (vm_compute; reflexivity).
  destruct (switch_labels_are_distinct demo_hash 5 demo_load "demo.proto"
              "RM" demo_RM demo_RM_source B S)
    as (_ & _ & _ & _ & Hint & _).
  split; [exact B|]. split; [exact S|].
  split; [reflexivity|]. split; [reflexivity|exact Hint].
Defined.

(** * The printed parser at work *)

(** A graph the builder returned, with the source the printer made of
    it. *)
Record Printed (hash : string -> Z) (g : Graph) (src : Source) : Prop :=
  mkPrinted {
    printed_inv : Inv g;
    printed_closed : closed g;
    printed_ordered : Ordered g;
    printed_src : printSourceImpl hash g = Ok src
}.

Lemma build_Printed hash fuel load f m g src :
  build fuel load f m = Ok g -> printSourceImpl hash g = Ok src ->
  Printed hash g src.
Proof.
  intros Hb Hsrc. pose proof (build_Ordered _ _ _ _ _ Hb) as HO.
  apply build_Inv in Hb as [HI Hcl]. constructor; assumption.
Qed.

(** ** Locations without a case *)

Lemma dispatch_miss cs s : s ∉ map label cs -> dispatch cs s = None.
Proof.
  unfold dispatch. induction cs as [|c cs IH]; intros H; [reflexivity|].
  cbn [find map] in *. destruct (Z.eqb_spec (label c) s) as [Heq|Hne].
  - exfalso. apply H. rewrite Heq. apply elem_of_cons. left. reflexivity.
  - apply IH. intros Hin. apply H. apply elem_of_cons. right. exact Hin.
Qed.

Lemma run_switch_miss hash cs ev st :
  location st ∉ map label cs -> run_switch hash cs ev st = Exit 1.
Proof.
  intros H. unfold run_switch. rewrite (dispatch_miss _ _ H). reflexivity.
Qed.

Lemma elem_of_map_inj {A B} (f : A -> B) (l : list A) a :
  (forall x y, f x = f y -> x = y) -> f a ∈ map f l -> a ∈ l.
Proof.
  intros Hf Hin. apply list_elem_of_In, in_map_iff in Hin as (b & Hb & Hin).
  apply Hf in Hb. subst b. apply list_elem_of_In. exact Hin.
Qed.

Lemma state_of_inj a b : state_of a = state_of b -> a = b.
Proof. unfold state_of. lia. Qed.

(** No case at the state of a node that is not in the vector. *)
Lemma no_case_at_state g P cs i n :
  Inv g -> map label cs = map state_of (select g P) ->
  nodes g !! i = Some n -> P n = false ->
  state n ∉ map label cs.
Proof.
  intros HI Hlab Hn HP Hin. rewrite Hlab, (inv_state g HI i n Hn) in Hin.
  apply (elem_of_map_inj state_of _ i state_of_inj) in Hin.
  apply select_spec in Hin as (n' & Hn' & HP').
  rewrite Hn in Hn'. injection Hn' as <-. congruence.
Qed.

Lemma has_type_false t n : type n <> Some t -> has_type t n = false.
Proof. unfold has_type. intros H. apply bool_decide_eq_false. exact H. Qed.

Section WrongKind.
Variable hash : string -> Z.
Variables (g : Graph) (src : Source).
Hypothesis HP : Printed hash g src.

Lemma start_map_needs_key i n :
  nodes g !! i = Some n -> type n <> Some OUTSIDE_OBJECT ->
  state n ∉ map label (parse_start_map src).
Proof.
  destruct HP as [HI Hcl HO Hsrc]. intros Hn Hty Hin.
  destruct (printSourceImpl_Labels hash g src HI Hcl Hsrc)
    as [_ _ _ _ _ L _ _ _ _].
  rewrite L, (inv_state g HI i n Hn) in Hin.
  apply list_elem_of_In, in_map_iff in Hin as (j & Hj & Hin).
  apply list_elem_of_In in Hin. unfold state_of in Hj.
  assert (j = S i) by lia. subst j.
  apply (inv_object g HI) in Hin as (cn & Hcn & Hc).
  apply has_type_true in Hc.
  destruct (Inv_inside g (S i) cn HI Hcn Hc)
    as (p & pn & _ & _ & _ & _ & Hpn & Hpt & Hip & _); [lia|].
  injection Hip as <-. rewrite Hn in Hpn. injection Hpn as <-.
  contradiction.
Qed.

Lemma end_array_needs_element i n :
  nodes g !! i = Some n ->
  (forall p pn, parent n = Some p -> nodes g !! p = Some pn ->
     type pn <> Some ARRAY) ->
  state n ∉ map label (parse_end_array src).
Proof.
  destruct HP as [HI Hcl HO Hsrc]. intros Hn Hpar Hin.
  destruct (printSourceImpl_Labels hash g src HI Hcl Hsrc)
    as [_ _ _ _ _ _ _ _ _ L].
  rewrite L, (inv_state g HI i n Hn) in Hin.
  apply list_elem_of_In, in_map_iff in Hin as (a & Ha & Hin).
  apply list_elem_of_In in Hin. apply state_of_inj in Ha. subst i.
  apply (inv_array g HI) in Hin as (an & Han & Hat).
  apply has_type_true in Hat.
  destruct (only_child g a an HI Hcl Han (or_introl Hat))
    as (cn & f & _ & Hcn & Hcp & _).
  rewrite Hn in Hcn. injection Hcn as <-.
  exact (Hpar a an Hcp Han Hat).
Qed.

End WrongKind.

(** What the schema does not allow at a location is refused.  With the
    parser at the state of a node of a graph the builder returned: [null]
    where the field is not optional, a boolean where the node is no
    [BOOL], an integer where it is no [BOOL], [LONG] or [DOUBLE], a double
    where it is no [DOUBLE], a string where it is no [STRING], the start
    of an object anywhere but at the key of a message, a key or the end of
    an object anywhere but inside a message, the start of an array
    anywhere but at a repeated field and its end anywhere but at the
    element of an array: the callback takes the default of its switch and
    the process exits with 1. *)
Theorem values_of_the_wrong_kind_exit hash fuel load f m g src i n st :
  build fuel load f m = Ok g -> printSourceImpl hash g = Ok src ->
  nodes g !! i = Some n -> location st = state n ->
  (has_optional_field n = false -> callback hash src ev_null st = Exit 1) /\
  (forall v, type n <> Some BOOL ->
     callback hash src (ev_boolean v) st = Exit 1) /\
  (forall v, accepts_integer n = false ->
     callback hash src (ev_integer v) st = Exit 1) /\
  (forall v, type n <> Some DOUBLE ->
     callback hash src (ev_double v) st = Exit 1) /\
  (forall v, type n <> Some STRING ->
     callback hash src (ev_string v) st = Exit 1) /\
  (type n <> Some OUTSIDE_OBJECT ->
     callback hash src ev_start_map st = Exit 1) /\
  (forall k, type n <> Some INSIDE_OBJECT ->
     callback hash src (ev_map_key k) st = Exit 1) /\
  (type n <> Some INSIDE_OBJECT -> msgStack st <> [] ->
     callback hash src ev_end_map st = Exit 1) /\
  (type n <> Some ARRAY -> callback hash src ev_start_array st = Exit 1) /\
  ((forall p pn, parent n = Some p -> nodes g !! p = Some pn ->
      type pn <> Some ARRAY) ->
   callback hash src ev_end_array st = Exit 1).
Proof.
  intros Hb Hsrc Hn Hloc.
  pose proof (build_Printed hash _ _ _ _ _ _ Hb Hsrc) as HP.
  destruct HP as [HI Hcl HO _].
  destruct (printSourceImpl_Labels hash g src HI Hcl Hsrc)
    as [L1 L2 L3 L4 L5 L6 L7 L8 L9 L10].
  destruct HO as [O1 O2 O3 O4 O5 O6 O7 O8].
  rewrite O1 in L1. rewrite O2 in L2. rewrite O3 in L3. rewrite O4 in L4.
  rewrite O5 in L5. rewrite O6 in L7, L8. rewrite O8 in L9.
  assert (Hmiss : forall P cs ev,
            map label cs = map state_of (select g P) -> P n = false ->
            run_switch hash cs ev st = Exit 1).
  { intros P cs ev Hlab HPn. apply run_switch_miss. rewrite Hloc.
    eapply no_case_at_state; eassumption. }
  split; [intros H; exact (Hmiss _ _ _ L1 H)|].
  split; [intros v H; exact (Hmiss _ _ _ L2 (has_type_false _ _ H))|].
  split; [intros v H; exact (Hmiss _ _ _ L3 H)|].
  split; [intros v H; exact (Hmiss _ _ _ L4 (has_type_false _ _ H))|].
  split; [intros v H; exact (Hmiss _ _ _ L5 (has_type_false _ _ H))|].
  split.
  { intros H. cbn [callback]. apply run_switch_miss. rewrite Hloc.
    eapply start_map_needs_key; [eapply build_Printed|..]; eassumption. }
  split; [intros k H; exact (Hmiss _ _ _ L7 (has_type_false _ _ H))|].
  split.
  { intros H Hst. cbn [callback]. unfold check_initialized_guard, back.
    destruct (msgStack st) as [|top rest] eqn:Hs; [contradiction|].
    destruct (checkInitialized st); cbn [mbind Run_bind];
      apply run_switch_miss; cbn [location call]; rewrite Hloc;
      eapply no_case_at_state; try eassumption;
      apply has_type_false; exact H. }
  split; [intros H; exact (Hmiss _ _ _ L9 (has_type_false _ _ H))|].
  intros H. cbn [callback]. apply run_switch_miss. rewrite Hloc.
  eapply end_array_needs_element; [eapply build_Printed|..]; eassumption.
Qed.

Lemma values_of_the_wrong_kind_exit_witness :
  (* at the element [x] of a [Point] in [RM], a [LONG] node *)
  callback demo_hash demo_RM_source (ev_string "one")
    (mkState true 5 [Member Req "add_ps"; Req] []) = Exit 1 /\
  callback demo_hash demo_RM_source (ev_boolean 1)
    (mkState true 5 [Member Req "add_ps"; Req] []) = Exit 1 /\
  callback demo_hash demo_RM_source ev_start_map
    (mkState true 5 [Member Req "add_ps"; Req] []) = Exit 1.
Proof.
  destruct (nodes demo_RM !! 4%nat) as [n|] eqn:Hn; [|discriminate].
  destruct (values_of_the_wrong_kind_exit demo_hash 5 demo_load "demo.proto"
              "RM" demo_RM demo_RM_source 4%nat n
              (mkState true 5 [Member Req "add_ps"; Req] []))
    as (_ & Hbool & _ & _ & Hstr & Hmap & _).
  - vm_compute. reflexivity.
  - vm_compute. reflexivity.
  - exact Hn.
  - injection Hn as <-. reflexivity.
  - split; [apply Hstr; injection Hn as <-; discriminate|].
    split; [apply Hbool; injection Hn as <-; discriminate|].
    apply Hmap. injection Hn as <-. discriminate.
Defined.

(** ** Locations with a case *)

Lemma dispatch_NoDup cs c :
  NoDup (map label cs) -> c ∈ cs -> dispatch cs (label c) = Some c.
Proof.
  unfold dispatch. induction cs as [|c' cs IH]; intros Hnd Hin;
    [inversion Hin|].
  cbn [map] in Hnd. apply NoDup_cons in Hnd as [Hc' Hnd]. cbn [find].
  apply elem_of_cons in Hin as [->|Hin].
  - rewrite Z.eqb_refl. reflexivity.
  - destruct (Z.eqb_spec (label c') (label c)) as [Heq|Hne].
    + exfalso. apply Hc'. rewrite Heq.
      apply list_elem_of_In, in_map, list_elem_of_In. exact Hin.
    + apply IH; assumption.
Qed.

Lemma for_nodes_elem g pr l cs p n c :
  for_nodes g pr l = Ok cs -> p ∈ l -> nodes g !! p = Some n ->
  pr n = Ok c -> c ∈ cs.
Proof.
  revert cs. induction l as [|q l IH]; intros cs Hcs Hp Hn Hc;
    [inversion Hp|].
  apply for_nodes_cons_inv in Hcs as (m & c' & cs' & Hm & Hc' & Hcs' & ->).
  apply elem_of_cons in Hp as [->|Hp].
  - rewrite Hn in Hm. injection Hm as <-. rewrite Hc in Hc'.
    injection Hc' as <-. apply elem_of_cons. left. reflexivity.
  - apply elem_of_cons. right. eapply IH; eassumption.
Qed.

Lemma dispatch_printed g pr l cs p n c :
  for_nodes g pr l = Ok cs -> NoDup (map label cs) ->
  p ∈ l -> nodes g !! p = Some n -> pr n = Ok c ->
  dispatch cs (label c) = Some c.
Proof.
  intros Hcs Hnd Hp Hn Hc. apply dispatch_NoDup; [exact Hnd|].
  eapply for_nodes_elem; eassumption.
Qed.

(** ** The cases the printer makes *)

(** The cast of an integer to the type of an enum field. *)
Definition enum_cast (f : FieldDescriptor) : option string :=
  match fd_type f with
  | TYPE_ENUM => Some (get_full_cpp_type_name (fd_enum_type f))
  | _ => None
  end.

Definition cpp_type_of (d : Descriptor) : string :=
  get_full_cpp_type_name (d_full_name d).

(** Where the parser goes after a value at a node: for the element of an
    array it stays, otherwise it returns to the parent. *)
Definition after_value (f : FieldDescriptor) (n pn : Node) : Z :=
  if is_repeated f then state n else state pn.

Section Cases.
Variable g : Graph.
Hypothesis HI : Inv g.
Hypothesis Hcl : closed g.

Lemma printPodStateImpl_exact i n :
  nodes g !! i = Some n -> i <> 0%nat ->
  exists p pn d f, parent n = Some p /\ nodes g !! p = Some pn /\
    desc n = Some d /\ field n = Some f /\
    printPodStateImpl g n =
    Ok (mkCase (state n) ("key " +:+ full_name n)
          (StoreValue (cpp_type_of d) (if is_repeated f then "add" else "set")
             (name n) (enum_cast f)
           :: if is_repeated f then [] else [SetLocation (state pn)])).
Proof.
  intros Hn Hi.
  destruct (Inv_parent_state g i n HI Hn Hi)
    as (p & pn & d & f & Hp & Hpn & Hd & Hf & Hnm & Hps & Hcpp).
  exists p, pn, d, f. repeat (split; [assumption|]).
  unfold printPodStateImpl. rewrite Hcpp, Hf, Hps.
  cbn [mbind Res_bind deref].
  destruct (is_repeated f); reflexivity.
Qed.

Lemma printStringStateImpl_exact i n :
  nodes g !! i = Some n -> i <> 0%nat ->
  exists p pn d f, parent n = Some p /\ nodes g !! p = Some pn /\
    desc n = Some d /\ field n = Some f /\
    printStringStateImpl g n =
    Ok (mkCase (state n) ("key " +:+ full_name n)
          (StringTarget (cpp_type_of d)
             (if is_repeated f then "add" else "mutable") (name n)
           :: if is_repeated f then [] else [SetLocation (state pn)])).
Proof.
  intros Hn Hi.
  destruct (Inv_parent_state g i n HI Hn Hi)
    as (p & pn & d & f & Hp & Hpn & Hd & Hf & Hnm & Hps & Hcpp).
  exists p, pn, d, f. repeat (split; [assumption|]).
  unfold printStringStateImpl. rewrite Hcpp, Hf, Hps.
  cbn [mbind Res_bind deref].
  destruct (is_repeated f); reflexivity.
Qed.

Lemma printMapStartStateImpl_root r :
  nodes g !! root = Some r ->
  printMapStartStateImpl g r =
  Ok (mkCase 0 "map ." [SetLocation (state r); AssertStackEmpty; PushReq]).
Proof.
  intros Hr. unfold printMapStartStateImpl.
  assert (Hp : parent r = None)
    by (apply (Inv_root_only g 0%nat r HI Hr); reflexivity).
  rewrite Hp. reflexivity.
Qed.

Lemma printMapStartStateImpl_inner k kn :
  nodes g !! k = Some kn -> type kn = Some OUTSIDE_OBJECT ->
  exists n d f, nodes g !! S k = Some n /\ type n = Some INSIDE_OBJECT /\
    parent n = Some k /\ desc n = Some d /\ field n = Some f /\
    field kn = Some f /\
    printMapStartStateImpl g n =
    Ok (mkCase (state kn) ("map " +:+ full_name n)
          [SetLocation (state n);
           PushSub (cpp_type_of d) (if is_repeated f then "add" else "mutable")
             (name n)]).
Proof.
  intros Hkn Hty.
  destruct (only_child g k kn HI Hcl Hkn (or_intror Hty))
    as (n & f & Hc & Hn & Hnp & Hnf & _ & Hl).
  unfold link in Hl. rewrite Hty in Hl. destruct Hl as (_ & Hkf & Hnt & _).
  destruct (Inv_parent_state g (S k) n HI Hn)
    as (p & pn & d & f' & Hp & Hpn & Hd & Hf & Hnm & Hps & Hcpp); [lia|].
  rewrite Hnf in Hf. injection Hf as <-.
  exists n, d, f. repeat (split; [assumption|]).
  unfold printMapStartStateImpl. rewrite Hnp, Hcpp, Hnf.
  cbn [mbind Res_bind deref]. unfold get. rewrite Hkn. reflexivity.
Qed.

Lemma printArrayStateImpl_exact a an :
  nodes g !! a = Some an -> type an = Some ARRAY ->
  exists en p pn, nodes g !! S a = Some en /\ parent en = Some a /\
    parent an = Some p /\ nodes g !! p = Some pn /\
    printArrayStartStateImpl g an =
    Ok (mkCase (state an) ("key " +:+ full_name an) [SetLocation (state en)])
    /\
    printArrayEndStateImpl g an =
    Ok (mkCase (state en) ("key " +:+ full_name an) [SetLocation (state pn)]).
Proof.
  intros Han Hty.
  destruct (only_child g a an HI Hcl Han (or_introl Hty))
    as (en & f & Hc & Hen & Hep & _).
  assert (Ha0 : a <> 0%nat).
  { eapply Inv_not_root; [exact HI|exact Han|]. right. congruence. }
  destruct (Inv_parent_state g a an HI Han Ha0)
    as (p & pn & d & f' & Hp & Hpn & Hd & Hf & Hnm & Hps & Hcpp).
  exists en, p, pn. repeat (split; [assumption|]).
  unfold printArrayStartStateImpl, printArrayEndStateImpl, get.
  rewrite Hc, Hp, Hps. cbn. rewrite Hen. split; reflexivity.
Qed.

End Cases.

(** ** The keys of a message *)

Section Keys.
Variable hash : string -> Z.
Variable g : Graph.

(** The case of the inner switch for a child. *)
Definition key_of (c : ptr) : Z * string * Z :=
  match nodes g !! c with
  | Some cn => (hash (name cn), name cn, state cn)
  | None => (0, "", 0)
  end.

Lemma key_cases_map cs :
  (forall c, c ∈ cs -> is_Some (nodes g !! c)) ->
  key_cases hash g cs = Ok (map key_of cs).
Proof.
  induction cs as [|c cs IH]; intros H; [reflexivity|].
  destruct (H c) as [cn Hcn]; [apply elem_of_cons; left; reflexivity|].
  cbn [key_cases map]. unfold get. rewrite Hcn. cbn [mbind Res_bind deref].
  rewrite IH by (intros c' Hc'; apply H; apply elem_of_cons; right; exact Hc').
  cbn [mbind Res_bind].
  assert (Hk : key_of c = (hash (name cn), name cn, state cn))
    by (unfold key_of; rewrite Hcn; reflexivity).
  rewrite Hk. reflexivity.
Qed.

Lemma find_key_found cs c cn :
  (forall c', c' ∈ cs -> is_Some (nodes g !! c')) ->
  c ∈ cs -> nodes g !! c = Some cn ->
  (forall c' cn', c' ∈ cs -> nodes g !! c' = Some cn' ->
     hash (name cn') = hash (name cn) -> c' = c) ->
  find_key (hash (name cn)) (map key_of cs) = Some (state cn).
Proof.
  intros Hall Hin Hcn Huniq. unfold find_key.
  induction cs as [|c0 cs IH]; [inversion Hin|].
  destruct (Hall c0) as [cn0 Hcn0]; [apply elem_of_cons; left; reflexivity|].
  assert (Hk : key_of c0 = (hash (name cn0), name cn0, state cn0))
    by (unfold key_of; rewrite Hcn0; reflexivity).
  cbn [map find]. rewrite Hk. cbn [fst snd].
  destruct (Z.eqb_spec (hash (name cn0)) (hash (name cn))) as [Heq|Hne].
  - assert (c0 = c).
    { apply (Huniq c0 cn0); [apply elem_of_cons; left; reflexivity| |];
        assumption. }
    subst c0. rewrite Hcn in Hcn0. injection Hcn0 as <-. reflexivity.
  - apply elem_of_cons in Hin as [->|Hin]; [congruence|].
    apply IH; [| exact Hin |].
    + intros c' Hc'. apply Hall. apply elem_of_cons. right. exact Hc'.
    + intros c' cn' Hc'. apply Huniq. apply elem_of_cons. right. exact Hc'.
Qed.

Lemma find_key_none cs h :
  (forall c', c' ∈ cs -> is_Some (nodes g !! c')) ->
  (forall c' cn', c' ∈ cs -> nodes g !! c' = Some cn' ->
     hash (name cn') <> h) ->
  find_key h (map key_of cs) = None.
Proof.
  intros Hall Hno. unfold find_key.
  induction cs as [|c0 cs IH]; [reflexivity|].
  destruct (Hall c0) as [cn0 Hcn0]; [apply elem_of_cons; left; reflexivity|].
  assert (Hk : key_of c0 = (hash (name cn0), name cn0, state cn0))
    by (unfold key_of; rewrite Hcn0; reflexivity).
  cbn [map find]. rewrite Hk. cbn [fst].
  destruct (Z.eqb_spec (hash (name cn0)) h) as [Heq|Hne].
  - exfalso. apply (Hno c0 cn0); [apply elem_of_cons; left; reflexivity| |];
      assumption.
  - apply IH.
    + intros c' Hc'. apply Hall. apply elem_of_cons. right. exact Hc'.
    + intros c' cn' Hc'. apply Hno. apply elem_of_cons. right. exact Hc'.
Qed.

Lemma printMapKeyStateImpl_exact i n :
  Inv g -> nodes g !! i = Some n ->
  printMapKeyStateImpl hash g n =
  Ok (mkCase (state n) ("map " +:+ full_name n)
        [KeySwitch (full_name n) (map key_of (children n))]).
Proof.
  intros HI Hn. unfold printMapKeyStateImpl. rewrite key_cases_map.
  - reflexivity.
  - intros c Hc. destruct (inv_children g HI i n c Hn Hc) as [_ (cn & Hcn & _)].
    eexists; exact Hcn.
Qed.
End Keys.

(** ** What the callbacks do *)

Lemma Labels_NoDup g src :
  Ordered g -> Labels g src ->
  NoDup (map label (parse_null src)) /\
  NoDup (map label (parse_boolean src)) /\
  NoDup (map label (parse_integer src)) /\
  NoDup (map label (parse_double src)) /\
  NoDup (map label (parse_string src)) /\
  NoDup (map label (parse_start_map src)) /\
  NoDup (map label (parse_map_key src)) /\
  NoDup (map label (parse_end_map src)) /\
  NoDup (map label (parse_start_array src)) /\
  NoDup (map label (parse_end_array src)).
Proof.
  intros [O1 O2 O3 O4 O5 O6 O7 O8] [L1 L2 L3 L4 L5 L6 L7 L8 L9 L10].
  assert (Hs : forall a b, state_of a = state_of b -> a = b)
    by (unfold state_of; intros; lia).
  assert (Hz : forall a b : nat, Z.of_nat a = Z.of_nat b -> a = b)
    by (intros; lia).
  assert (Hs' : forall a b, state_of (S a) = state_of (S b) -> a = b)
    by (unfold state_of; intros; lia).
  rewrite L1, L2, L3, L4, L5, L6, L7, L8, L9, L10.
  rewrite O1, O2, O3, O4, O5, O6, O8.
  repeat split; apply NoDup_map_state_of; try assumption; apply select_NoDup.
Qed.

(** The calls a scalar value makes on the message [top]. *)
Definition scalar_calls (n : Node) (d : Descriptor) (f : FieldDescriptor)
    (top : Msg) (ev : Event) : list Call :=
  match ev with
  | ev_string v =>
      let verb := if is_repeated f then "add" else "mutable" in
      [accessor top (cpp_type_of d) verb (name n);
       assign (Member top (verb +:+ "_" +:+ name n)) v]
  | _ =>
      let verb := if is_repeated f then "add" else "set" in
      [store top (cpp_type_of d) verb (name n) (enum_cast f) ev]
  end.

(** The kind of value a node takes. *)
Definition fits (n : Node) (ev : Event) : bool :=
  match ev with
  | ev_boolean _ => has_type BOOL n
  | ev_integer _ => accepts_integer n
  | ev_double _ => has_type DOUBLE n
  | ev_string _ => has_type STRING n
  | _ => false
  end.

Section Effects.
Variable hash : string -> Z.
Variables (g : Graph) (src : Source).
Hypothesis HP : Printed hash g src.

Lemma fits_not_root i n ev :
  nodes g !! i = Some n -> fits n ev = true -> i <> 0%nat.
Proof.
  destruct HP as [HI _ _ _]. intros Hn Hfit.
  eapply Inv_not_root; [exact HI|exact Hn|]. right. intros Hty.
  unfold fits, has_type, accepts_integer in Hfit. rewrite Hty in Hfit.
  destruct ev; try discriminate; apply bool_decide_eq_true in Hfit;
    discriminate.
Qed.

Lemma scalar_effect i n ev :
  nodes g !! i = Some n -> fits n ev = true ->
  exists p pn d f, parent n = Some p /\ nodes g !! p = Some pn /\
    desc n = Some d /\ field n = Some f /\
    forall st top rest,
      location st = state n -> msgStack st = top :: rest ->
      callback hash src ev st =
      Continue (mkState (checkInitialized st) (after_value f n pn)
                  (msgStack st) (calls st ++ scalar_calls n d f top ev)).
Proof.
  intros Hn Hfit. pose proof (fits_not_root i n ev Hn Hfit) as Hi.
  destruct HP as [HI Hcl HO Hsrc].
  destruct (printSourceImpl_parts hash g src Hsrc)
    as (_ & P2 & P3 & P4 & P5 & _).
  destruct (Labels_NoDup g src HO (printSourceImpl_Labels hash g src HI Hcl Hsrc))
    as (_ & N2 & N3 & N4 & N5 & _).
  destruct (printPodStateImpl_exact g HI i n Hn Hi)
    as (p & pn & d & f & Hp & Hpn & Hd & Hf & Hpod).
  destruct (printStringStateImpl_exact g HI i n Hn Hi)
    as (p' & pn' & d' & f' & Hp' & Hpn' & Hd' & Hf' & Hstr).
  rewrite Hp in Hp'. injection Hp' as <-.
  rewrite Hpn in Hpn'. injection Hpn' as <-.
  rewrite Hd in Hd'. injection Hd' as <-.
  rewrite Hf in Hf'. injection Hf' as <-.
  exists p, pn, d, f. repeat (split; [assumption|]).
  intros st top rest Hloc Hst.
  assert (Hpodrun : forall cs l,
            for_nodes g (printPodStateImpl g) l = Ok cs ->
            NoDup (map label cs) -> i ∈ l ->
            match ev with ev_string _ => False | _ => True end ->
            run_switch hash cs ev st =
            Continue (mkState (checkInitialized st) (after_value f n pn)
                        (msgStack st)
                        (calls st ++ scalar_calls n d f top ev))).
  { intros cs l Hcs Hnd Hin Hev. unfold run_switch. rewrite Hloc.
    pose proof (dispatch_printed g _ l cs i n _ Hcs Hnd Hin Hn Hpod) as Hd0.
    cbn [label] in Hd0. rewrite Hd0. cbn [body exec_body exec].
    unfold back. rewrite Hst. cbn [mbind Run_bind].
    unfold after_value, scalar_calls.
    destruct st as [ci loc stack cl]. cbn in Hloc, Hst. subst loc stack.
    destruct (is_repeated f), ev; try contradiction; reflexivity. }
  destruct ev; try discriminate; cbn [fits] in Hfit; cbn [callback].
  - apply (Hpodrun _ _ P2 N2); [|exact I].
    apply (inv_bool g HI). eauto.
  - apply (Hpodrun _ _ P3 N3); [|exact I].
    apply (inv_long g HI). eauto.
  - apply (Hpodrun _ _ P4 N4); [|exact I].
    apply (inv_double g HI). eauto.
  - unfold run_switch. rewrite Hloc.
    assert (Hin : i ∈ string_nodes g) by (apply (inv_string g HI); eauto).
    pose proof (dispatch_printed g _ _ _ i n _ P5 N5 Hin Hn Hstr) as Hd0.
    cbn [label] in Hd0. rewrite Hd0. cbn [body exec_body exec].
    unfold back. rewrite Hst. cbn [mbind Run_bind].
    unfold after_value, scalar_calls.
    destruct st as [ci loc stack cl]. cbn in Hloc, Hst. subst loc stack.
    destruct (is_repeated f); unfold call, set_location;
      cbn [checkInitialized location msgStack calls];
      rewrite <- app_assoc; reflexivity.
Qed.

End Effects.

(** The call the guard of [end_map] makes. *)
Definition guard_calls (st : parser_state) (top : Msg) : list Call :=
  if checkInitialized st then [CheckInitialized top] else [].

Section Structure.
Variable hash : string -> Z.
Variables (g : Graph) (src : Source).
Hypothesis HP : Printed hash g src.

Lemma null_effect i n :
  nodes g !! i = Some n -> has_optional_field n = true ->
  exists p pn d f, parent n = Some p /\ nodes g !! p = Some pn /\
    desc n = Some d /\ field n = Some f /\
    forall st top rest,
      location st = state n -> msgStack st = top :: rest ->
      callback hash src ev_null st =
      Continue (mkState (checkInitialized st) (state pn) (msgStack st)
                  (calls st ++ [clear_field top (cpp_type_of d) (fd_name f)])).
Proof.
  intros Hn Hopt. destruct HP as [HI Hcl HO Hsrc].
  destruct (printSourceImpl_parts hash g src Hsrc) as (P1 & _).
  destruct (Labels_NoDup g src HO (printSourceImpl_Labels hash g src HI Hcl Hsrc))
    as (N1 & _).
  assert (Hi : i <> 0%nat).
  { eapply Inv_not_root; [exact HI|exact Hn|]. left.
    unfold has_optional_field in Hopt. destruct (field n); [eauto|discriminate]. }
  destruct (printNullStateImpl_Ok g i n HI Hn Hi)
    as (p & pn & d & f & Hp & Hpn & Hd & Hf & Hcase).
  exists p, pn, d, f. repeat (split; [assumption|]).
  intros st top rest Hloc Hst. cbn [callback]. unfold run_switch.
  rewrite Hloc.
  assert (Hin : i ∈ null_nodes g) by (apply (inv_null g HI); eauto).
  pose proof (dispatch_printed g _ _ _ i n _ P1 N1 Hin Hn Hcase) as Hd0.
  cbn [label] in Hd0. rewrite Hd0. cbn [body exec_body exec].
  unfold back. rewrite Hst. cbn [mbind Run_bind].
  destruct st as [ci loc stack cl]. cbn in Hloc, Hst. subst loc stack.
  reflexivity.
Qed.

(** The key of a field is known by its hash. *)
Lemma key_effect o on key st :
  nodes g !! o = Some on -> type on = Some INSIDE_OBJECT ->
  location st = state on ->
  (forall c cn, c ∈ children on -> nodes g !! c = Some cn ->
     hash (name cn) = hash key ->
     (forall c' cn', c' ∈ children on -> nodes g !! c' = Some cn' ->
        hash (name cn') = hash key -> c' = c) ->
     callback hash src (ev_map_key key) st =
     Continue (mkState (checkInitialized st) (state cn) (msgStack st)
                 (calls st))) /\
  ((forall c cn, c ∈ children on -> nodes g !! c = Some cn ->
      hash (name cn) <> hash key) ->
   callback hash src (ev_map_key key) st = Exit 1).
Proof.
  intros Hon Hty Hloc. destruct HP as [HI Hcl HO Hsrc].
  destruct (printSourceImpl_parts hash g src Hsrc)
    as (_ & _ & _ & _ & _ & _ & P7 & _).
  destruct (Labels_NoDup g src HO (printSourceImpl_Labels hash g src HI Hcl Hsrc))
    as (_ & _ & _ & _ & _ & _ & N7 & _).
  assert (Hin : o ∈ object_nodes g).
  { apply (inv_object g HI). exists on. split; [exact Hon|].
    apply has_type_intro. exact Hty. }
  pose proof (dispatch_printed g _ _ _ o on _ P7 N7 Hin Hon
                (printMapKeyStateImpl_exact hash g o on HI Hon)) as Hd0.
  cbn [label] in Hd0.
  assert (Hall : forall c, c ∈ children on -> is_Some (nodes g !! c)).
  { intros c Hc. destruct (inv_children g HI o on c Hon Hc) as [_ (cn & Hcn & _)].
    eexists; exact Hcn. }
  split.
  - intros c cn Hc Hcn Hh Huniq. cbn [callback]. unfold run_switch.
    rewrite Hloc, Hd0. cbn [body exec_body exec]. rewrite <- Hh.
    rewrite (find_key_found hash g (children on) c cn Hall Hc Hcn).
    + destruct st; reflexivity.
    + intros c' cn' Hc' Hcn' Hh'. apply (Huniq c' cn' Hc' Hcn'). congruence.
  - intros Hno. cbn [callback]. unfold run_switch.
    rewrite Hloc, Hd0. cbn [body exec_body exec].
    rewrite (find_key_none hash g (children on) (hash key) Hall Hno).
    reflexivity.
Qed.

Lemma array_effect a an :
  nodes g !! a = Some an -> type an = Some ARRAY ->
  exists en p pn, nodes g !! S a = Some en /\ parent en = Some a /\
    parent an = Some p /\ nodes g !! p = Some pn /\
    (forall st, location st = state an ->
       callback hash src ev_start_array st =
       Continue (mkState (checkInitialized st) (state en) (msgStack st)
                   (calls st))) /\
    (forall st, location st = state en ->
       callback hash src ev_end_array st =
       Continue (mkState (checkInitialized st) (state pn) (msgStack st)
                   (calls st))).
Proof.
  intros Han Hty. destruct HP as [HI Hcl HO Hsrc].
  destruct (printSourceImpl_parts hash g src Hsrc)
    as (_ & _ & _ & _ & _ & _ & _ & _ & P9 & P10).
  destruct (Labels_NoDup g src HO (printSourceImpl_Labels hash g src HI Hcl Hsrc))
    as (_ & _ & _ & _ & _ & _ & _ & _ & N9 & N10).
  destruct (printArrayStateImpl_exact g HI Hcl a an Han Hty)
    as (en & p & pn & Hen & Hep & Hp & Hpn & Hstart & Hend).
  assert (Hin : a ∈ array_nodes g).
  { apply (inv_array g HI). exists an. split; [exact Han|].
    apply has_type_intro. exact Hty. }
  exists en, p, pn. repeat (split; [assumption|]). split.
  - intros st Hloc. cbn [callback]. unfold run_switch. rewrite Hloc.
    pose proof (dispatch_printed g _ _ _ a an _ P9 N9 Hin Han Hstart) as Hd0.
    cbn [label] in Hd0. rewrite Hd0. destruct st; reflexivity.
  - intros st Hloc. cbn [callback]. unfold run_switch. rewrite Hloc.
    pose proof (dispatch_printed g _ _ _ a an _ P10 N10 Hin Han Hend) as Hd0.
    cbn [label] in Hd0. rewrite Hd0. destruct st; reflexivity.
Qed.

Lemma start_map_root_effect st :
  location st = 0 ->
  exists r, nodes g !! root = Some r /\ state r = 1 /\
    callback hash src ev_start_map st =
    match msgStack st with
    | [] => Continue (mkState (checkInitialized st) 1 [Req] (calls st))
    | _ :: _ => AssertFails
    end.
Proof.
  intros Hloc. destruct HP as [HI Hcl HO Hsrc].
  destruct (printSourceImpl_parts hash g src Hsrc)
    as (_ & _ & _ & _ & _ & P6 & _).
  destruct (Labels_NoDup g src HO (printSourceImpl_Labels hash g src HI Hcl Hsrc))
    as (_ & _ & _ & _ & _ & N6 & _).
  destruct (inv_root g HI) as (r & Hr & _ & Hty & _).
  assert (Hs : state r = 1) by (rewrite (inv_state g HI _ _ Hr); reflexivity).
  exists r. split; [exact Hr|]. split; [exact Hs|].
  assert (Hin : root ∈ object_nodes g).
  { apply (inv_object g HI). exists r. split; [exact Hr|].
    apply has_type_intro. exact Hty. }
  pose proof (dispatch_printed g _ _ _ root r _ P6 N6 Hin Hr
                (printMapStartStateImpl_root g HI r Hr)) as Hd0.
  cbn [label] in Hd0. cbn [callback]. unfold run_switch.
  rewrite Hloc, Hd0, Hs. destruct st as [ci loc [|top rest] cl]; reflexivity.
Qed.

Lemma start_map_effect k kn :
  nodes g !! k = Some kn -> type kn = Some OUTSIDE_OBJECT ->
  exists n d f, nodes g !! S k = Some n /\ type n = Some INSIDE_OBJECT /\
    desc n = Some d /\ field kn = Some f /\
    forall st top rest,
      location st = state kn -> msgStack st = top :: rest ->
      let verb := if is_repeated f then "add" else "mutable" in
      callback hash src ev_start_map st =
      Continue (mkState (checkInitialized st) (state n)
                  (Member top (verb +:+ "_" +:+ name n) :: msgStack st)
                  (calls st ++ [accessor top (cpp_type_of d) verb (name n)])).
Proof.
  intros Hkn Hty. destruct HP as [HI Hcl HO Hsrc].
  destruct (printSourceImpl_parts hash g src Hsrc)
    as (_ & _ & _ & _ & _ & P6 & _).
  destruct (Labels_NoDup g src HO (printSourceImpl_Labels hash g src HI Hcl Hsrc))
    as (_ & _ & _ & _ & _ & N6 & _).
  destruct (printMapStartStateImpl_inner g HI Hcl k kn Hkn Hty)
    as (n & d & f & Hn & Hnt & Hnp & Hd & Hnf & Hkf & Hcase).
  exists n, d, f. repeat (split; [assumption|]).
  intros st top rest Hloc Hst verb.
  assert (Hin : S k ∈ object_nodes g).
  { apply (inv_object g HI). exists n. split; [exact Hn|].
    apply has_type_intro. exact Hnt. }
  pose proof (dispatch_printed g _ _ _ (S k) n _ P6 N6 Hin Hn Hcase) as Hd0.
  cbn [label] in Hd0. cbn [callback]. unfold run_switch.
  rewrite Hloc, Hd0. cbn [body exec_body exec mbind Run_bind].
  unfold back. cbn [msgStack set_location]. rewrite Hst.
  cbn [mbind Run_bind].
  destruct st as [ci loc stack cl]. cbn in Hloc, Hst. subst loc stack.
  reflexivity.
Qed.

(** Where the end of a message leads: to the element of an array of
    messages, or to the message the field belongs to. *)
Definition after_message (pn ppn : Node) : Z :=
  if decide (type ppn = Some ARRAY) then state pn else state ppn.

Lemma end_map_effect i n :
  nodes g !! i = Some n -> type n = Some INSIDE_OBJECT ->
  (i = root ->
   forall st top rest,
     location st = state n -> msgStack st = top :: rest ->
     callback hash src ev_end_map st =
     match rest with
     | [] => Continue (mkState (checkInitialized st) 0 []
                         (calls st ++ guard_calls st top))
     | _ :: _ => AssertFails
     end) /\
  (i <> root ->
   exists p pn pp ppn, parent n = Some p /\ nodes g !! p = Some pn /\
     parent pn = Some pp /\ nodes g !! pp = Some ppn /\
     forall st top rest,
       location st = state n -> msgStack st = top :: rest ->
       callback hash src ev_end_map st =
       Continue (mkState (checkInitialized st) (after_message pn ppn) rest
                   (calls st ++ guard_calls st top))).
Proof.
  intros Hn Hty. destruct HP as [HI Hcl HO Hsrc].
  destruct (printSourceImpl_parts hash g src Hsrc)
    as (_ & _ & _ & _ & _ & _ & _ & P8 & _).
  destruct (Labels_NoDup g src HO (printSourceImpl_Labels hash g src HI Hcl Hsrc))
    as (_ & _ & _ & _ & _ & _ & _ & N8 & _).
  assert (Hin : i ∈ object_nodes g).
  { apply (inv_object g HI). exists n. split; [exact Hn|].
    apply has_type_intro. exact Hty. }
  assert (Hrun : forall c st top rest,
            printMapEndStateImpl g n = Ok c ->
            location st = state n -> msgStack st = top :: rest ->
            callback hash src ev_end_map st =
            exec_body hash ev_end_map (body c)
              (mkState (checkInitialized st) (state n) (top :: rest)
                 (calls st ++ guard_calls st top))).
  { intros c st top rest Hc Hloc Hst.
    pose proof (dispatch_printed g _ _ _ i n c P8 N8 Hin Hn Hc) as Hd0.
    rewrite (printMapEndStateImpl_label g n c Hc) in Hd0.
    cbn [callback]. unfold check_initialized_guard, back, guard_calls.
    rewrite Hst.
    destruct st as [ci loc stack cl]. cbn in Hloc, Hst. subst loc stack.
    cbn [checkInitialized calls].
    destruct ci; cbn [mbind Run_bind]; unfold run_switch;
      cbn [location call]; rewrite Hd0; rewrite ?app_nil_r; reflexivity. }
  split.
  - intros -> st top rest Hloc Hst.
    rewrite (Hrun _ st top rest (printMapEndStateImpl_root g n HI Hn) Hloc Hst).
    cbn [body]. rewrite exec_root_case. unfold pop_to. cbn [msgStack].
    destruct rest; reflexivity.
  - intros Hi.
    destruct (printMapEndStateImpl_inner g i n HI Hn Hty Hi)
      as (p & pn & pp & ppn & Hp & Hpn & Hpp & Hppn & Hc).
    exists p, pn, pp, ppn. repeat (split; [assumption|]).
    intros st top rest Hloc Hst.
    rewrite (Hrun _ st top rest Hc Hloc Hst).
    cbn [body]. rewrite exec_inner_case. reflexivity.
Qed.

End Structure.

(** ** Documents that follow the schema *)

Lemma deliver_app hash src evs1 evs2 st :
  deliver hash src (evs1 ++ evs2) st =
  (st1 ← deliver hash src evs1 st; deliver hash src evs2 st1).
Proof.
  revert st. induction evs1 as [|ev evs1 IH]; intros st; [reflexivity|].
  cbn [app deliver].
  destruct (callback hash src ev st); try reflexivity.
  cbn [mbind Run_bind]. apply IH.
Qed.

Section Documents.
Variable hash : string -> Z.
Variables (g : Graph) (src : Source).

(** The events of the value of a field, from the node at the key; of the
    elements of an array, from the element node; and of the members of a
    message, from the node inside its braces.  The members come in any
    order and any number of times. *)
Inductive value : ptr -> list Event -> Prop :=
| value_scalar c n ev :
    nodes g !! c = Some n -> fits n ev = true -> value c [ev]
| value_null c n :
    nodes g !! c = Some n -> has_optional_field n = true ->
    value c [ev_null]
| value_array c n elems :
    nodes g !! c = Some n -> type n = Some ARRAY ->
    elements (S c) elems ->
    value c (ev_start_array :: elems ++ [ev_end_array])
| value_message c n body :
    nodes g !! c = Some n -> type n = Some OUTSIDE_OBJECT ->
    members (S c) body ->
    value c (ev_start_map :: body ++ [ev_end_map])
with elements : ptr -> list Event -> Prop :=
| elements_nil e : elements e []
| elements_scalar e n ev rest :
    nodes g !! e = Some n -> fits n ev = true -> elements e rest ->
    elements e (ev :: rest)
| elements_message e n body rest :
    nodes g !! e = Some n -> type n = Some OUTSIDE_OBJECT ->
    members (S e) body -> elements e rest ->
    elements e (ev_start_map :: body ++ ev_end_map :: rest)
with members : ptr -> list Event -> Prop :=
| members_nil o : members o []
| members_cons o on c cn v rest :
    nodes g !! o = Some on -> c ∈ children on -> nodes g !! c = Some cn ->
    value c v -> members o rest ->
    members o (ev_map_key (name cn) :: v ++ rest).

Scheme value_ind' := Induction for value Sort Prop
  with elements_ind' := Induction for elements Sort Prop
  with members_ind' := Induction for members Sort Prop.
Combined Scheme document_ind from value_ind', elements_ind', members_ind'.

(** A whole document: the braces of the root message around its
    members. *)
Definition document (evs : list Event) : Prop :=
  exists body, members root body /\
    evs = ev_start_map :: body ++ [ev_end_map].

(** No two fields of a message have names of the same hash. *)
Definition distinct_keys : Prop :=
  forall o on a an b bn,
    nodes g !! o = Some on -> a ∈ children on -> b ∈ children on ->
    nodes g !! a = Some an -> nodes g !! b = Some bn ->
    hash (name an) = hash (name bn) -> a = b.

(** The events lead from one location to another and leave the stack as
    it was. *)
Definition leads (evs : list Event) (from to : Z) : Prop :=
  forall st top rest,
    location st = from -> msgStack st = top :: rest ->
    exists st', deliver hash src evs st = Continue st' /\
      location st' = to /\ msgStack st' = top :: rest.

Lemma leads_nil s : leads [] s s.
Proof. intros st top rest Hloc Hst. exists st. auto. Qed.

Lemma leads_app evs1 evs2 a b c :
  leads evs1 a b -> leads evs2 b c -> leads (evs1 ++ evs2) a c.
Proof.
  intros H1 H2 st top rest Hloc Hst.
  destruct (H1 st top rest Hloc Hst) as (st1 & Hd1 & Hl1 & Hs1).
  destruct (H2 st1 top rest Hl1 Hs1) as (st2 & Hd2 & Hl2 & Hs2).
  exists st2. rewrite deliver_app, Hd1. cbn [mbind Run_bind]. auto.
Qed.

Lemma leads_one ev a b :
  (forall st top rest, location st = a -> msgStack st = top :: rest ->
     exists st', callback hash src ev st = Continue st' /\
       location st' = b /\ msgStack st' = top :: rest) ->
  leads [ev] a b.
Proof.
  intros H st top rest Hloc Hst.
  destruct (H st top rest Hloc Hst) as (st' & Hc & Hl & Hs).
  exists st'. cbn [deliver]. rewrite Hc. cbn [mbind Run_bind]. auto.
Qed.

Hypothesis HP : Printed hash g src.
Hypothesis Hkeys : distinct_keys.

(** The braces of a message around events that lead from its inside back
    to its inside. *)
Lemma leads_braces k kn body back_to :
  nodes g !! k = Some kn -> type kn = Some OUTSIDE_OBJECT ->
  (forall n, nodes g !! S k = Some n -> leads body (state n) (state n)) ->
  (forall p pn, parent kn = Some p -> nodes g !! p = Some pn ->
     after_message kn pn = back_to) ->
  leads (ev_start_map :: body ++ [ev_end_map]) (state kn) back_to.
Proof.
  intros Hkn Hty Hbody Hback st top rest Hloc Hst.
  destruct (start_map_effect hash g src HP k kn Hkn Hty)
    as (n & d & f & Hn & Hnt & Hd & Hkf & Hstart).
  destruct (end_map_effect hash g src HP (S k) n Hn Hnt) as [_ Hend].
  destruct Hend as (p & pn & pp & ppn & Hp & Hpn & Hpp & Hppn & Hend);
    [discriminate|].
  assert (p = k).
  { destruct HP as [HI Hcl _ _].
    destruct (only_child g k kn HI Hcl Hkn (or_intror Hty))
      as (cn & f' & _ & Hcn & Hcp & _).
    rewrite Hn in Hcn. injection Hcn as <-. congruence. }
  subst p. rewrite Hkn in Hpn. injection Hpn as <-.
  cbn [deliver]. rewrite (Hstart st top rest Hloc Hst). cbv zeta.
  cbn [mbind Run_bind]. rewrite deliver_app.
  match goal with |- context [deliver hash src body ?s] => set (st1 := s) end.
  destruct (Hbody n Hn st1 (Member top ((if is_repeated f then "add"
              else "mutable") +:+ "_" +:+ name n)) (msgStack st))
    as (st2 & Hd2 & Hl2 & Hs2); [reflexivity|reflexivity|].
  rewrite Hd2. cbn [mbind Run_bind deliver].
  rewrite (Hend st2 _ _ Hl2 Hs2). cbn [mbind Run_bind].
  eexists. split; [reflexivity|]. cbn [location msgStack].
  split; [exact (Hback pp ppn Hpp Hppn)|exact Hst].
Qed.

Lemma document_leads :
  (forall c v, value c v ->
     forall cn o on, nodes g !! c = Some cn -> parent cn = Some o ->
       nodes g !! o = Some on -> type on = Some INSIDE_OBJECT ->
       leads v (state cn) (state on)) /\
  (forall e evs, elements e evs ->
     forall en a an, nodes g !! e = Some en -> parent en = Some a ->
       nodes g !! a = Some an -> type an = Some ARRAY ->
       leads evs (state en) (state en)) /\
  (forall o evs, members o evs ->
     forall on, nodes g !! o = Some on -> type on = Some INSIDE_OBJECT ->
       leads evs (state on) (state on)).
Proof.
  pose proof HP as [HI Hcl HO Hsrc].
  apply document_ind.
  - (* a scalar at a key *)
    intros c n ev Hn Hfit cn o on Hcn Hpar Hon Hot.
    rewrite Hn in Hcn. injection Hcn as <-.
    destruct (scalar_effect hash g src HP c n ev Hn Hfit)
      as (p & pn & d & f & Hp & Hpn & Hd & Hf & Heff).
    rewrite Hpar in Hp. injection Hp as <-.
    rewrite Hon in Hpn. injection Hpn as <-.
    assert (Hrep : is_repeated f = false).
    { pose proof (fits_not_root hash g src HP c n ev Hn Hfit) as Hc0.
      destruct (inv_parent g HI c n Hn Hc0)
        as (p' & pn' & f' & Hp' & _ & Hpn' & _ & Hf' & _ & _ & Hl).
      rewrite Hpar in Hp'. injection Hp' as <-.
      rewrite Hon in Hpn'. injection Hpn' as <-.
      rewrite Hf in Hf'. injection Hf' as <-.
      unfold link in Hl. rewrite Hot in Hl. destruct Hl as (_ & k & _ & Hty).
      destruct (is_repeated f); [|reflexivity].
      unfold fits, has_type, accepts_integer in Hfit. rewrite Hty in Hfit.
      destruct ev; try discriminate; apply bool_decide_eq_true in Hfit;
        discriminate. }
    apply leads_one. intros st top rest Hloc Hst.
    eexists. split; [apply (Heff st top rest Hloc Hst)|].
    cbn [location msgStack]. unfold after_value. rewrite Hrep. auto.
  - (* null *)
    intros c n Hn Hopt cn o on Hcn Hpar Hon Hot.
    rewrite Hn in Hcn. injection Hcn as <-.
    destruct (null_effect hash g src HP c n Hn Hopt)
      as (p & pn & d & f & Hp & Hpn & Hd & Hf & Heff).
    rewrite Hpar in Hp. injection Hp as <-.
    rewrite Hon in Hpn. injection Hpn as <-.
    apply leads_one. intros st top rest Hloc Hst.
    eexists. split; [apply (Heff st top rest Hloc Hst)|]. auto.
  - (* an array *)
    intros c n elems Hn Hty Helems IH cn o on Hcn Hpar Hon Hot.
    rewrite Hn in Hcn. injection Hcn as <-.
    destruct (array_effect hash g src HP c n Hn Hty)
      as (en & p & pn & Hen & Hep & Hp & Hpn & Hstart & Hend).
    rewrite Hpar in Hp. injection Hp as <-.
    rewrite Hon in Hpn. injection Hpn as <-.
    change (ev_start_array :: elems ++ [ev_end_array])
      with ([ev_start_array] ++ elems ++ [ev_end_array]).
    apply (leads_app _ _ _ (state en)).
    { apply leads_one. intros st top rest Hloc Hst.
      eexists. split; [apply (Hstart st Hloc)|]. auto. }
    apply (leads_app _ _ _ (state en)).
    { exact (IH en c n Hen Hep Hn Hty). }
    apply leads_one. intros st top rest Hloc Hst.
    eexists. split; [apply (Hend st Hloc)|]. auto.
  - (* a message *)
    intros c n body Hn Hty Hbody IH cn o on Hcn Hpar Hon Hot.
    rewrite Hn in Hcn. injection Hcn as <-.
    apply (leads_braces c n body (state on) Hn Hty).
    + intros i Hi. apply (IH i Hi).
      destruct (only_child g c n HI Hcl Hn (or_intror Hty))
        as (cn & f' & _ & Hcn & _ & _ & _ & Hl).
      rewrite Hi in Hcn. injection Hcn as <-.
      unfold link in Hl. rewrite Hty in Hl. tauto.
    + intros p pn Hp Hpn. rewrite Hpar in Hp. injection Hp as <-.
      rewrite Hon in Hpn. injection Hpn as <-.
      unfold after_message. rewrite Hot.
      rewrite decide_False by discriminate. reflexivity.
  - (* no element *)
    intros e en a an _ _ _ _. apply leads_nil.
  - (* a scalar element *)
    intros e n ev rest Hn Hfit Hrest IH en a an Hen Hpar Han Hat.
    rewrite Hn in Hen. injection Hen as <-.
    destruct (scalar_effect hash g src HP e n ev Hn Hfit)
      as (p & pn & d & f & Hp & Hpn & Hd & Hf & Heff).
    rewrite Hpar in Hp. injection Hp as <-.
    rewrite Han in Hpn. injection Hpn as <-.
    assert (Hrep : is_repeated f = true).
    { pose proof (fits_not_root hash g src HP e n ev Hn Hfit) as He0.
      destruct (inv_parent g HI e n Hn He0)
        as (p' & pn' & f' & Hp' & _ & Hpn' & _ & Hf' & _ & _ & Hl).
      rewrite Hpar in Hp'. injection Hp' as <-.
      rewrite Han in Hpn'. injection Hpn' as <-.
      rewrite Hf in Hf'. injection Hf' as <-.
      unfold link in Hl. rewrite Hat in Hl. tauto. }
    change (ev :: rest) with ([ev] ++ rest).
    apply (leads_app _ _ _ (state n)).
    { apply leads_one. intros st top rest' Hloc Hst.
      eexists. split; [apply (Heff st top rest' Hloc Hst)|].
      cbn [location msgStack]. unfold after_value. rewrite Hrep. auto. }
    exact (IH n a an Hn Hpar Han Hat).
  - (* a message element *)
    intros e n body rest Hn Hty Hbody IHbody Hrest IH en a an Hen Hpar Han Hat.
    rewrite Hn in Hen. injection Hen as <-.
    replace (ev_start_map :: body ++ ev_end_map :: rest)
      with ((ev_start_map :: body ++ [ev_end_map]) ++ rest)
      by (cbn [app]; rewrite <- app_assoc; reflexivity).
    apply (leads_app _ _ _ (state n)); [|exact (IH n a an Hn Hpar Han Hat)].
    apply (leads_braces e n body (state n) Hn Hty).
    + intros i Hi. apply (IHbody i Hi).
      destruct (only_child g e n HI Hcl Hn (or_intror Hty))
        as (cn & f' & _ & Hcn & _ & _ & _ & Hl).
      rewrite Hi in Hcn. injection Hcn as <-.
      unfold link in Hl. rewrite Hty in Hl. tauto.
    + intros p pn Hp Hpn. rewrite Hpar in Hp. injection Hp as <-.
      rewrite Han in Hpn. injection Hpn as <-.
      unfold after_message. rewrite decide_True by exact Hat. reflexivity.
  - (* no member *)
    intros o on _ _. apply leads_nil.
  - (* a key and its value *)
    intros o on c cn v rest Hon Hc Hcn Hv IHv Hrest IHrest on' Hon' Hot.
    rewrite Hon in Hon'. injection Hon' as <-.
    destruct (inv_children g HI o on c Hon Hc) as [_ (cn' & Hcn' & Hcp)].
    rewrite Hcn in Hcn'. injection Hcn' as <-.
    change (ev_map_key (name cn) :: v ++ rest)
      with ([ev_map_key (name cn)] ++ v ++ rest).
    apply (leads_app _ _ _ (state cn)).
    { apply leads_one. intros st top rest' Hloc Hst.
      destruct (key_effect hash g src HP o on (name cn) st Hon Hot Hloc)
        as [Hkey _].
      eexists. split.
      - apply (Hkey c cn Hc Hcn eq_refl).
        intros c' cn' Hc' Hcn' Hh. exact (Hkeys o on c' cn' c cn Hon Hc' Hc Hcn' Hcn Hh).
      - auto. }
    apply (leads_app _ _ _ (state on)).
    { exact (IHv cn o on Hcn Hcp Hon Hot). }
    exact (IHrest on Hon Hot).
Qed.

(** A document that follows the schema is read to its end. *)
Lemma document_accepted evs :
  document evs ->
  exists st', deliver hash src evs parser_init = Continue st' /\
    location st' = 0 /\ msgStack st' = [] /\
    checkInitialized st' = true.
Proof.
  intros (body & Hbody & ->). pose proof HP as [HI Hcl HO Hsrc].
  destruct (start_map_root_effect hash g src HP parser_init eq_refl)
    as (r & Hr & Hs & Hstart).
  assert (Hrt : type r = Some INSIDE_OBJECT).
  { destruct (inv_root g HI) as (r' & Hr' & _ & Hrt & _).
    unfold root in Hr. congruence. }
  destruct document_leads as (_ & _ & Hmem).
  cbn [deliver]. rewrite Hstart. cbn [msgStack parser_init mbind Run_bind].
  rewrite deliver_app.
  destruct (Hmem root body Hbody r Hr Hrt (mkState true 1 [Req] []) Req [])
    as (st1 & Hd1 & Hl1 & Hs1); [exact (eq_sym Hs)|reflexivity|].
  cbn [checkInitialized calls parser_init]. rewrite Hd1.
  cbn [mbind Run_bind deliver].
  destruct (end_map_effect hash g src HP root r Hr Hrt) as [Hend _].
  rewrite (Hend eq_refl st1 Req [] Hl1 Hs1). cbn [mbind Run_bind].
  eexists. split; [reflexivity|]. cbn [location msgStack checkInitialized].
  repeat split.
  pose proof (deliver_keeps_flag hash src body _ _ Hd1) as Hflag.
  exact Hflag.
Qed.
End Documents.

Lemma zero_not_state l : 0 ∉ map state_of l.
Proof.
  intros Hin. apply list_elem_of_In, in_map_iff in Hin as (i & Hi & _).
  unfold state_of in Hi. lia.
Qed.

Lemma zero_not_state_S l : 0 ∉ map (fun i => state_of (S i)) l.
Proof.
  intros Hin. apply list_elem_of_In, in_map_iff in Hin as (i & Hi & _).
  unfold state_of in Hi. lia.
Qed.

(** At the top the parser takes an object and nothing else.  With the
    parser of a graph the builder returned at location 0 and its stack
    empty, as after init or reset: the start of an object leads to the
    state of the root, 1, with the message to fill on the stack; every
    other event but the end of an object takes the default of its switch,
    and the process exits with 1. *)
Theorem top_level_takes_an_object hash fuel load f m g src st :
  build fuel load f m = Ok g -> printSourceImpl hash g = Ok src ->
  location st = 0 -> msgStack st = [] ->
  location parser_init = 0 /\ msgStack parser_init = [] /\
  location (reset st) = 0 /\ msgStack (reset st) = [] /\
  callback hash src ev_start_map st =
  Continue (mkState (checkInitialized st) 1 [Req] (calls st)) /\
  (forall ev, ev <> ev_start_map -> ev <> ev_end_map ->
     callback hash src ev st = Exit 1).
Proof.
  intros Hb Hsrc Hloc Hst.
  pose proof (build_Printed hash _ _ _ _ _ _ Hb Hsrc) as HP.
  repeat (split; [reflexivity|]). split.
  - destruct (start_map_root_effect hash g src HP st Hloc) as (r & _ & _ & H).
    rewrite H, Hst. reflexivity.
  - destruct HP as [HI Hcl HO _].
    destruct (printSourceImpl_Labels hash g src HI Hcl Hsrc)
      as [L1 L2 L3 L4 L5 L6 L7 L8 L9 L10].
    intros ev Hne1 Hne2.
    destruct ev; try congruence; cbn [callback]; apply run_switch_miss;
      rewrite Hloc;
      first [rewrite L1|rewrite L2|rewrite L3|rewrite L4|rewrite L5
            |rewrite L7|rewrite L9|rewrite L10];
      first [apply zero_not_state|apply zero_not_state_S].
Qed.

Lemma top_level_takes_an_object_witness :
  callback demo_hash demo_RM_source ev_start_map parser_init =
  Continue (mkState true 1 [Req] []) /\
  callback demo_hash demo_RM_source ev_start_array parser_init = Exit 1 /\
  callback demo_hash demo_RM_source (ev_integer 7) parser_init = Exit 1.
Proof.
  destruct (top_level_takes_an_object demo_hash 5 demo_load "demo.proto"
              "RM" demo_RM demo_RM_source parser_init)
    as (_ & _ & _ & _ & Hstart & Hother);
    [vm_compute; reflexivity|vm_compute; reflexivity|reflexivity
    |reflexivity|].
  split; [exact Hstart|].
  split; apply Hother; discriminate.
Defined.

(** A scalar of the right kind is stored.  At the state of a node that
    takes the value (a boolean at a [BOOL], an integer at a [BOOL], [LONG]
    or [DOUBLE], a double at a [DOUBLE], a string at a [STRING]) the
    callback calls the setter of the field on the message on top of the
    stack: [set_] or, for the element of an array, [add_], with the value
    cast for an enum; for a string [mutable_] or [add_], whose result gets
    the bytes.  It leaves the stack alone; from the element of an array the
    parser stays where it is, otherwise it goes back to the state of the
    parent. *)
Theorem scalar_value_is_stored hash fuel load f0 m g src i n ev :
  build fuel load f0 m = Ok g -> printSourceImpl hash g = Ok src ->
  nodes g !! i = Some n -> fits n ev = true ->
  exists p pn d f, parent n = Some p /\ nodes g !! p = Some pn /\
    desc n = Some d /\ field n = Some f /\
    forall st top rest,
      location st = state n -> msgStack st = top :: rest ->
      callback hash src ev st =
      Continue (mkState (checkInitialized st)
                  (if is_repeated f then state n else state pn)
                  (msgStack st) (calls st ++ scalar_calls n d f top ev)).
Proof.
  intros Hb Hsrc Hn Hfit.
  pose proof (build_Printed hash _ _ _ _ _ _ Hb Hsrc) as HP.
  exact (scalar_effect hash g src HP i n ev Hn Hfit).
Qed.

Lemma scalar_value_is_stored_witness :
  callback demo_hash demo_RM_source (ev_integer 7)
    (mkState true 5 [Member Req "add_ps"; Req] []) =
  Continue (mkState true 4 [Member Req "add_ps"; Req]
              [store (Member Req "add_ps") "::Point" "set" "x" None
                 (ev_integer 7)]).
Proof.
  destruct (nodes demo_RM !! 4%nat) as [n|] eqn:Hn; [|discriminate].
  destruct (scalar_value_is_stored demo_hash 5 demo_load "demo.proto" "RM"
              demo_RM demo_RM_source 4%nat n (ev_integer 7))
    as (p & pn & d & f & Hp & Hpn & Hd & Hf & Heff).
  - vm_compute. reflexivity.
  - vm_compute. reflexivity.
  - exact Hn.
  - injection Hn as <-. reflexivity.
  - rewrite (Heff (mkState true 5 [Member Req "add_ps"; Req] [])
               (Member Req "add_ps") [Req]);
      [|injection Hn as <-; reflexivity|reflexivity].
    injection Hn as <-. cbn in Hp, Hd, Hf.
    injection Hp as <-. injection Hd as <-. injection Hf as <-.
    vm_compute in Hpn. injection Hpn as <-. reflexivity.
Defined.

(** A key is known by its hash.  Inside a message, a key whose hash is
    that of the name of one field, and of no other field of the message,
    leads to the state of the node of that field, whatever the key itself
    is; a key whose hash is that of no field takes the default of the
    inner switch, and the process exits with 1.  Stack and message are
    left alone. *)
Theorem key_is_known_by_its_hash hash fuel load f m g src o on key st :
  build fuel load f m = Ok g -> printSourceImpl hash g = Ok src ->
  nodes g !! o = Some on -> type on = Some INSIDE_OBJECT ->
  location st = state on ->
  (forall c cn, c ∈ children on -> nodes g !! c = Some cn ->
     hash (name cn) = hash key ->
     (forall c' cn', c' ∈ children on -> nodes g !! c' = Some cn' ->
        hash (name cn') = hash key -> c' = c) ->
     callback hash src (ev_map_key key) st =
     Continue (mkState (checkInitialized st) (state cn) (msgStack st)
                 (calls st))) /\
  ((forall c cn, c ∈ children on -> nodes g !! c = Some cn ->
      hash (name cn) <> hash key) ->
   callback hash src (ev_map_key key) st = Exit 1).
Proof.
  intros Hb Hsrc Hon Hty Hloc.
  pose proof (build_Printed hash _ _ _ _ _ _ Hb Hsrc) as HP.
  exact (key_effect hash g src HP o on key st Hon Hty Hloc).
Qed.

Definition demo_Point_source : Source :=
  Eval vm_compute in
    match printSourceImpl demo_hash demo_Point with
    | Ok src => src
    | _ => mkSource [] [] [] [] [] [] [] [] [] []
    end.

(** In [Point] the key ["x"] leads to the node of [x], and the key ["zz"]
    of no field is refused. *)
Lemma key_is_known_by_its_hash_witness :
  callback demo_hash demo_Point_source (ev_map_key "x")
    (mkState true 1 [Req] []) = Continue (mkState true 2 [Req] []) /\
  callback demo_hash demo_Point_source (ev_map_key "zz")
    (mkState true 1 [Req] []) = Exit 1.
Proof.
  destruct (nodes demo_Point !! 0%nat) as [on|] eqn:Hon; [|discriminate].
  assert (Hch : forall c cn, c ∈ children on ->
            nodes demo_Point !! c = Some cn ->
            (c = 1%nat /\ name cn = "x") \/ (c = 2%nat /\ name cn = "y")).
  { intros c cn Hc Hcn. injection Hon as <-. cbn [children] in Hc.
    apply elem_of_cons in Hc as [->|Hc].
    - left. vm_compute in Hcn. injection Hcn as <-. auto.
    - apply list_elem_of_singleton in Hc. subst c. right.
      vm_compute in Hcn. injection Hcn as <-. auto. }
  split.
  - destruct (key_is_known_by_its_hash demo_hash 5 demo_load "demo.proto"
                "Point" demo_Point demo_Point_source 0%nat on "x"
                (mkState true 1 [Req] [])) as [Hfound _].
    + vm_compute. reflexivity.
    + vm_compute. reflexivity.
    + exact Hon.
    + injection Hon as <-. reflexivity.
    + injection Hon as <-. reflexivity.
    + destruct (nodes demo_Point !! 1%nat) as [cn|] eqn:Hcn; [|discriminate].
      rewrite (Hfound 1%nat cn).
      * injection Hcn as <-. reflexivity.
      * injection Hon as <-. apply elem_of_cons. left. reflexivity.
      * exact Hcn.
      * injection Hcn as <-. reflexivity.
      * intros c' cn' Hc' Hcn' Hh.
        destruct (Hch c' cn' Hc' Hcn') as [[-> _]|[_ Hy]]; [reflexivity|].
        rewrite Hy in Hh. vm_compute in Hh. discriminate.
  - destruct (key_is_known_by_its_hash demo_hash 5 demo_load "demo.proto"
                "Point" demo_Point demo_Point_source 0%nat on "zz"
                (mkState true 1 [Req] [])) as [_ Hnone].
    + vm_compute. reflexivity.
    + vm_compute. reflexivity.
    + exact Hon.
    + injection Hon as <-. reflexivity.
    + injection Hon as <-. reflexivity.
    + apply Hnone. intros c cn Hc Hcn.
      destruct (Hch c cn Hc Hcn) as [[_ ->]|[_ ->]]; vm_compute; discriminate.
Defined.

Section Arrays.
Variable hash : string -> Z.
Variables (g : Graph) (src : Source).
Hypothesis HP : Printed hash g src.

Lemma element_is_repeated a an e en f :
  nodes g !! a = Some an -> type an = Some ARRAY ->
  nodes g !! e = Some en -> parent en = Some a -> field en = Some f ->
  is_repeated f = true.
Proof.
  destruct HP as [HI _ _ _]. intros Han Hat Hen Hep Hf.
  assert (He0 : e <> 0%nat).
  { intros He0. apply (Inv_root_only g e en HI Hen) in He0. congruence. }
  destruct (inv_parent g HI e en Hen He0)
    as (p' & pn' & f' & Hp' & _ & Hpn' & _ & Hf' & _ & _ & Hl).
  rewrite Hep in Hp'. injection Hp' as <-.
  rewrite Han in Hpn'. injection Hpn' as <-.
  rewrite Hf in Hf'. injection Hf' as <-.
  unfold link in Hl. rewrite Hat in Hl. tauto.
Qed.

Lemma elements_effect a an e en d f vs :
  nodes g !! a = Some an -> type an = Some ARRAY ->
  nodes g !! e = Some en -> parent en = Some a ->
  desc en = Some d -> field en = Some f ->
  Forall (fun ev => fits en ev = true) vs ->
  forall st top rest,
    location st = state en -> msgStack st = top :: rest ->
    deliver hash src vs st =
    Continue (mkState (checkInitialized st) (state en) (msgStack st)
                (calls st ++ flat_map (scalar_calls en d f top) vs)).
Proof.
  intros Han Hat Hen Hep Hd Hf Hvs.
  pose proof (element_is_repeated a an e en f Han Hat Hen Hep Hf) as Hrep.
  induction Hvs as [|ev vs Hev Hvs IH]; intros st top rest Hloc Hst.
  - cbn [deliver flat_map]. rewrite app_nil_r.
    destruct st as [ci loc stack cl]. cbn in Hloc. subst loc. reflexivity.
  - destruct (scalar_effect hash g src HP e en ev Hen Hev)
      as (p & pn & d' & f' & Hp & Hpn & Hd' & Hf' & Heff).
    rewrite Hd in Hd'. injection Hd' as <-.
    rewrite Hf in Hf'. injection Hf' as <-.
    cbn [deliver]. rewrite (Heff st top rest Hloc Hst).
    cbn [mbind Run_bind]. unfold after_value. rewrite Hrep.
    erewrite (IH _ top rest); [|reflexivity|exact Hst].
    cbn [checkInitialized msgStack calls flat_map].
    rewrite <- app_assoc. reflexivity.
Qed.

End Arrays.

(** An array of scalars.  At the state of the node of a repeated field,
    the brackets around values the element node takes lead through the
    state of the element back to the state of the message the field
    belongs to; each value is added to the message on top of the stack
    with [add_], in order, and the stack is left as it was. *)
Theorem array_of_scalars_is_added hash fuel load f0 m g src a an :
  build fuel load f0 m = Ok g -> printSourceImpl hash g = Ok src ->
  nodes g !! a = Some an -> type an = Some ARRAY ->
  exists en d f p pn,
    nodes g !! S a = Some en /\ desc en = Some d /\ field en = Some f /\
    is_repeated f = true /\
    parent an = Some p /\ nodes g !! p = Some pn /\
    forall vs st top rest,
      Forall (fun ev => fits en ev = true) vs ->
      location st = state an -> msgStack st = top :: rest ->
      deliver hash src (ev_start_array :: vs ++ [ev_end_array]) st =
      Continue (mkState (checkInitialized st) (state pn) (msgStack st)
                  (calls st ++ flat_map (scalar_calls en d f top) vs)).
Proof.
  intros Hb Hsrc Han Hat.
  pose proof (build_Printed hash _ _ _ _ _ _ Hb Hsrc) as HP.
  destruct (array_effect hash g src HP a an Han Hat)
    as (en & p & pn & Hen & Hep & Hp & Hpn & Hstart & Hend).
  destruct HP as [HI Hcl HO _].
  destruct (Inv_parent_state g (S a) en HI Hen)
    as (_ & _ & d & f & _ & _ & Hd & Hf & _); [lia|].
  pose proof (build_Printed hash _ _ _ _ _ _ Hb Hsrc) as HP.
  exists en, d, f, p, pn.
  split; [exact Hen|]. split; [exact Hd|]. split; [exact Hf|].
  split; [exact (element_is_repeated hash g src HP a an (S a) en f
                   Han Hat Hen Hep Hf)|].
  split; [exact Hp|]. split; [exact Hpn|].
  intros vs st top rest Hvs Hloc Hst.
  cbn [deliver]. rewrite (Hstart st Hloc). cbn [mbind Run_bind].
  rewrite deliver_app.
  erewrite (elements_effect hash g src HP a an (S a) en d f vs
              Han Hat Hen Hep Hd Hf Hvs _ top rest);
    [|reflexivity|exact Hst].
  cbn [mbind Run_bind deliver]. erewrite Hend; [|reflexivity].
  reflexivity.
Qed.

Definition demo_R_source : Source :=
  Eval vm_compute in
    match printSourceImpl demo_hash demo_R with
    | Ok src => src
    | _ => mkSource [] [] [] [] [] [] [] [] [] []
    end.

Lemma array_of_scalars_is_added_witness :
  deliver demo_hash demo_R_source
    [ev_start_array; ev_integer 1; ev_integer 2; ev_end_array]
    (mkState true 2 [Req] []) =
  Continue (mkState true 1 [Req]
              [store Req "::R" "add" "xs" None (ev_integer 1);
               store Req "::R" "add" "xs" None (ev_integer 2)]).
Proof.
  destruct (nodes demo_R !! 1%nat) as [an|] eqn:Han; [|discriminate].
  destruct (array_of_scalars_is_added demo_hash 5 demo_load "demo.proto" "R"
              demo_R demo_R_source 1%nat an)
    as (en & d & f & p & pn & Hen & Hd & Hf & _ & Hp & Hpn & Heff).
  - vm_compute. reflexivity.
  - vm_compute. reflexivity.
  - exact Han.
  - injection Han as <-. reflexivity.
  - vm_compute in Hen. injection Hen as <-.
    cbn in Hd, Hf. injection Hd as <-. injection Hf as <-.
    injection Han as <-. cbn in Hp. injection Hp as <-.
    vm_compute in Hpn. injection Hpn as <-.
    change [ev_start_array; ev_integer 1; ev_integer 2; ev_end_array]
      with (ev_start_array :: [ev_integer 1; ev_integer 2] ++ [ev_end_array]).
    rewrite (Heff [ev_integer 1; ev_integer 2] (mkState true 2 [Req] [])
               Req []); [reflexivity| |reflexivity|reflexivity].
    repeat (constructor; [reflexivity|]). constructor.
Defined.

(** The braces of a message.  At the state of the node at the key of a
    message field, or of the element of an array of messages, the start of
    an object pushes the sub-message, got from the message on top of the
    stack with [mutable_] or, in an array, [add_]; its end checks that the
    sub-message is initialised, pops it, and leads to the state of the
    element in an array and of the enclosing message otherwise.  After
    both the stack is as it was. *)
Theorem message_braces_push_and_pop hash fuel load f0 m g src k kn :
  build fuel load f0 m = Ok g -> printSourceImpl hash g = Ok src ->
  nodes g !! k = Some kn -> type kn = Some OUTSIDE_OBJECT ->
  exists n d f p pn,
    nodes g !! S k = Some n /\ type n = Some INSIDE_OBJECT /\
    desc n = Some d /\ field kn = Some f /\
    parent kn = Some p /\ nodes g !! p = Some pn /\
    forall st top rest,
      location st = state kn -> msgStack st = top :: rest ->
      let verb := if is_repeated f then "add" else "mutable" in
      let sub := Member top (verb +:+ "_" +:+ name n) in
      callback hash src ev_start_map st =
      Continue (mkState (checkInitialized st) (state n) (sub :: msgStack st)
                  (calls st ++ [accessor top (cpp_type_of d) verb (name n)]))
      /\
      deliver hash src [ev_start_map; ev_end_map] st =
      Continue (mkState (checkInitialized st)
                  (if decide (type pn = Some ARRAY)
                   then state kn else state pn)
                  (msgStack st)
                  (calls st ++
                   accessor top (cpp_type_of d) verb (name n)
                   :: guard_calls st sub)).
Proof.
  intros Hb Hsrc Hkn Hty.
  pose proof (build_Printed hash _ _ _ _ _ _ Hb Hsrc) as HP.
  destruct (start_map_effect hash g src HP k kn Hkn Hty)
    as (n & d & f & Hn & Hnt & Hd & Hkf & Hstart).
  destruct (end_map_effect hash g src HP (S k) n Hn Hnt) as [_ Hend].
  destruct Hend as (p & pn & pp & ppn & Hp & Hpn & Hpp & Hppn & Hend);
    [discriminate|].
  assert (p = k).
  { destruct HP as [HI Hcl _ _].
    destruct (only_child g k kn HI Hcl Hkn (or_intror Hty))
      as (cn & f' & _ & Hcn & Hcp & _).
    rewrite Hn in Hcn. injection Hcn as <-. congruence. }
  subst p. rewrite Hkn in Hpn. injection Hpn as <-.
  exists n, d, f, pp, ppn. repeat (split; [assumption|]).
  intros st top rest Hloc Hst verb sub. split.
  - exact (Hstart st top rest Hloc Hst).
  - cbn [deliver]. rewrite (Hstart st top rest Hloc Hst). cbv zeta.
    cbn [mbind Run_bind].
    erewrite Hend; [|reflexivity|reflexivity].
    cbn [mbind Run_bind checkInitialized calls]. unfold after_message.
    rewrite <- app_assoc. rewrite Hst. reflexivity.
Qed.

Lemma message_braces_push_and_pop_witness :
  deliver demo_hash demo_RM_source [ev_start_map; ev_end_map]
    (mkState true 3 [Req] []) =
  Continue (mkState true 3 [Req]
              [accessor Req "::RM" "add" "ps";
               CheckInitialized (Member Req "add_ps")]).
Proof.
  destruct (nodes demo_RM !! 2%nat) as [kn|] eqn:Hkn; [|discriminate].
  destruct (message_braces_push_and_pop demo_hash 5 demo_load "demo.proto"
              "RM" demo_RM demo_RM_source 2%nat kn)
    as (n & d & f & p & pn & Hn & _ & Hd & Hf & Hp & Hpn & Heff).
  - vm_compute. reflexivity.
  - vm_compute. reflexivity.
  - exact Hkn.
  - injection Hkn as <-. reflexivity.
  - destruct (Heff (mkState true 3 [Req] []) Req []) as [_ Hboth];
      [injection Hkn as <-; reflexivity|reflexivity|].
    rewrite Hboth. vm_compute in Hn. injection Hn as <-.
    cbn in Hd. injection Hd as <-.
    injection Hkn as <-. cbn in Hf, Hp. injection Hf as <-.
    injection Hp as <-. vm_compute in Hpn. injection Hpn as <-.
    reflexivity.
Defined.

(** Documents that follow the schema are read to the end.  For a graph the
    builder returned, with no two fields of a message having names of the
    same hash: every sequence of events made of the braces of the root
    message around members, each a key of a field followed by a value for
    it (a scalar of the kind of the field, [null] for an optional field,
    brackets around elements for a repeated field, braces around members
    for a message), the members in any order, is taken by
    [..._parser_easy] without an exit, however it is cut in chunks, and
    leaves the parser at location 0 with an empty stack. *)
Theorem document_of_the_schema_is_read hash fuel load f m g src evs :
  build fuel load f m = Ok g -> printSourceImpl hash g = Ok src ->
  distinct_keys hash g -> document g evs ->
  forall in_chunk at_end, in_chunk ++ at_end = evs ->
    exists st', parser_easy hash src in_chunk at_end = Continue st' /\
      location st' = 0 /\ msgStack st' = [] /\ checkInitialized st' = true.
Proof.
  intros Hb Hsrc Hkeys Hdoc in_chunk at_end Hcut.
  pose proof (build_Printed hash _ _ _ _ _ _ Hb Hsrc) as HP.
  destruct (document_accepted hash g src HP Hkeys evs Hdoc)
    as (st' & Hd & Hl & Hs & Hflag).
  exists st'. split; [|auto].
  unfold parser_easy. cbn [api]. rewrite <- deliver_app, Hcut. exact Hd.
Qed.

Lemma document_of_the_schema_is_read_witness :
  exists st',
    parser_easy demo_hash demo_R_source
      [ev_start_map; ev_map_key "xs"; ev_start_array; ev_integer 1]
      [ev_integer 2; ev_end_array; ev_end_map] = Continue st' /\
    location st' = 0 /\ msgStack st' = [] /\ checkInitialized st' = true.
Proof.
  apply (document_of_the_schema_is_read demo_hash 5 demo_load "demo.proto"
           "R" demo_R demo_R_source
           [ev_start_map; ev_map_key "xs"; ev_start_array; ev_integer 1;
            ev_integer 2; ev_end_array; ev_end_map]).
  - vm_compute. reflexivity.
  - vm_compute. reflexivity.
  - intros o on a an b bn Hon Ha Hb _ _ _.
    assert (Hone : (length (children on) <= 1)%nat).
    { destruct o as [|[|[|o]]]; try discriminate;
        injection Hon as <-; cbn; lia. }
    destruct (children on) as [|c [|c' l]]; [inversion Ha| |cbn in Hone; lia].
    apply list_elem_of_singleton in Ha, Hb. congruence.
  - exists [ev_map_key "xs"; ev_start_array; ev_integer 1; ev_integer 2;
            ev_end_array].
    split; [|reflexivity].
    destruct (nodes demo_R !! 0%nat) as [n0|] eqn:H0; [|discriminate].
    destruct (nodes demo_R !! 1%nat) as [n1|] eqn:H1; [|discriminate].
    destruct (nodes demo_R !! 2%nat) as [n2|] eqn:H2; [|discriminate].
    assert (Hname : name n1 = "xs") by (injection H1 as <-; reflexivity).
    rewrite <- Hname.
    apply (members_cons demo_R root n0 1%nat n1
             [ev_start_array; ev_integer 1; ev_integer 2; ev_end_array] []).
    + exact H0.
    + injection H0 as <-. apply list_elem_of_singleton. reflexivity.
    + exact H1.
    + apply (value_array demo_R 1%nat n1 [ev_integer 1; ev_integer 2]).
      * exact H1.
      * injection H1 as <-. reflexivity.
      * apply (elements_scalar demo_R 2%nat n2); [exact H2| |].
        { injection H2 as <-. reflexivity. }
        apply (elements_scalar demo_R 2%nat n2); [exact H2| |].
        { injection H2 as <-. reflexivity. }
        apply elements_nil.
    + apply members_nil.
  - reflexivity.
Defined.

(** * Failures of the builder *)

(** The types [getNodeTypeForProtoType] has no node type for: the two the
    source names and [TYPE_GROUP], which falls to the default of the
    switch. *)
Definition unsupported (t : FieldType) : bool :=
  match t with
  | TYPE_UINT64 | TYPE_BYTES | TYPE_GROUP => true
  | _ => false
  end.

Lemma getNodeType_unsupported t :
  unsupported t = true ->
  getNodeTypeForProtoType t =
  Throw ("Unsupported protobuf type " +:+ pretty (type_tag t)).
Proof. destruct t; try discriminate; reflexivity. Qed.

Lemma getNodeType_supported t k :
  getNodeTypeForProtoType t = Ok k -> unsupported t = false.
Proof. destruct t; try discriminate; reflexivity. Qed.

Lemma getNodeType_Throw t w :
  getNodeTypeForProtoType t = Throw w ->
  unsupported t = true /\
  w = "Unsupported protobuf type " +:+ pretty (type_tag t).
Proof.
  destruct t; try discriminate; intros [= <-]; split; reflexivity.
Qed.

Lemma parseField_unsupported rec desc0 node f g :
  unsupported (fd_type f) = true ->
  parseField rec desc0 node f g =
  Throw ("Unsupported protobuf type " +:+ pretty (type_tag (fd_type f))).
Proof.
  intros H. unfold parseField. rewrite (getNodeType_unsupported _ H).
  reflexivity.
Qed.

Lemma parseFields_app rec desc0 node pre post g :
  parseFields rec desc0 node (pre ++ post) g =
  (g1 ← parseFields rec desc0 node pre g; parseFields rec desc0 node post g1).
Proof.
  revert g. induction pre as [|f pre IH]; intros g; [reflexivity|].
  cbn [app parseFields].
  destruct (parseField rec desc0 node f g); try reflexivity.
  cbn [mbind Res_bind]. apply IH.
Qed.

(** The field of every node of a graph the builder returned has a type
    with a node type. *)
Lemma Inv_field_supported g i n f :
  Inv g -> nodes g !! i = Some n -> field n = Some f ->
  unsupported (fd_type f) = false.
Proof.
  intros HI. revert n f. induction i as [i IH] using lt_wf_ind.
  intros n f Hn Hf.
  assert (Hi : i <> 0%nat).
  { eapply Inv_not_root; [exact HI|exact Hn|]. left. eauto. }
  destruct (inv_parent g HI i n Hn Hi)
    as (p & pn & f' & _ & Hlt & Hpn & _ & Hf' & _ & _ & Hl).
  rewrite Hf in Hf'. injection Hf' as <-.
  unfold link in Hl. destruct (type pn) as [[]|]; try contradiction.
  - destruct Hl as (_ & Hpf & _). exact (IH p Hlt pn f Hpn Hpf).
  - destruct Hl as (_ & k & Hk & _). exact (getNodeType_supported _ _ Hk).
  - destruct Hl as (_ & _ & _ & _ & k & Hk & _).
    exact (getNodeType_supported _ _ Hk).
Qed.

(** C4, as the code has it.  When the loop over the fields of a message
    comes to a field whose type is [uint64], [bytes] or [group], the
    builder throws a [runtime_error] whose message is
    ["Unsupported protobuf type "] followed by the number of the type; the
    message names neither the field nor its path.  No node is made for the
    field: in a graph the builder returns, the field of every node has a
    supported type. *)
Theorem unsupported_type_throws fuel desc0 node pre f post g g1 :
  d_fields desc0 = pre ++ f :: post ->
  unsupported (fd_type f) = true ->
  parseFields (parseMessageDescRec fuel) desc0 node pre g = Ok g1 ->
  parseMessageDescRec (S fuel) desc0 node g =
  Throw ("Unsupported protobuf type " +:+ pretty (type_tag (fd_type f))) /\
  (forall fuel' load fn m g', build fuel' load fn m = Ok g' ->
     forall i n fd, nodes g' !! i = Some n -> field n = Some fd ->
       unsupported (fd_type fd) = false).
Proof.
  intros Hfields Hun Hpre. split.
  - cbn [parseMessageDescRec]. rewrite Hfields, parseFields_app, Hpre.
    cbn [mbind Res_bind parseFields].
    rewrite (parseField_unsupported _ _ _ _ _ Hun). reflexivity.
  - intros fuel' load fn m g' Hb i n fd Hn Hf.
    apply build_Inv in Hb as [HI _].
    exact (Inv_field_supported g' i n fd HI Hn Hf).
Qed.

(** A message with a supported and an unsupported field. *)
Definition Account : Descriptor :=
  mkDescriptor "Account" "bank.Account"
    [scalar "owner" TYPE_STRING LABEL_OPTIONAL;
     scalar "id" TYPE_UINT64 LABEL_OPTIONAL].

Definition bank_file : FileDescriptor := mkFile "bank" [Account].
Definition bank_load (f : string) : Loaded :=
  if String.eqb f "bank.proto" then Built bank_file else CannotOpen.

Lemma unsupported_type_throws_witness :
  d_fields Account =
    [scalar "owner" TYPE_STRING LABEL_OPTIONAL]
      ++ scalar "id" TYPE_UINT64 LABEL_OPTIONAL :: [] /\
  unsupported TYPE_UINT64 = true /\
  parseMessageDescRec 1 Account root
    (root_graph "bank.proto" "bank.Account" bank_file Account) =
  Throw "Unsupported protobuf type 4" /\
  build 1 bank_load "bank.proto" "bank.Account" =
  Throw "Unsupported protobuf type 4".
Proof.
  split; [reflexivity|]. split; [reflexivity|].
  destruct (parseFields (parseMessageDescRec 0) Account root
              [scalar "owner" TYPE_STRING LABEL_OPTIONAL]
              (root_graph "bank.proto" "bank.Account" bank_file Account))
    as [g1| | | |] eqn:Hpre; try (vm_compute in Hpre; discriminate).
  destruct (unsupported_type_throws 0 Account root
              [scalar "owner" TYPE_STRING LABEL_OPTIONAL]
              (scalar "id" TYPE_UINT64 LABEL_OPTIONAL) []
              (root_graph "bank.proto" "bank.Account" bank_file Account) g1
              eq_refl eq_refl Hpre) as [Hthrow _].
  split; [exact Hthrow|]. vm_compute. reflexivity.
Defined.

(** Whether [needle] occurs in [hay]. *)
Fixpoint contains (needle hay : string) : bool :=
  is_prefix needle hay ||
  match hay with
  | EmptyString => false
  | String _ rest => contains needle rest
  end.

(** C4, as the spec words it, fails on
    [message Account { string owner = 1; uint64 id = 2; }] of package
    [bank]: what is thrown carries the number of the type and nothing of
    the field, neither its name nor a path. *)
Lemma unsupported_type_counterexample :
  exists w,
    build 1 bank_load "bank.proto" "bank.Account" = Throw w /\
    w = "Unsupported protobuf type 4" /\
    contains "id" w = false /\
    contains ".id" w = false /\
    contains "bank.Account.id" w = false.
Proof.
  eexists. split; [vm_compute; reflexivity|].
  repeat split; reflexivity.
Qed.

(** ** Examples of [main] *)

Example main_Point :
  main 5 demo_load (fun _ => true) demo_hash
    ["protog"; "demo.proto"; "demo.pb.h"; "Point"] = Returns 0.
Proof. vm_compute. reflexivity. Qed.

Example print_Point_names :
  (g ← build 5 demo_load "demo.proto" "Point";
   o ← print demo_hash (fun _ => true) g "demo.pb.h";
   Ok (header_name o, source_name o, message_cpp_type o)) =
  Ok ("point_parser.pb.h", "point_parser.pb.cpp", "::Point").
Proof. vm_compute. reflexivity. Qed.


(** ** What the builder throws *)

(** Every exception of a computation satisfies [P]. *)
Definition throws_only {A} (P : string -> Prop) (m : Res A) : Prop :=
  forall w, m = Throw w -> P w.

Lemma throws_only_bind {A B} P (m : Res A) (k : A -> Res B) :
  throws_only P m -> (forall a, throws_only P (k a)) ->
  throws_only P (m ≫= k).
Proof.
  intros Hm Hk w. destruct m as [a|w'| | |]; cbn [mbind Res_bind];
    try discriminate.
  - apply Hk.
  - intros [= <-]. apply Hm. reflexivity.
Qed.

Lemma throws_only_Ok {A} P (a : A) : throws_only P (Ok a).
Proof. intros w. discriminate. Qed.

Lemma throws_only_deref {A} P (p : option A) : throws_only P (deref p).
Proof. intros w. destruct p; discriminate. Qed.

Lemma throws_only_get P g p : throws_only P (get g p).
Proof. apply throws_only_deref. Qed.

Lemma throws_only_addChild P node g : throws_only P (addChild node g).
Proof.
  unfold addChild, next_state. intros w.
  match goal with |- context [decide ?Q] => destruct (decide Q) end;
    discriminate.
Qed.

Lemma throws_only_getTypeName P pool0 f :
  throws_only P (getTypeNameForFieldDesc pool0 f).
Proof.
  unfold getTypeNameForFieldDesc. intros w.
  destruct (fd_type f); try discriminate.
  destruct (message_type pool0 f); discriminate.
Qed.

Lemma throws_only_addNodeToTypeLists P node g :
  throws_only P (addNodeToTypeLists node g).
Proof.
  unfold addNodeToTypeLists. apply throws_only_bind; [apply throws_only_get|].
  intros n. apply throws_only_bind.
  - unfold assert. intros w. destruct (negb _); discriminate.
  - intros _. apply throws_only_Ok.
Qed.

Lemma throws_only_injectObjectNode P desc0 f keyNode g :
  throws_only P (injectObjectNode desc0 f keyNode g).
Proof.
  unfold injectObjectNode.
  apply throws_only_bind; [apply throws_only_addChild|]. intros [c g1].
  apply throws_only_bind; [apply throws_only_get|]. intros k.
  apply throws_only_bind; [apply throws_only_addNodeToTypeLists|]. intros g2.
  apply throws_only_Ok.
Qed.

Lemma throws_only_injectArrayNode P desc0 f ty node g :
  throws_only P (injectArrayNode desc0 f ty node g).
Proof.
  unfold injectArrayNode.
  apply throws_only_bind; [apply throws_only_addChild|]. intros [c g1].
  apply throws_only_bind; [apply throws_only_get|]. intros k.
  apply throws_only_bind; [apply throws_only_getTypeName|]. intros tn.
  apply throws_only_bind; [apply throws_only_addNodeToTypeLists|]. intros g2.
  apply throws_only_Ok.
Qed.

(** The text thrown for an unsupported type. *)
Definition unsupported_text (w : string) : Prop :=
  exists t, unsupported t = true /\
    w = "Unsupported protobuf type " +:+ pretty (type_tag t).

Lemma throws_only_getNodeType t :
  throws_only unsupported_text (getNodeTypeForProtoType t).
Proof. intros w H. exists t. exact (getNodeType_Throw t w H). Qed.

Lemma throws_only_parseField rec desc0 node f g :
  (forall m p g1, throws_only unsupported_text (rec m p g1)) ->
  throws_only unsupported_text (parseField rec desc0 node f g).
Proof.
  intros Hrec. unfold parseField.
  apply throws_only_bind; [apply throws_only_getNodeType|]. intros ty.
  apply throws_only_bind; [apply throws_only_addChild|]. intros [c g1].
  apply throws_only_bind; [apply throws_only_get|]. intros n.
  destruct (negb (is_repeated f)).
  - apply throws_only_bind; [apply throws_only_getTypeName|]. intros tn.
    apply throws_only_bind; [apply throws_only_addNodeToTypeLists|].
    intros g2. destruct (decide (ty = OUTSIDE_OBJECT));
      [|apply throws_only_Ok].
    apply throws_only_bind; [apply throws_only_injectObjectNode|].
    intros [o g3].
    apply throws_only_bind; [apply throws_only_deref|]. intros m.
    apply Hrec.
  - apply throws_only_bind; [apply throws_only_getTypeName|]. intros tn.
    apply throws_only_bind; [apply throws_only_addNodeToTypeLists|].
    intros g2.
    apply throws_only_bind; [apply throws_only_injectArrayNode|].
    intros [arr g3]. destruct (decide (ty = OUTSIDE_OBJECT));
      [|apply throws_only_Ok].
    apply throws_only_bind; [apply throws_only_injectObjectNode|].
    intros [o g4].
    apply throws_only_bind; [apply throws_only_deref|]. intros m.
    apply Hrec.
Qed.

Lemma throws_only_parseFields rec desc0 node fs :
  (forall m p g1, throws_only unsupported_text (rec m p g1)) ->
  forall g, throws_only unsupported_text (parseFields rec desc0 node fs g).
Proof.
  intros Hrec. induction fs as [|f fs IH]; intros g; cbn [parseFields].
  - apply throws_only_Ok.
  - apply throws_only_bind; [apply throws_only_parseField; exact Hrec|].
    exact IH.
Qed.

Lemma throws_only_parseMessageDescRec fuel :
  forall desc0 node g,
    throws_only unsupported_text (parseMessageDescRec fuel desc0 node g).
Proof.
  induction fuel as [|fuel IH]; intros desc0 node g;
    cbn [parseMessageDescRec].
  - intros w. discriminate.
  - apply throws_only_parseFields. exact IH.
Qed.

(** ** The walk of the builder over a schema *)

(** What the builder does on a message, read off the schema: it gets
    through, having made [k] nodes, or it makes [k] nodes and comes to a
    field of a type [t] that has no node type. *)
Inductive Walk : Type :=
| Done (k : nat)
| Meets (k : nat) (t : FieldType).

(** One field: a node at the field, one more for the element of a repeated
    field, and for a message the node inside the braces and the walk of the
    message type.  [None]: the message type of the field is not in the
    pool, or the walk of it gives [None]. *)
Definition walk_field (rec : Descriptor -> option Walk)
    (pool0 : list Descriptor) (f : FieldDescriptor) : option Walk :=
  match getNodeTypeForProtoType (fd_type f) with
  | Ok ty =>
      let made := if is_repeated f then 2%nat else 1%nat in
      if decide (ty = OUTSIDE_OBJECT) then
        match message_type pool0 f with
        | Some m =>
            match rec m with
            | Some (Done k) => Some (Done (made + 1 + k))
            | Some (Meets k t) => Some (Meets (made + 1 + k) t)
            | None => None
            end
        | None => None
        end
      else Some (Done made)
  | Throw _ => Some (Meets 0 (fd_type f))
  | _ => None
  end.

(** The fields in order, up to the first that does not get through. *)
Fixpoint walk_fields (rec : Descriptor -> option Walk)
    (pool0 : list Descriptor) (fs : list FieldDescriptor) : option Walk :=
  match fs with
  | [] => Some (Done 0)
  | f :: rest =>
      match walk_field rec pool0 f with
      | Some (Done a) =>
          match walk_fields rec pool0 rest with
          | Some (Done b) => Some (Done (a + b))
          | Some (Meets b t) => Some (Meets (a + b) t)
          | None => None
          end
      | r => r
      end
  end.

(** Message types nested up to [depth]; [None] beyond it. *)
Fixpoint walk (depth : nat) (pool0 : list Descriptor) (d : Descriptor)
  : option Walk :=
  match depth with
  | O => None
  | S depth' => walk_fields (walk depth' pool0) pool0 (d_fields d)
  end.

(** ** The builder follows the walk *)

Lemma getNodeType_cases t :
  (exists k, getNodeTypeForProtoType t = Ok k) \/
  (getNodeTypeForProtoType t = Throw (unsupported_what t) /\
   unsupported t = true).
Proof. destruct t; cbn; eauto. Qed.

Lemma getNodeType_message t :
  getNodeTypeForProtoType t = Ok OUTSIDE_OBJECT -> t = TYPE_MESSAGE.
Proof. destruct t; cbn; intros H; try discriminate; reflexivity. Qed.

Lemma getTypeName_scalar pool0 f ty :
  getNodeTypeForProtoType (fd_type f) = Ok ty -> ty <> OUTSIDE_OBJECT ->
  getTypeNameForFieldDesc pool0 f = Ok (proto_type_name (fd_type f)).
Proof.
  unfold getTypeNameForFieldDesc.
  destruct (fd_type f); cbn; intros [= <-] H; try reflexivity; congruence.
Qed.

Lemma getTypeName_message pool0 f :
  getNodeTypeForProtoType (fd_type f) = Ok OUTSIDE_OBJECT ->
  getTypeNameForFieldDesc pool0 f =
  (d ← deref (message_type pool0 f); Ok (d_name d)).
Proof.
  intros H. apply getNodeType_message in H.
  unfold getTypeNameForFieldDesc. rewrite H. reflexivity.
Qed.

Lemma counter_ok_lt sc : sc < INT_MAX -> counter_ok sc = Ok tt.
Proof.
  intros H. unfold counter_ok. rewrite decide_True by exact H. reflexivity.
Qed.

Lemma counter_ok_ge sc : ~ sc < INT_MAX -> counter_ok sc = Undefined.
Proof.
  intros H. unfold counter_ok. rewrite decide_False by exact H. reflexivity.
Qed.

(** The nodes made for a field itself, and the graph after them. *)
Definition field_nodes (f : FieldDescriptor) (ty : NodeType) : nat :=
  match is_repeated f, decide (ty = OUTSIDE_OBJECT) with
  | true, left _ => 3
  | true, right _ => 2
  | false, left _ => 2
  | false, right _ => 1
  end%nat.

Definition field_graph (desc0 : Descriptor) (node : ptr)
    (f : FieldDescriptor) (g : Graph) (n : Node) (ty : NodeType)
    (tn : string) : Graph :=
  let N := length (nodes g) in
  let fn := full_name n +:+ fd_name f in
  if is_repeated f then
    let g1 := alloc node ARRAY (fd_name f) fn ("[" +:+ tn +:+ "]") desc0 f g in
    let g2 := alloc N ty (fd_name f) (fn +:+ "[]") tn desc0 f g1 in
    if decide (ty = OUTSIDE_OBJECT)
    then alloc (S N) INSIDE_OBJECT (fd_name f) ((fn +:+ "[]") +:+ ".") tn
           desc0 f g2
    else g2
  else
    let g1 := alloc node ty (fd_name f) fn tn desc0 f g in
    if decide (ty = OUTSIDE_OBJECT)
    then alloc N INSIDE_OBJECT (fd_name f) (fn +:+ ".") tn desc0 f g1
    else g1.

(** The node the recursion fills. *)
Definition field_inside (f : FieldDescriptor) (g : Graph) : ptr :=
  if is_repeated f then S (S (length (nodes g))) else S (length (nodes g)).

Lemma length_field_graph desc0 node f g n ty tn :
  length (nodes (field_graph desc0 node f g n ty tn)) =
  (length (nodes g) + field_nodes f ty)%nat.
Proof.
  unfold field_graph, field_nodes.
  destruct (is_repeated f), (decide (ty = OUTSIDE_OBJECT));
    rewrite !length_nodes_alloc; lia.
Qed.

Lemma lookup_field_inside desc0 node f g n tn :
  exists pn,
    nodes (field_graph desc0 node f g n OUTSIDE_OBJECT tn)
      !! field_inside f g = Some pn /\
    type pn = Some INSIDE_OBJECT.
Proof.
  unfold field_graph, field_inside.
  destruct (is_repeated f); rewrite decide_True by reflexivity;
    (eexists; split;
     [apply lookup_alloc_new; rewrite !length_nodes_alloc; reflexivity
     |reflexivity]).
Qed.

Lemma parseField_allocs_Ok rec desc0 node f g n ty tn :
  getNodeTypeForProtoType (fd_type f) = Ok ty ->
  getTypeNameForFieldDesc (pool g) f = Ok tn ->
  stateCounter g + Z.of_nat (field_nodes f ty) <= INT_MAX ->
  parseField_allocs rec desc0 node f g n =
  if decide (ty = OUTSIDE_OBJECT)
  then m ← deref (message_type (pool g) f);
       rec m (field_inside f g) (field_graph desc0 node f g n ty tn)
  else Ok (field_graph desc0 node f g n ty tn).
Proof.
  intros Hty Htn. unfold parseField_allocs, field_graph, field_inside,
    field_nodes.
  rewrite Hty, Htn. cbn [mbind Res_bind].
  destruct (is_repeated f), (decide (ty = OUTSIDE_OBJECT)); intros Hsc;
    rewrite !counter_ok_lt by lia; reflexivity.
Qed.

Lemma parseField_allocs_overflow rec desc0 node f g n ty :
  getNodeTypeForProtoType (fd_type f) = Ok ty ->
  ~ stateCounter g + Z.of_nat (field_nodes f ty) <= INT_MAX ->
  parseField_allocs rec desc0 node f g n = Undefined.
Proof.
  intros Hty. unfold parseField_allocs, field_nodes. rewrite Hty.
  cbn [mbind Res_bind].
  destruct (decide (stateCounter g < INT_MAX)) as [H0|H0];
    [|rewrite (counter_ok_ge _ H0); reflexivity].
  rewrite (counter_ok_lt _ H0). cbn [mbind Res_bind].
  assert (Htn : (exists tn, getTypeNameForFieldDesc (pool g) f = Ok tn) \/
                getTypeNameForFieldDesc (pool g) f = Undefined).
  { destruct (decide (ty = OUTSIDE_OBJECT)) as [->|Hne].
    - rewrite (getTypeName_message _ _ Hty).
      destruct (message_type (pool g) f); cbn; eauto.
    - left. eexists. eapply getTypeName_scalar; eassumption. }
  destruct Htn as [[tn ->]| ->]; [|reflexivity].
  cbn [mbind Res_bind].
  destruct (is_repeated f), (decide (ty = OUTSIDE_OBJECT)); intros Hsc;
    cbv zeta.
  - destruct (decide (stateCounter g + 1 < INT_MAX)) as [H1|H1];
      [|rewrite (counter_ok_ge _ H1); reflexivity].
    rewrite (counter_ok_lt _ H1). cbn [mbind Res_bind].
    rewrite counter_ok_ge by lia. reflexivity.
  - rewrite counter_ok_ge by lia. reflexivity.
  - rewrite counter_ok_ge by lia. reflexivity.
  - exfalso. lia.
Qed.

(** What a run of the builder from [g] gives, by the walk: the nodes are
    made as long as the counter of states stays an [int]. *)
Definition outcome (w : option Walk) (g : Graph) (r : Res Graph) : Prop :=
  match w with
  | Some (Done k) =>
      if decide (Z.of_nat (length (nodes g) + k) <= INT_MAX)
      then exists g', r = Ok g' /\
             length (nodes g') = (length (nodes g) + k)%nat
      else r = Undefined
  | Some (Meets k t) =>
      if decide (Z.of_nat (length (nodes g) + k) <= INT_MAX)
      then r = Throw (unsupported_what t)
      else r = Undefined
  | None => r = Undefined \/ r = OutOfFuel
  end.

(** The graphs and nodes [parseMessageDescRec] is called on. *)
Definition ready (pool0 : list Descriptor) (g : Graph) (node : ptr) : Prop :=
  Inv g /\ closed g /\ pool g = pool0 /\
  Z.of_nat (length (nodes g)) <= INT_MAX /\
  exists n, nodes g !! node = Some n /\ type n = Some INSIDE_OBJECT.

Lemma builds_return : builds (fun _ _ g => Ok g).
Proof.
  intros desc0 node g g' n _ _ _ Hcl [= <-]. split; [apply reach_refl|exact Hcl].
Qed.

Section Outcome.
Variable pool0 : list Descriptor.
Variable rec : Descriptor -> ptr -> Graph -> Res Graph.
Variable wrec : Descriptor -> option Walk.
Hypothesis rec_builds : builds rec.
Hypothesis rec_outcome : forall m p g,
  ready pool0 g p -> outcome (wrec m) g (rec m p g).

Lemma parseField_outcome desc0 node f g :
  ready pool0 g node ->
  outcome (walk_field wrec pool0 f) g (parseField rec desc0 node f g).
Proof.
  intros (HI & Hcl & Hpool & Hmax & n & Hn & Hnt).
  assert (Hsc : stateCounter g = Z.of_nat (length (nodes g)))
    by exact (inv_counter g HI).
  assert (Heq : forall r, parseField r desc0 node f g
                          = parseField_allocs r desc0 node f g n).
  { intros r. apply parseField_eq; [exact Hn|lia]. }
  rewrite Heq. unfold walk_field.
  destruct (getNodeType_cases (fd_type f)) as [[ty Hty]|[Hty Hun]].
  2:{ rewrite Hty. unfold parseField_allocs. rewrite Hty. cbn [outcome].
      rewrite decide_True by lia. reflexivity. }
  rewrite Hty.
  destruct (decide (Z.of_nat (length (nodes g) + field_nodes f ty)
                    <= INT_MAX)) as [Hfit|Hover].
  2:{ (* the counter overflows at the nodes of the field *)
      rewrite (parseField_allocs_overflow rec desc0 node f g n ty Hty)
        by (rewrite Hsc; lia).
      assert (Hfn : field_nodes f ty =
                ((if is_repeated f then 2 else 1) +
                 (if decide (ty = OUTSIDE_OBJECT) then 1 else 0))%nat).
      { unfold field_nodes.
        destruct (is_repeated f), (decide (ty = OUTSIDE_OBJECT)); reflexivity. }
      destruct (decide (ty = OUTSIDE_OBJECT)) as [->|Hne].
      - destruct (message_type pool0 f) as [m|]; [|left; reflexivity].
        destruct (wrec m) as [[k|k t]|]; cbn [outcome];
          [rewrite decide_False by lia; reflexivity
          |rewrite decide_False by lia; reflexivity
          |left; reflexivity].
      - cbn [outcome]. rewrite decide_False by lia. reflexivity. }
  assert (Hfn : field_nodes f ty =
            ((if is_repeated f then 2 else 1) +
             (if decide (ty = OUTSIDE_OBJECT) then 1 else 0))%nat).
  { unfold field_nodes.
    destruct (is_repeated f), (decide (ty = OUTSIDE_OBJECT)); reflexivity. }
  assert (Hpos : (1 <= field_nodes f ty)%nat).
  { unfold field_nodes.
    destruct (is_repeated f), (decide (ty = OUTSIDE_OBJECT)); lia. }
  destruct (decide (ty = OUTSIDE_OBJECT)) as [->|Hne].
  - (* a message *)
    destruct (message_type pool0 f) as [m|] eqn:Hm.
    2:{ left. unfold parseField_allocs. rewrite Hty. cbn [mbind Res_bind].
        rewrite (counter_ok_lt (stateCounter g)) by lia.
        cbn [mbind Res_bind].
        rewrite (getTypeName_message _ _ Hty), Hpool, Hm. reflexivity. }
    assert (Htn : getTypeNameForFieldDesc (pool g) f = Ok (d_name m)).
    { rewrite (getTypeName_message _ _ Hty), Hpool, Hm. reflexivity. }
    assert (Hform : forall r, parseField_allocs r desc0 node f g n =
              r m (field_inside f g)
                (field_graph desc0 node f g n OUTSIDE_OBJECT (d_name m))).
    { intros r.
      rewrite (parseField_allocs_Ok r desc0 node f g n _ _ Hty Htn)
        by (rewrite Hsc; lia).
      rewrite decide_True by reflexivity. rewrite Hpool, Hm. reflexivity. }
    rewrite Hform.
    set (G := field_graph desc0 node f g n OUTSIDE_OBJECT (d_name m)) in *.
    assert (HG : parseField (fun _ _ g0 => Ok g0) desc0 node f g = Ok G)
      by (rewrite Heq, Hform; reflexivity).
    destruct (parseField_reach _ builds_return desc0 node f g G n
                HI Hn Hnt Hcl HG) as [R HclG].
    assert (HlenG : length (nodes G) =
                    (length (nodes g) + field_nodes f OUTSIDE_OBJECT)%nat)
      by apply length_field_graph.
    assert (HrG : ready pool0 G (field_inside f g)).
    { split; [eapply Inv_reach; eassumption|]. split; [exact HclG|].
      split; [destruct (reach_frame g G R) as (_ & Hp & _); congruence|].
      split; [rewrite HlenG; exact Hfit|].
      apply lookup_field_inside. }
    pose proof (rec_outcome m _ G HrG) as Hout.
    destruct (wrec m) as [[k|k t]|]; cbn [outcome] in *.
    + rewrite HlenG, Hfn in Hout.
      destruct (decide (Z.of_nat (length (nodes g) +
                  ((if is_repeated f then 2 else 1) + 1) + k) <= INT_MAX))
        as [H1|H1].
      * rewrite decide_True by lia.
        destruct Hout as (g' & Hg' & Hlen). exists g'. split; [exact Hg'|].
        rewrite Hlen. lia.
      * rewrite decide_False by lia. exact Hout.
    + rewrite HlenG, Hfn in Hout.
      destruct (decide (Z.of_nat (length (nodes g) +
                  ((if is_repeated f then 2 else 1) + 1) + k) <= INT_MAX))
        as [H1|H1].
      * rewrite decide_True by lia. exact Hout.
      * rewrite decide_False by lia. exact Hout.
    + exact Hout.
  - (* a scalar *)
    pose proof (getTypeName_scalar (pool g) f ty Hty Hne) as Htn.
    rewrite (parseField_allocs_Ok rec desc0 node f g n _ _ Hty Htn)
      by (rewrite Hsc; lia).
    rewrite decide_False by exact Hne.
    cbn [outcome]. rewrite decide_True by (rewrite Hfn in Hfit; lia).
    eexists. split; [reflexivity|].
    rewrite length_field_graph, Hfn. lia.
Qed.

Lemma parseFields_outcome desc0 node fs :
  forall g, ready pool0 g node ->
    outcome (walk_fields wrec pool0 fs) g (parseFields rec desc0 node fs g).
Proof.
  induction fs as [|f rest IH]; intros g Hr; cbn [walk_fields parseFields].
  - destruct Hr as (_ & _ & _ & Hmax & _). cbn [outcome].
    rewrite decide_True by lia. exists g. split; [reflexivity|lia].
  - pose proof (parseField_outcome desc0 node f g Hr) as Hf.
    destruct (walk_field wrec pool0 f) as [[a|a t]|]; cbn [outcome] in Hf.
    + destruct (decide (Z.of_nat (length (nodes g) + a) <= INT_MAX))
        as [Ha|Ha].
      * destruct Hf as (g1 & Hg1 & Hlen1). rewrite Hg1.
        cbn [mbind Res_bind].
        destruct Hr as (HI & Hcl & Hpool & Hmax & n & Hn & Hnt).
        destruct (parseField_reach rec rec_builds desc0 node f g g1 n
                    HI Hn Hnt Hcl Hg1) as [R Hcl1].
        destruct (reach_frame g g1 R) as (_ & Hp1 & Hold).
        destruct (Hold node n Hn) as (n1 & Hn1 & Hs).
        assert (Hr1 : ready pool0 g1 node).
        { split; [eapply Inv_reach; eassumption|]. split; [exact Hcl1|].
          split; [congruence|]. split; [rewrite Hlen1; exact Ha|].
          exists n1. split; [exact Hn1|].
          destruct Hs as (_ & -> & _). exact Hnt. }
        pose proof (IH g1 Hr1) as Hrest.
        destruct (walk_fields wrec pool0 rest) as [[b|b t]|];
          cbn [outcome] in *.
        -- rewrite Hlen1 in Hrest.
           destruct (decide (Z.of_nat (length (nodes g) + a + b) <= INT_MAX))
             as [Hb|Hb].
           ++ rewrite decide_True by lia.
              destruct Hrest as (g' & Hg' & Hlen). exists g'.
              split; [exact Hg'|]. rewrite Hlen. lia.
           ++ rewrite decide_False by lia. exact Hrest.
        -- rewrite Hlen1 in Hrest.
           destruct (decide (Z.of_nat (length (nodes g) + a + b) <= INT_MAX))
             as [Hb|Hb].
           ++ rewrite decide_True by lia. exact Hrest.
           ++ rewrite decide_False by lia. exact Hrest.
        -- exact Hrest.
      * rewrite Hf. cbn [mbind Res_bind].
        destruct (walk_fields wrec pool0 rest) as [[b|b t]|]; cbn [outcome].
        -- rewrite decide_False by lia. reflexivity.
        -- rewrite decide_False by lia. reflexivity.
        -- left. reflexivity.
    + cbn [outcome].
      destruct (decide (Z.of_nat (length (nodes g) + a) <= INT_MAX));
        rewrite Hf; reflexivity.
    + cbn [outcome]. destruct Hf as [-> | ->]; [left|right]; reflexivity.
Qed.
End Outcome.

Lemma parseMessageDescRec_outcome pool0 fuel :
  forall d node g, ready pool0 g node ->
    outcome (walk fuel pool0 d) g (parseMessageDescRec fuel d node g).
Proof.
  induction fuel as [|fuel IH]; intros d node g Hr;
    cbn [walk parseMessageDescRec].
  - right. reflexivity.
  - apply parseFields_outcome; [apply parseMessageDescRec_builds| |exact Hr].
    intros m p g0 Hr0. apply IH. exact Hr0.
Qed.

Lemma ready_root_graph f m fd md :
  ready (message_types fd) (root_graph f m fd md) root.
Proof.
  split; [apply Inv_root_graph|]. split; [apply closed_root_graph|].
  split; [reflexivity|]. split; [cbn; unfold INT_MAX; lia|].
  eexists. split; reflexivity.
Qed.

Lemma build_root_graph fuel load f m fd md :
  load f = Built fd ->
  FindMessageTypeByName (message_types fd) m = Some md ->
  build fuel load f m =
  parseMessageDescRec fuel md root (root_graph f m fd md).
Proof.
  intros Hl Hm. unfold build, Graph_new. rewrite Hl, Hm. reflexivity.
Qed.

(** What [build] gives on a schema that was loaded, by the walk of the
    root message. *)
Lemma build_outcome fuel load f m fd md :
  load f = Built fd ->
  FindMessageTypeByName (message_types fd) m = Some md ->
  outcome (walk fuel (message_types fd) md) (root_graph f m fd md)
    (build fuel load f m).
Proof.
  intros Hl Hm. rewrite (build_root_graph fuel load f m fd md Hl Hm).
  apply parseMessageDescRec_outcome. apply ready_root_graph.
Qed.

(** The walk stops at a field of the schema whose type has no node type:
    a field of the message or of a message type of the pool. *)
Lemma walk_field_Meets rec pool0 f k t :
  walk_field rec pool0 f = Some (Meets k t) ->
  (fd_type f = t /\ unsupported t = true /\ k = 0%nat) \/
  (exists m k', message_type pool0 f = Some m /\ rec m = Some (Meets k' t)).
Proof.
  unfold walk_field.
  destruct (getNodeType_cases (fd_type f)) as [[ty ->]|[-> Hun]].
  - destruct (decide (ty = OUTSIDE_OBJECT)); [|discriminate].
    destruct (message_type pool0 f) as [m|]; [|discriminate].
    destruct (rec m) as [[k'|k' t']|] eqn:Hm; try discriminate.
    intros [= <- <-]. right. exists m, k'. split; [reflexivity|exact Hm].
  - intros [= <- <-]. left. repeat split. exact Hun.
Qed.

Lemma walk_fields_Meets rec pool0 fs k t :
  walk_fields rec pool0 fs = Some (Meets k t) ->
  exists f, f ∈ fs /\
    ((fd_type f = t /\ unsupported t = true) \/
     (exists m k', message_type pool0 f = Some m /\
                   rec m = Some (Meets k' t))).
Proof.
  revert k. induction fs as [|f rest IH]; intros k; cbn [walk_fields];
    [discriminate|].
  destruct (walk_field rec pool0 f) as [[a|a t']|] eqn:Hf; [| |discriminate].
  - destruct (walk_fields rec pool0 rest) as [[b|b t']|] eqn:Hrest;
      try discriminate.
    intros [= <- <-]. destruct (IH b eq_refl) as (f' & Hin & H).
    exists f'. split; [apply elem_of_cons; right; exact Hin|exact H].
  - intros [= <- <-]. exists f. split; [apply elem_of_cons; left; reflexivity|].
    apply walk_field_Meets in Hf as [(H1 & H2 & _)|H]; [left|right]; auto.
Qed.

Lemma message_type_in_pool pool0 f m :
  message_type pool0 f = Some m -> m ∈ pool0.
Proof.
  unfold message_type, FindMessageTypeByName.
  destruct (fd_message_type f); [|discriminate].
  intros H. apply find_some in H as [H _]. apply list_elem_of_In. exact H.
Qed.

Lemma walk_Meets depth pool0 :
  forall d k t, walk depth pool0 d = Some (Meets k t) ->
    unsupported t = true /\
    exists d' f, (d' = d \/ d' ∈ pool0) /\ f ∈ d_fields d' /\ fd_type f = t.
Proof.
  induction depth as [|depth IH]; intros d k t; cbn [walk]; [discriminate|].
  intros H. apply walk_fields_Meets in H as (f & Hin & [[Ht Hun]|H]).
  - split; [exact Hun|]. exists d, f. auto.
  - destruct H as (m & k' & Hm & Hw).
    destruct (IH m k' t Hw) as (Hun & d' & f' & Hd' & Hin' & Ht).
    split; [exact Hun|]. exists d', f'. split; [|auto].
    right. destruct Hd' as [->|Hd']; [|exact Hd'].
    eapply message_type_in_pool; exact Hm.
Qed.

(** The fields before a field of the root message that are scalars with a
    node type take one or two nodes each. *)
Definition plain (f : FieldDescriptor) : Prop :=
  unsupported (fd_type f) = false /\ fd_type f <> TYPE_MESSAGE.

Lemma walk_field_plain rec pool0 f :
  plain f ->
  walk_field rec pool0 f = Some (Done (if is_repeated f then 2 else 1)).
Proof.
  intros [Hs Hm]. unfold walk_field.
  destruct (getNodeType_cases (fd_type f)) as [[ty Hty]|[_ Hun]];
    [|congruence].
  rewrite Hty. rewrite decide_False; [reflexivity|].
  intros ->. apply Hm. exact (getNodeType_message _ Hty).
Qed.

Lemma walk_fields_plain rec pool0 pre f post :
  (forall p, p ∈ pre -> plain p) -> unsupported (fd_type f) = true ->
  exists k, (k <= 2 * length pre)%nat /\
    walk_fields rec pool0 (pre ++ f :: post) = Some (Meets k (fd_type f)).
Proof.
  intros Hpre Hun. induction pre as [|p pre IH]; cbn [app walk_fields].
  - exists 0%nat. split; [cbn; lia|]. unfold walk_field.
    destruct (getNodeType_cases (fd_type f)) as [[ty Hty]|[-> _]];
      [|reflexivity].
    apply getNodeType_supported in Hty. congruence.
  - rewrite (walk_field_plain rec pool0 p)
      by (apply Hpre; apply elem_of_cons; left; reflexivity).
    destruct IH as (k & Hk & ->).
    { intros q Hq. apply Hpre. apply elem_of_cons. right. exact Hq. }
    eexists. split; [|reflexivity]. cbn [length].
    destruct (is_repeated p); lia.
Qed.

(** ** [build] by the walk *)

Lemma length_root_graph f m fd md :
  length (nodes (root_graph f m fd md)) = 1%nat.
Proof. reflexivity. Qed.

Lemma outcome_Meets k t g r :
  Z.of_nat (length (nodes g) + k) <= INT_MAX ->
  outcome (Some (Meets k t)) g r -> r = Throw (unsupported_what t).
Proof.
  intros Hk H. unfold outcome in H. rewrite decide_True in H by exact Hk.
  exact H.
Qed.

Lemma outcome_Done k g r :
  Z.of_nat (length (nodes g) + k) <= INT_MAX ->
  outcome (Some (Done k)) g r ->
  exists g', r = Ok g' /\ length (nodes g') = (length (nodes g) + k)%nat.
Proof.
  intros Hk H. unfold outcome in H. rewrite decide_True in H by exact Hk.
  exact H.
Qed.

Lemma outcome_Throw w g what :
  outcome w g (Throw what) ->
  exists k t, w = Some (Meets k t) /\
    Z.of_nat (length (nodes g) + k) <= INT_MAX /\
    what = unsupported_what t.
Proof.
  unfold outcome. destruct w as [[k|k t]|].
  - destruct (decide _); [intros (g' & H & _)|intros H]; discriminate.
  - destruct (decide _) as [Hk|]; [|discriminate].
    intros [= ->]. exists k, t. split; [reflexivity|]. split; [exact Hk|].
    reflexivity.
  - intros [H|H]; discriminate.
Qed.

Lemma outcome_Ok w g g' :
  outcome w g (Ok g') ->
  exists k, w = Some (Done k) /\
    length (nodes g') = (length (nodes g) + k)%nat.
Proof.
  unfold outcome. destruct w as [[k|k t]|].
  - destruct (decide _); [|discriminate].
    intros (g1 & [= <-] & Hlen). exists k. split; [reflexivity|exact Hlen].
  - destruct (decide _); discriminate.
  - intros [H|H]; discriminate.
Qed.

Lemma build_walk_Meets fuel load f m fd md k t :
  load f = Built fd ->
  FindMessageTypeByName (message_types fd) m = Some md ->
  walk fuel (message_types fd) md = Some (Meets k t) ->
  Z.of_nat (1 + k) <= INT_MAX ->
  build fuel load f m = Throw (unsupported_what t).
Proof.
  intros Hl Hm Hw Hk.
  pose proof (build_outcome fuel load f m fd md Hl Hm) as H.
  rewrite Hw in H.
  apply (outcome_Meets k t (root_graph f m fd md)); [|exact H].
  rewrite length_root_graph. exact Hk.
Qed.

Lemma build_walk_Done fuel load f m fd md k :
  load f = Built fd ->
  FindMessageTypeByName (message_types fd) m = Some md ->
  walk fuel (message_types fd) md = Some (Done k) ->
  Z.of_nat (1 + k) <= INT_MAX ->
  exists g, build fuel load f m = Ok g /\ length (nodes g) = S k.
Proof.
  intros Hl Hm Hw Hk.
  pose proof (build_outcome fuel load f m fd md Hl Hm) as H.
  rewrite Hw in H.
  apply (outcome_Done k (root_graph f m fd md)) in H;
    [|rewrite length_root_graph; exact Hk].
  rewrite length_root_graph in H. exact H.
Qed.

Lemma build_Throw_walk fuel load f m fd md w :
  load f = Built fd ->
  FindMessageTypeByName (message_types fd) m = Some md ->
  build fuel load f m = Throw w ->
  exists k t, walk fuel (message_types fd) md = Some (Meets k t) /\
    Z.of_nat (1 + k) <= INT_MAX /\ w = unsupported_what t.
Proof.
  intros Hl Hm Hb.
  pose proof (build_outcome fuel load f m fd md Hl Hm) as H.
  rewrite Hb in H. apply outcome_Throw in H as (k & t & Hw & Hk & ->).
  rewrite length_root_graph in Hk. exists k, t. auto.
Qed.

Lemma build_Ok_walk fuel load f m fd md g :
  load f = Built fd ->
  FindMessageTypeByName (message_types fd) m = Some md ->
  build fuel load f m = Ok g ->
  exists k, walk fuel (message_types fd) md = Some (Done k) /\
    length (nodes g) = S k.
Proof.
  intros Hl Hm Hb.
  pose proof (build_outcome fuel load f m fd md Hl Hm) as H.
  rewrite Hb in H. apply outcome_Ok in H as (k & Hw & Hlen).
  rewrite length_root_graph in Hlen. exists k. auto.
Qed.

(** The builder returns on the schemas the walk gets through.  For a
    schema that was loaded: when the walk of the root message gets through
    within the depth, having made [made] nodes, and the states up to
    [1 + made] are within [int], [build] returns a graph of [1 + made]
    nodes; and a graph [build] returns is of this kind. *)
Theorem build_returns_what_the_walk_counts fuel load f m fd md :
  load f = Built fd ->
  FindMessageTypeByName (message_types fd) m = Some md ->
  (forall made,
     walk fuel (message_types fd) md = Some (Done made) ->
     Z.of_nat (1 + made) <= INT_MAX ->
     exists g, build fuel load f m = Ok g /\ length (nodes g) = S made /\
               stateCounter g = Z.of_nat (S made)) /\
  (forall g, build fuel load f m = Ok g ->
     exists made, walk fuel (message_types fd) md = Some (Done made) /\
       length (nodes g) = S made /\ stateCounter g = Z.of_nat (S made)).
Proof.
  intros Hl Hm. split.
  - intros made Hw Hmade.
    destruct (build_walk_Done fuel load f m fd md made Hl Hm Hw Hmade)
      as (g & Hb & Hlen).
    exists g. split; [exact Hb|]. split; [exact Hlen|].
    apply build_Inv in Hb as [HI _]. rewrite (inv_counter g HI), Hlen.
    reflexivity.
  - intros g Hb.
    destruct (build_Ok_walk fuel load f m fd md g Hl Hm Hb) as (made & Hw & Hlen).
    exists made. split; [exact Hw|]. split; [exact Hlen|].
    apply build_Inv in Hb as [HI _]. rewrite (inv_counter g HI), Hlen.
    reflexivity.
Qed.

Lemma build_returns_what_the_walk_counts_witness :
  walk 2 (message_types demo_file) RM = Some (Done 5) /\
  exists g, build 2 demo_load "demo.proto" "RM" = Ok g /\
            length (nodes g) = 6%nat /\ stateCounter g = 6.
Proof.
  split; [reflexivity|].
  destruct (build_returns_what_the_walk_counts 2 demo_load "demo.proto" "RM"
              demo_file RM eq_refl eq_refl) as [Hret _].
  apply (Hret 5%nat); [reflexivity|unfold INT_MAX; cbn; lia].
Defined.

(** The failures for which the generator throws; each is a
    [std::runtime_error], told from the others by its text only. *)
Inductive Failure : Type :=
| SchemaOpen
| SchemaParse
| SchemaBuild
| MessageNotFound
| UnsupportedType (t : FieldType).

Definition what_of (k : Failure) (fn m : string) : string :=
  match k with
  | SchemaOpen => "Unable to open proto file " +:+ fn
  | SchemaParse => "Unable to parse proto file " +:+ fn
  | SchemaBuild => "Unable to load proto file " +:+ fn
  | MessageNotFound => "Unable to find message type " +:+ m
  | UnsupportedType t => "Unsupported protobuf type " +:+ pretty (type_tag t)
  end.

(** When each failure occurs.  For a type without a node type: the walk
    of the root message comes to a field of that type, and the nodes made
    before it leave the counter of states an [int]. *)
Definition fails (load : string -> Loaded) (fn m : string) (k : Failure)
  : Prop :=
  match k with
  | SchemaOpen => load fn = CannotOpen
  | SchemaParse => load fn = CannotParse
  | SchemaBuild => load fn = CannotBuild
  | MessageNotFound =>
      exists fd, load fn = Built fd /\
        FindMessageTypeByName (message_types fd) m = None
  | UnsupportedType t =>
      exists fd md, load fn = Built fd /\
        FindMessageTypeByName (message_types fd) m = Some md /\
        exists depth made,
          walk depth (message_types fd) md = Some (Meets made t) /\
          Z.of_nat (1 + made) <= INT_MAX
  end.

Lemma build_Throw fuel load fn m w :
  build fuel load fn m = Throw w ->
  exists k, fails load fn m k /\ w = what_of k fn m.
Proof.
  intros H. destruct (load fn) as [| | |fd] eqn:Hl.
  - unfold build, Graph_new in H. rewrite Hl in H. injection H as <-.
    exists SchemaOpen. split; [exact Hl|reflexivity].
  - unfold build, Graph_new in H. rewrite Hl in H. injection H as <-.
    exists SchemaParse. split; [exact Hl|reflexivity].
  - unfold build, Graph_new in H. rewrite Hl in H. injection H as <-.
    exists SchemaBuild. split; [exact Hl|reflexivity].
  - destruct (FindMessageTypeByName (message_types fd) m) as [md|] eqn:Hm.
    + destruct (build_Throw_walk fuel load fn m fd md w Hl Hm H)
        as (made & t & Hw & Hmade & ->).
      exists (UnsupportedType t). split; [|reflexivity].
      exists fd, md. split; [exact Hl|]. split; [exact Hm|].
      exists fuel, made. split; assumption.
    + unfold build, Graph_new in H. rewrite Hl, Hm in H. injection H as <-.
      exists MessageNotFound. split; [|reflexivity].
      exists fd. split; [exact Hl|exact Hm].
Qed.

(** ** How [main] ends *)

Definition same_kind (k k' : Failure) : Prop :=
  match k, k' with
  | SchemaOpen, SchemaOpen | SchemaParse, SchemaParse
  | SchemaBuild, SchemaBuild | MessageNotFound, MessageNotFound
  | UnsupportedType _, UnsupportedType _ => True
  | _, _ => False
  end.

(** Texts of two kinds of failure differ, whatever the names in them. *)
Lemma what_of_kind k k' fn m fn' m' :
  what_of k fn m = what_of k' fn' m' -> same_kind k k'.
Proof.
  intros H.
  assert (H2 : String.get 2 (what_of k fn m) = String.get 2 (what_of k' fn' m'))
    by (rewrite H; reflexivity).
  assert (H10 : String.get 10 (what_of k fn m)
                = String.get 10 (what_of k' fn' m'))
    by (rewrite H; reflexivity).
  destruct k, k'; cbn in H2, H10; try discriminate; exact I.
Qed.

Lemma main_arity fuel load can_write hash argv :
  length argv <> 4%nat -> main fuel load can_write hash argv = Exits 1.
Proof.
  intros H. destruct argv as [|a0 [|a1 [|a2 [|a3 [|a4 rest]]]]];
    try reflexivity.
  exfalso. apply H. reflexivity.
Qed.

Lemma main_build_Throw fuel load can_write hash a0 fn h m w :
  build fuel load fn m = Throw w ->
  main fuel load can_write hash [a0; fn; h; m] = Terminates w.
Proof. intros H. unfold main. rewrite H. reflexivity. Qed.

Lemma build_fails fuel load fn m k :
  fails load fn m k -> (forall t, k <> UnsupportedType t) ->
  build fuel load fn m = Throw (what_of k fn m).
Proof.
  intros Hk Hnt. unfold build, Graph_new. destruct k; cbn [fails] in Hk.
  - rewrite Hk. reflexivity.
  - rewrite Hk. reflexivity.
  - rewrite Hk. reflexivity.
  - destruct Hk as (fd & Hl & Hm). rewrite Hl, Hm. reflexivity.
  - exfalso. exact (Hnt t eq_refl).
Qed.

(** A failure leaves no graph, whatever the depth. *)
Lemma fails_not_built load fn m k :
  fails load fn m k -> forall fuel g, build fuel load fn m <> Ok g.
Proof.
  intros Hk fuel g Hb.
  assert (Hplain : (forall t, k <> UnsupportedType t) -> False).
  { intros Hnt. rewrite (build_fails fuel load fn m k Hk Hnt) in Hb.
    discriminate. }
  destruct k as [| | | |t]; try (apply Hplain; intros t; discriminate).
  cbn [fails] in Hk.
  destruct Hk as (fd & md & Hl & Hm & depth & made & Hw & Hmade).
  pose proof (build_walk_Meets depth load fn m fd md made t Hl Hm Hw Hmade)
    as Hthrow.
  assert (H1 : build (Nat.max fuel depth) load fn m = Ok g).
  { eapply build_more_fuel; [apply Nat.le_max_l|exact Hb|discriminate]. }
  assert (H2 : build (Nat.max fuel depth) load fn m
               = Throw (unsupported_what t)).
  { eapply build_more_fuel; [apply Nat.le_max_r|exact Hthrow|discriminate]. }
  congruence.
Qed.

Lemma main_not_built fuel load can_write hash a0 fn h m :
  (forall g, build fuel load fn m <> Ok g) ->
  exit_code (main fuel load can_write hash [a0; fn; h; m]) = None.
Proof.
  intros H. unfold main.
  destruct (build fuel load fn m) as [g| | | |] eqn:Hb; try reflexivity.
  exfalso. exact (H g eq_refl).
Qed.

(** With enough depth every failure is the exception of its kind. *)
Lemma fails_build load fn m k :
  fails load fn m k ->
  exists fuel0, forall fuel, (fuel0 <= fuel)%nat ->
    build fuel load fn m = Throw (what_of k fn m).
Proof.
  intros Hk.
  assert (Hplain : (forall t, k <> UnsupportedType t) ->
            exists fuel0, forall fuel, (fuel0 <= fuel)%nat ->
              build fuel load fn m = Throw (what_of k fn m)).
  { intros Hnt. exists 0%nat. intros fuel _. apply build_fails; assumption. }
  destruct k as [| | | |t]; try (apply Hplain; intros t; discriminate).
  cbn [fails] in Hk.
  destruct Hk as (fd & md & Hl & Hm & depth & made & Hw & Hmade).
  exists depth. intros fuel Hle.
  eapply build_more_fuel; [exact Hle| |discriminate].
  exact (build_walk_Meets depth load fn m fd md made t Hl Hm Hw Hmade).
Qed.

(** The root of a graph the builder returned describes the root
    message. *)
Lemma build_root_desc fuel load fn m fd md g :
  load fn = Built fd ->
  FindMessageTypeByName (message_types fd) m = Some md ->
  build fuel load fn m = Ok g ->
  exists r, nodes g !! root = Some r /\ desc r = Some md.
Proof.
  intros Hl Hm Hb.
  rewrite (build_root_graph fuel load fn m fd md Hl Hm) in Hb.
  destruct (parseMessageDescRec_builds fuel md root (root_graph fn m fd md) g
              _ (Inv_root_graph fn m fd md) eq_refl eq_refl
              (closed_root_graph fn m fd md) Hb) as [R _].
  destruct (reach_frame _ _ R) as (_ & _ & Hold).
  destruct (Hold root _ eq_refl) as (r & Hr & Hs).
  exists r. split; [exact Hr|].
  destruct Hs as (_ & _ & _ & _ & _ & _ & Hd & _). rewrite Hd. reflexivity.
Qed.

Lemma main_returns fuel load can_write hash a0 fn h m g r d :
  build fuel load fn m = Ok g ->
  nodes g !! root = Some r -> desc r = Some d ->
  can_write ((tolower (d_name d) +:+ "_parser.pb") +:+ ".h") = true ->
  can_write ((tolower (d_name d) +:+ "_parser.pb") +:+ ".cpp") = true ->
  main fuel load can_write hash [a0; fn; h; m] = Returns 0.
Proof.
  intros Hb Hr Hd Hh Hs.
  destruct (build_Inv _ _ _ _ _ Hb) as [HI Hcl].
  destruct (printSourceImpl_Ok hash g HI Hcl) as [src Hsrc].
  unfold main. rewrite Hb. cbn [mbind Res_bind].
  unfold print, get. rewrite Hr. cbn [mbind Res_bind deref].
  rewrite Hd. cbn [mbind Res_bind deref].
  unfold fopen. rewrite Hh. cbn [mbind Res_bind].
  rewrite Hs. cbn [mbind Res_bind].
  rewrite Hsrc. reflexivity.
Qed.

(** C3, as the code has it.  [main] calls [exit(1)] when it is not given
    three arguments, and returns 0 when the graph was built and the two
    files were written.  When the schema cannot be opened, parsed or
    built, when the root message is not found, and when a field has an
    unsupported type, a [runtime_error] is thrown, with a text that tells
    the failure from the others; [main] catches nothing, so the process is
    terminated and exits with no code of its own.

    For the unsupported type the theorem says so three times: for a field
    of the root message that comes after scalar fields, from the schema
    alone; for a field of the root message once the fields before it are
    processed; and for every field the walk of the schema comes to, in a
    nested message too.  A failure never ends in an exit code, and with
    enough depth it ends in the exception of its kind; a schema the walk
    gets through ends in 0. *)
Theorem main_ends fuel load can_write hash a0 fn h m :
  let result := main fuel load can_write hash [a0; fn; h; m] in
  (forall argv, length argv <> 4%nat ->
     main fuel load can_write hash argv = Exits 1) /\
  (forall k, fails load fn m k -> (forall t, k <> UnsupportedType t) ->
     result = Terminates (what_of k fn m)) /\
  (forall w, build fuel load fn m = Throw w ->
     result = Terminates w /\ exit_code result = None /\
     exists k, fails load fn m k /\ w = what_of k fn m) /\
  (forall k k' fn' m',
     what_of k fn m = what_of k' fn' m' -> same_kind k k') /\
  (forall g r d,
     build fuel load fn m = Ok g ->
     nodes g !! root = Some r -> desc r = Some d ->
     can_write ((tolower (d_name d) +:+ "_parser.pb") +:+ ".h") = true ->
     can_write ((tolower (d_name d) +:+ "_parser.pb") +:+ ".cpp") = true ->
     result = Returns 0 /\ exit_code result = Some 0) /\
  (forall fd md pre f post,
     load fn = Built fd ->
     FindMessageTypeByName (message_types fd) m = Some md ->
     d_fields md = pre ++ f :: post ->
     (forall p, p ∈ pre -> plain p) ->
     unsupported (fd_type f) = true ->
     fuel <> 0%nat -> Z.of_nat (1 + 2 * length pre) <= INT_MAX ->
     result =
     Terminates
       ("Unsupported protobuf type " +:+ pretty (type_tag (fd_type f))) /\
     exit_code result = None) /\
  (forall fuel' fd md pre f post g1,
     load fn = Built fd ->
     FindMessageTypeByName (message_types fd) m = Some md ->
     d_fields md = pre ++ f :: post ->
     unsupported (fd_type f) = true ->
     parseFields (parseMessageDescRec fuel') md root pre
       (root_graph fn m fd md) = Ok g1 ->
     main (S fuel') load can_write hash [a0; fn; h; m] =
     Terminates
       ("Unsupported protobuf type " +:+ pretty (type_tag (fd_type f)))) /\
  (forall fd md made t,
     load fn = Built fd ->
     FindMessageTypeByName (message_types fd) m = Some md ->
     walk fuel (message_types fd) md = Some (Meets made t) ->
     Z.of_nat (1 + made) <= INT_MAX ->
     unsupported t = true /\
     (exists d f, (d = md \/ d ∈ message_types fd) /\
                  f ∈ d_fields d /\ fd_type f = t) /\
     result =
     Terminates ("Unsupported protobuf type " +:+ pretty (type_tag t)) /\
     exit_code result = None) /\
  (forall k, fails load fn m k ->
     exit_code result = None /\
     exists fuel0, forall fuel', (fuel0 <= fuel')%nat ->
       main fuel' load can_write hash [a0; fn; h; m] =
       Terminates (what_of k fn m)) /\
  (forall fd md made,
     load fn = Built fd ->
     FindMessageTypeByName (message_types fd) m = Some md ->
     walk fuel (message_types fd) md = Some (Done made) ->
     Z.of_nat (1 + made) <= INT_MAX ->
     can_write ((tolower (d_name md) +:+ "_parser.pb") +:+ ".h") = true ->
     can_write ((tolower (d_name md) +:+ "_parser.pb") +:+ ".cpp") = true ->
     result = Returns 0 /\ exit_code result = Some 0).
Proof.
  cbv zeta. split; [apply main_arity|]. split.
  { intros k Hk Hnt. apply main_build_Throw. apply build_fails; assumption. }
  split.
  { intros w Hw. rewrite (main_build_Throw _ _ can_write hash a0 _ h _ _ Hw).
    split; [reflexivity|]. split; [reflexivity|].
    exact (build_Throw _ _ _ _ _ Hw). }
  split; [intros k k' fn' m'; apply what_of_kind|].
  split.
  { intros g r d Hb Hr Hd Hh Hs.
    rewrite (main_returns fuel load can_write hash a0 fn h m g r d
               Hb Hr Hd Hh Hs).
    split; reflexivity. }
  split.
  { intros fd md pre f post Hl Hm Hfields Hpre Hun Hfuel Hmax.
    destruct fuel as [|fuel']; [congruence|].
    destruct (walk_fields_plain (walk fuel' (message_types fd))
                (message_types fd) pre f post Hpre Hun) as (made & Hle & Hw).
    assert (Hwalk : walk (S fuel') (message_types fd) md
                    = Some (Meets made (fd_type f)))
      by (cbn [walk]; rewrite Hfields; exact Hw).
    rewrite (main_build_Throw (S fuel') load can_write hash a0 fn h m
               (unsupported_what (fd_type f))).
    - split; reflexivity.
    - apply (build_walk_Meets (S fuel') load fn m fd md made);
        [exact Hl|exact Hm|exact Hwalk|lia]. }
  split.
  { intros fuel' fd md pre f post g1 Hl Hm Hfields Hun Hpre.
    apply main_build_Throw.
    rewrite (build_root_graph (S fuel') load fn m fd md Hl Hm).
    cbn [parseMessageDescRec]. rewrite Hfields, parseFields_app, Hpre.
    cbn [mbind Res_bind parseFields].
    rewrite (parseField_unsupported _ _ _ _ _ Hun). reflexivity. }
  split.
  { intros fd md made t Hl Hm Hw Hmade.
    destruct (walk_Meets fuel (message_types fd) md made t Hw)
      as [Hun Hfield].
    split; [exact Hun|]. split; [exact Hfield|].
    rewrite (main_build_Throw fuel load can_write hash a0 fn h m
               (unsupported_what t)).
    - split; reflexivity.
    - exact (build_walk_Meets fuel load fn m fd md made t Hl Hm Hw Hmade). }
  split.
  { intros k Hk. split.
    - apply main_not_built. intros g. apply (fails_not_built load fn m k Hk).
    - destruct (fails_build load fn m k Hk) as [fuel0 H0].
      exists fuel0. intros fuel' Hle. apply main_build_Throw.
      apply H0. exact Hle. }
  intros fd md made Hl Hm Hw Hmade Hh Hs.
  destruct (build_walk_Done fuel load fn m fd md made Hl Hm Hw Hmade)
    as (g & Hb & _).
  destruct (build_root_desc fuel load fn m fd md g Hl Hm Hb)
    as (r & Hr & Hd).
  rewrite (main_returns fuel load can_write hash a0 fn h m g r md
             Hb Hr Hd Hh Hs).
  split; reflexivity.
Qed.

(** [main_ends] at [bank.Account], whose second field [id] has the type
    [uint64]: from the schema, the process is terminated with the text of
    the type and has no exit code. *)
Lemma main_ends_witness :
  main 1 bank_load (fun _ => true) demo_hash
    ["protog"; "bank.proto"; "bank.pb.h"; "bank.Account"]
  = Terminates "Unsupported protobuf type 4" /\
  exit_code
    (main 1 bank_load (fun _ => true) demo_hash
       ["protog"; "bank.proto"; "bank.pb.h"; "bank.Account"]) = None /\
  walk 1 (message_types bank_file) Account = Some (Meets 1 TYPE_UINT64).
Proof.
  destruct (main_ends 1 bank_load (fun _ => true) demo_hash
              "protog" "bank.proto" "bank.pb.h" "bank.Account")
    as (_ & _ & _ & _ & _ & Hplain & _ & Hwalk & _).
  destruct (Hplain bank_file Account
              [scalar "owner" TYPE_STRING LABEL_OPTIONAL]
              (scalar "id" TYPE_UINT64 LABEL_OPTIONAL) []
              eq_refl eq_refl eq_refl) as [Hend Hcode].
  - intros p Hp. apply list_elem_of_singleton in Hp. subst p.
    split; [reflexivity|discriminate].
  - reflexivity.
  - discriminate.
  - unfold INT_MAX. cbn. lia.
  - split; [exact Hend|]. split; [exact Hcode|]. reflexivity.
Defined.

(** The failure of [bank.Account] is the field [id] of type [uint64], the
    second of the message; no failure occurs on [Point]. *)
Example fails_Account :
  fails bank_load "bank.proto" "bank.Account" (UnsupportedType TYPE_UINT64).
Proof.
  exists bank_file, Account. split; [reflexivity|]. split; [reflexivity|].
  exists 1%nat, 1%nat. split; [reflexivity|]. unfold INT_MAX. lia.
Qed.

Example walk_Account :
  walk 1 (message_types bank_file) Account = Some (Meets 1 TYPE_UINT64).
Proof. reflexivity. Qed.

Example walk_RM : walk 2 (message_types demo_file) RM = Some (Done 5).
Proof. reflexivity. Qed.

Example no_failure_on_Point k : ~ fails demo_load "demo.proto" "Point" k.
Proof.
  intros Hk.
  apply (fails_not_built _ _ _ _ Hk 5%nat demo_Point).
  vm_compute. reflexivity.
Qed.

(** C3, as the spec words it, fails: with a schema file that cannot be
    opened, and with a field of type [uint64], the process does not exit
    with code 1; it is terminated by the exception. *)
Lemma main_exit_code_counterexample :
  main 5 demo_load (fun _ => true) demo_hash
    ["protog"; "missing.proto"; "m.pb.h"; "M"]
  = Terminates "Unable to open proto file missing.proto" /\
  exit_code
    (main 5 demo_load (fun _ => true) demo_hash
       ["protog"; "missing.proto"; "m.pb.h"; "M"]) <> Some 1 /\
  main 1 bank_load (fun _ => true) demo_hash
    ["protog"; "bank.proto"; "bank.pb.h"; "bank.Account"]
  = Terminates "Unsupported protobuf type 4" /\
  exit_code
    (main 1 bank_load (fun _ => true) demo_hash
       ["protog"; "bank.proto"; "bank.pb.h"; "bank.Account"]) <> Some 1.
Proof.
  split; [vm_compute; reflexivity|].
  split; [vm_compute; discriminate|].
  split; [vm_compute; reflexivity|].
  vm_compute. discriminate.
Qed.
